(** * Sequence-variation detectors: a shallow embedding of
      [sequence_variations.py] and the properties of its eight detectors.

    Python integers are [Z]; Python lists are Rocq lists, read through
    [py_index] (which raises [IndexError] out of range and wraps negative
    indices) and [py_slice] (which clamps, and never raises).  A computation
    that may raise lives in the [result] monad.  [for] loops are [for_each]
    over the list produced by [py_range]; [while] loops are [while] with a
    bound on the number of iterations.

    Items and extracted values live in types with decidable equality, and
    Python's [==] and [!=] on them are that equality and its negation; the
    values of [value_fn] are integers.  This is Python's behaviour on
    integers, strings, [None] and tuples of these; floating-point values
    (whose arithmetic rounds, and where NaN differs from itself) are outside
    the model. *)

From stdpp Require Import base numbers list list_numbers option gmap sorting
  strings.

Local Open Scope Z_scope.

(** ** Python run-time model *)

Inductive exn : Type :=
  | IndexError
  | FuelExhausted.

Inductive result (A : Type) : Type :=
  | Ok (a : A)
  | Raise (e : exn).

Arguments Ok {A} a.
Arguments Raise {A} e.

Global Instance result_ret : MRet result := λ A a, Ok a.

Global Instance result_bind : MBind result := λ A B f m,
  match m with
  | Ok a => f a
  | Raise e => Raise e
  end.

(** What one iteration of a loop body asks of the loop. *)
Inductive flow (St : Type) : Type :=
  | Next (st : St)
  | Break (st : St).

Arguments Next {St} st.
Arguments Break {St} st.

(** [for x in xs: body], threading the variables the body assigns. *)
Fixpoint for_each {X St : Type} (xs : list X)
    (body : X → St → result (flow St)) (st : St) : result St :=
  match xs with
  | [] => Ok st
  | x :: xs' =>
      r ← body x st;
      match r with
      | Next st' => for_each xs' body st'
      | Break st' => Ok st'
      end
  end.

(** [while cond: body], with at most [fuel] iterations. *)
Fixpoint while {St : Type} (fuel : nat) (cond : St → bool)
    (body : St → result St) (st : St) : result St :=
  if cond st then
    match fuel with
    | O => Raise FuelExhausted
    | S fuel' => st' ← body st; while fuel' cond body st'
    end
  else Ok st.

(** [all(f(x) for x in xs)]: stops at the first false. *)
Fixpoint py_all {X : Type} (xs : list X) (f : X → result bool) : result bool :=
  match xs with
  | [] => Ok true
  | x :: xs' => b ← f x; if b : bool then py_all xs' f else Ok false
  end.

Definition len {X : Type} (l : list X) : Z := Z.of_nat (length l).

(** [l[k]] *)
Definition py_index {X : Type} (l : list X) (k : Z) : result X :=
  let k' := if decide (k < 0) then k + len l else k in
  if decide (0 ≤ k' < len l) then
    match l !! Z.to_nat k' with
    | Some x => Ok x
    | None => Raise IndexError
    end
  else Raise IndexError.

Definition clamp_index (n k : Z) : Z :=
  if decide (k < 0) then Z.max (k + n) 0 else Z.min k n.

(** [l[a:b]] *)
Definition py_slice {X : Type} (l : list X) (a b : Z) : list X :=
  let a' := clamp_index (len l) a in
  let b' := clamp_index (len l) b in
  take (Z.to_nat (b' - a')) (drop (Z.to_nat a') l).

(** [range(a, b)] *)
Definition py_range (a b : Z) : list Z := seqZ a (b - a).

(** [_default_aux] on an item that is not a tuple: there is no aux value.
    ([_default_primary] on such an item is the item itself.) *)
Definition no_aux {X : Type} (x : X) : option Z := None.

(** ** Items, and the default extractors

    The items of the scenarios: integers, strings, [None], and tuples of
    such.  Python's [==] on them is structural equality. *)

#[local] Unset Elimination Schemes.
Inductive pyval : Type :=
  | PInt (z : Z)
  | PStr (s : string)
  | PNone
  | PTuple (items : list pyval).
#[local] Set Elimination Schemes.

Fixpoint pyval_eqb (x y : pyval) : bool :=
  match x, y with
  | PInt a, PInt b => bool_decide (a = b)
  | PStr a, PStr b => bool_decide (a = b)
  | PNone, PNone => true
  | PTuple l1, PTuple l2 =>
      (fix go (l1 l2 : list pyval) : bool :=
         match l1, l2 with
         | [], [] => true
         | a :: l1', b :: l2' => pyval_eqb a b && go l1' l2'
         | _, _ => false
         end) l1 l2
  | _, _ => false
  end.

(** The first item of a tuple that has one; the item itself otherwise. *)
Definition _default_primary (x : pyval) : pyval :=
  match x with
  | PTuple (y :: _) => y
  | _ => x
  end.

(** The second item of a tuple that has two; [None] otherwise. *)
Definition _default_aux (x : pyval) : pyval :=
  match x with
  | PTuple (_ :: y :: _) => y
  | _ => PNone
  end.

(** The two shapes of items that the default extractors are made for. *)
Definition not_tuple (x : pyval) : Prop :=
  match x with
  | PTuple _ => False
  | _ => True
  end.

Definition is_pair (x : pyval) : Prop :=
  match x with
  | PTuple [_; _] => True
  | _ => False
  end.

(** ** Match records *)

Record transposition_match : Type := TranspositionMatch {
  tr_position : Z;
  tr_offset : Z
}.

Record change (B : Type) : Type := Change {
  ch_index : Z;
  ch_new : B
}.

Arguments Change {B} ch_index ch_new.
Arguments ch_index {B} c.
Arguments ch_new {B} c.

Record change_match (B : Type) : Type := ChangeMatch {
  cm_position : Z;
  cm_changed : list (change B)
}.

Arguments ChangeMatch {B} cm_position cm_changed.
Arguments cm_position {B} c.
Arguments cm_changed {B} c.

Record fragmentation_match : Type := FragmentationMatch {
  fr_position : Z;
  fr_removed_indices : list Z
}.

Record addition (T : Type) : Type := Addition {
  ad_index : Z;
  ad_value : T
}.

Arguments Addition {T} ad_index ad_value.
Arguments ad_index {T} a.
Arguments ad_value {T} a.

Record extension_match (T : Type) : Type := ExtensionMatch {
  ex_position : Z;
  ex_added : list (addition T)
}.

Arguments ExtensionMatch {T} ex_position ex_added.
Arguments ex_position {T} e.
Arguments ex_added {T} e.

(** ** [sorted] on the items of [best_by_pos]

    Python compares the [(pos, removed)] tuples lexicographically, and the
    lists of integers inside them lexicographically again. *)

Fixpoint list_leb (l1 l2 : list Z) : bool :=
  match l1, l2 with
  | [], _ => true
  | _ :: _, [] => false
  | x :: l1', y :: l2' =>
      if decide (x < y) then true
      else if decide (x = y) then list_leb l1' l2'
      else false
  end.

Definition item_leb (x y : Z * list Z) : bool :=
  if decide (x.1 < y.1) then true
  else if decide (x.1 = y.1) then list_leb x.2 y.2
  else false.

Definition item_le (x y : Z * list Z) : Prop := Is_true (item_leb x y).

Global Instance item_le_dec (x y : Z * list Z) : Decision (item_le x y) :=
  Is_true_dec (item_leb x y).

Definition py_sorted (items : list (Z * list Z)) : list (Z * list Z) :=
  merge_sort item_le items.

(** ** The windowed detectors *)

Section Detectors.
Context {T : Type} `{EqDecision T}.

Definition repetition (pattern sequence : list T) : result (list Z) :=
  let matches := [] in
  let L := len pattern in
  let N := len sequence in
  if decide (L = 0) then Ok matches
  else
    for_each (py_range 0 (N - L + 1)) (λ i matches,
      if decide (py_slice sequence i (i + L) = pattern)
      then Ok (Next (matches ++ [i]))
      else Ok (Next matches)) matches.


Definition transposition {A : Type} `{EqDecision A}
    (pattern sequence : list T) (value_fn : T → Z) (aux_fn : T → A)
    (require_same_aux : bool) : result (list transposition_match) :=
  let results := [] in
  let L := len pattern in
  let N := len sequence in
  if decide (L = 0) then Ok results
  else
    for_each (py_range 0 (N - L + 1)) (λ i results,
      let segment := py_slice sequence i (i + L) in
      (* 1) optional aux equality check *)
      aux_ok ←
        (if require_same_aux then
           py_all (py_range 0 L) (λ j,
             s ← py_index segment j;
             p ← py_index pattern j;
             Ok (bool_decide (aux_fn s = aux_fn p)))
         else Ok true);
      if negb aux_ok then Ok (Next results)
      else
        (* 2) candidate offset from the first element *)
        s0 ← py_index segment 0;
        p0 ← py_index pattern 0;
        let base_offset := value_fn s0 - value_fn p0 in
        if decide (base_offset = 0) then Ok (Next results)
        else
          (* 3) the same offset at every element *)
          ok ← for_each (py_range 0 L) (λ j ok,
                 s ← py_index segment j;
                 p ← py_index pattern j;
                 if decide (value_fn s - value_fn p ≠ base_offset)
                 then Ok (Break false)
                 else Ok (Next ok)) true;
          if ok : bool
          then Ok (Next (results ++ [TranspositionMatch i base_offset]))
          else Ok (Next results)) results.

Definition retrograde {V A : Type} `{EqDecision V} `{EqDecision A}
    (pattern sequence : list T) (primary_fn : T → V) (aux_fn : T → A)
    (require_same_aux : bool) : result (list Z) :=
  let matches := [] in
  let L := len pattern in
  let N := len sequence in
  if decide (L = 0) then Ok matches
  else
    for_each (py_range 0 (N - L + 1)) (λ i matches,
      let segment := py_slice sequence i (i + L) in
      ok ← for_each (py_range 0 L) (λ j ok,
             p ← py_index pattern (L - 1 - j);
             s ← py_index segment j;
             if decide (primary_fn s ≠ primary_fn p) then Ok (Break false)
             else if require_same_aux && bool_decide (aux_fn s ≠ aux_fn p)
             then Ok (Break false)
             else Ok (Next ok)) true;
      if ok : bool then Ok (Next (matches ++ [i])) else Ok (Next matches))
      matches.

Definition inversion {A : Type} `{EqDecision A}
    (pattern sequence : list T) (value_fn : T → Z) (aux_fn : T → A)
    (require_same_aux : bool) : result (list Z) :=
  let matches := [] in
  let L := len pattern in
  let N := len sequence in
  if decide (L = 0) then Ok matches
  else
    p0 ← py_index pattern 0;
    let axis := value_fn p0 in
    for_each (py_range 0 (N - L + 1)) (λ i matches,
      let segment := py_slice sequence i (i + L) in
      (* 1) the first element lies on the axis *)
      s0 ← py_index segment 0;
      if decide (value_fn s0 ≠ axis) then Ok (Next matches)
      else
        (* 2) optional aux equality *)
        aux_ok ←
          (if require_same_aux then
             py_all (py_range 0 L) (λ j,
               s ← py_index segment j;
               p ← py_index pattern j;
               Ok (bool_decide (aux_fn s = aux_fn p)))
           else Ok true);
        if negb aux_ok then Ok (Next matches)
        else
          (* 3) mirrored values *)
          ok ← for_each (py_range 0 L) (λ j ok,
                 p ← py_index pattern j;
                 let v := value_fn p in
                 let expected := axis - (v - axis) in
                 s ← py_index segment j;
                 if decide (value_fn s ≠ expected) then Ok (Break false)
                 else Ok (Next ok)) true;
          if ok : bool then Ok (Next (matches ++ [i])) else Ok (Next matches))
      matches.

Definition local_aux_changes {V A : Type} `{EqDecision V} `{EqDecision A}
    (pattern sequence : list T) (primary_fn : T → V) (aux_fn : T → A)
    (max_changes : option Z) : result (list (change_match A)) :=
  let results := [] in
  let L := len pattern in
  let N := len sequence in
  if decide (L = 0) then Ok results
  else
    let max_changes :=
      match max_changes with
      | None => Z.max 1 (L `div` 4)
      | Some m => m
      end in
    for_each (py_range 0 (N - L + 1)) (λ i results,
      let segment := py_slice sequence i (i + L) in
      (* 1) the primary pattern matches exactly *)
      same ← py_all (py_range 0 L) (λ j,
               s ← py_index segment j;
               p ← py_index pattern j;
               Ok (bool_decide (primary_fn s = primary_fn p)));
      if negb same then Ok (Next results)
      else
        (* 2) record aux changes *)
        changed ← for_each (py_range 0 L) (λ j changed,
                    s ← py_index segment j;
                    p ← py_index pattern j;
                    if decide (aux_fn s ≠ aux_fn p) then
                      s' ← py_index segment j;
                      Ok (Next (changed ++ [Change j (aux_fn s')]))
                    else Ok (Next changed)) [];
        if decide (0 < len changed ≤ max_changes)
        then Ok (Next (results ++ [ChangeMatch i changed]))
        else Ok (Next results)) results.

Definition local_value_changes {V A : Type} `{EqDecision V} `{EqDecision A}
    (pattern sequence : list T) (primary_fn : T → V) (aux_fn : T → A)
    (max_changes : option Z) (require_same_aux : bool)
    : result (list (change_match V)) :=
  let results := [] in
  let L := len pattern in
  let N := len sequence in
  if decide (L = 0) then Ok results
  else
    let max_changes :=
      match max_changes with
      | None => Z.max 1 (L `div` 4)
      | Some m => m
      end in
    for_each (py_range 0 (N - L + 1)) (λ i results,
      let segment := py_slice sequence i (i + L) in
      aux_ok ←
        (if require_same_aux then
           py_all (py_range 0 L) (λ j,
             s ← py_index segment j;
             p ← py_index pattern j;
             Ok (bool_decide (aux_fn s = aux_fn p)))
         else Ok true);
      if negb aux_ok then Ok (Next results)
      else
        changed ← for_each (py_range 0 L) (λ j changed,
                    s ← py_index segment j;
                    p ← py_index pattern j;
                    if decide (primary_fn s ≠ primary_fn p) then
                      s' ← py_index segment j;
                      Ok (Next (changed ++ [Change j (primary_fn s')]))
                    else Ok (Next changed)) [];
        if decide (0 < len changed ≤ max_changes)
        then Ok (Next (results ++ [ChangeMatch i changed]))
        else Ok (Next results)) results.

(** ** Fragmentation and extension *)

(** Both loops advance [i] at every iteration, so [len pattern] iterations
    are enough for each. *)
Definition _removed_positions_for_fragment (pattern fragment : list T)
    : result (option (list Z)) :=
  let Lp := len pattern in
  let Lf := len fragment in
  '(i, j, removed) ←
    while (length pattern)
      (λ '(i, j, _), bool_decide (i < Lp) && bool_decide (j < Lf))
      (λ '(i, j, removed),
         p ← py_index pattern i;
         f ← py_index fragment j;
         if decide (p = f) then Ok (i + 1, j + 1, removed)
         else Ok (i + 1, j, removed ++ [i]))
      (0, 0, []);
  (* anything left in the pattern is removed as well *)
  '(i, removed) ←
    while (length pattern)
      (λ '(i, _), bool_decide (i < Lp))
      (λ '(i, removed), Ok (i + 1, removed ++ [i]))
      (i, removed);
  Ok (if decide (j = Lf) then Some removed else None).

Definition exact_spans (pattern sequence : list T) : list (Z * Z) :=
  let L := len pattern in
  let N := len sequence in
  (λ s, (s, s + L - 1)) <$>
    filter (λ s, py_slice sequence s (s + L) = pattern)
           (py_range 0 (N - L + 1)).

Definition inside_exact_span (spans : list (Z * Z)) (start end_ : Z) : bool :=
  existsb (λ '(a, b), bool_decide (a ≤ start) && bool_decide (end_ ≤ b)) spans.

(** The scan that fills [best_by_pos]. *)
Definition fragmentation_scan (pattern sequence : list T) (min_len : Z)
    : result (gmap Z (list Z)) :=
  let L := len pattern in
  let N := len sequence in
  let spans := exact_spans pattern sequence in
  for_each (py_range min_len L) (λ frag_len best_by_pos,
    best_by_pos ←
      for_each (py_range 0 (N - frag_len + 1)) (λ start best_by_pos,
        let end_ := start + frag_len - 1 in
        if inside_exact_span spans start end_ then Ok (Next best_by_pos)
        else
          let fragment := py_slice sequence start (start + frag_len) in
          removed ← _removed_positions_for_fragment pattern fragment;
          match removed with
          | None => Ok (Next best_by_pos)
          | Some removed =>
              match best_by_pos !! start with
              | None => Ok (Next (<[start := removed]> best_by_pos))
              | Some existing =>
                  if decide (len removed < len existing)
                  then Ok (Next (<[start := removed]> best_by_pos))
                  else Ok (Next best_by_pos)
              end
          end) best_by_pos;
    Ok (Next best_by_pos)) ∅.

(** Removal of overlaps: the earliest non-overlapping matches are kept.
    [sweep_body] is the body of the loop, on the variables [filtered] and
    [last_end]. *)
Definition sweep_body (L : Z) (r : fragmentation_match)
    (st : list fragmentation_match * Z)
    : result (flow (list fragmentation_match * Z)) :=
  let '(filtered, last_end) := st in
  let start := fr_position r in
  let frag_len := L - len (fr_removed_indices r) in
  let end_ := start + frag_len - 1 in
  if decide (start > last_end) then Ok (Next (filtered ++ [r], end_))
  else Ok (Next (filtered, last_end)).

Definition fragmentation_sweep (L : Z) (results : list fragmentation_match)
    : result (list fragmentation_match) :=
  '(filtered, last_end) ← for_each results (sweep_body L) ([], -1);
  Ok filtered.


Definition fragmentation (pattern sequence : list T) (min_len : option Z)
    : result (list fragmentation_match) :=
  let L := len pattern in
  let N := len sequence in
  if decide (L = 0 ∨ N = 0) then Ok []
  else
    let min_len :=
      match min_len with
      | None => L - L `div` 4
      | Some m => m
      end in
    best_by_pos ← fragmentation_scan pattern sequence min_len;
    (* convert to a sorted list *)
    let results :=
      (λ '(pos, removed), FragmentationMatch pos removed) <$>
        py_sorted (map_to_list best_by_pos) in
    fragmentation_sweep L results.

(** Both loops advance [j] at every iteration, so [len fragment]
    iterations are enough for each. *)
Definition _added_positions_for_fragment (pattern fragment : list T)
    : result (option (list (addition T))) :=
  let Lp := len pattern in
  let Lf := len fragment in
  '(i, j, added) ←
    while (length fragment)
      (λ '(i, j, _), bool_decide (j < Lf) && bool_decide (i < Lp))
      (λ '(i, j, added),
         f ← py_index fragment j;
         p ← py_index pattern i;
         if decide (f = p) then Ok (i + 1, j + 1, added)
         else
           v ← py_index fragment j;
           Ok (i, j + 1, added ++ [Addition j v]))
      (0, 0, []);
  (* remaining fragment elements after the pattern is fully matched *)
  '(j, added) ←
    while (length fragment)
      (λ '(j, _), bool_decide (j < Lf))
      (λ '(j, added),
         v ← py_index fragment j;
         Ok (j + 1, added ++ [Addition j v]))
      (j, added);
  if bool_decide (i ≠ Lp) || bool_decide (len added = 0) then Ok None
  else
    (* reject if the additions touch the very start or the very end *)
    first ← py_index added 0;
    last ← py_index added (-1);
    if bool_decide (ad_index first = 0) || bool_decide (ad_index last = Lf - 1)
    then Ok None
    else Ok (Some added).

Definition extension (pattern sequence : list T) (max_extra : option Z)
    : result (list (extension_match T)) :=
  let L := len pattern in
  let N := len sequence in
  if decide (L = 0 ∨ N = 0) then Ok []
  else
    let max_extra :=
      match max_extra with
      | None => Z.max 1 (L `div` 4)
      | Some m => m
      end in
    for_each (py_range 0 (N - L + 1)) (λ start results,
      best ←
        for_each (py_range (L + 1) (L + max_extra + 1)) (λ frag_len best,
          let end_ := start + frag_len in
          if decide (end_ > N) then Ok (Break best)
          else
            let fragment := py_slice sequence start end_ in
            added ← _added_positions_for_fragment pattern fragment;
            match added with
            | None | Some [] => Ok (Next best)
            | Some added =>
                (* keep only the longest valid fragment for this start *)
                Ok (Next (Some (ExtensionMatch start added)))
            end) None;
      match best with
      | Some best => Ok (Next (results ++ [best]))
      | None => Ok (Next results)
      end) [].

End Detectors.

(** ** Vocabulary of the statements *)

(** The elements of [l] whose index, counted from [k], is not in [idx]. *)
Fixpoint delete_from {X : Type} (k : Z) (idx : list Z) (l : list X) : list X :=
  match l with
  | [] => []
  | x :: l' =>
      if decide (k ∈ idx) then delete_from (k + 1) idx l'
      else x :: delete_from (k + 1) idx l'
  end.

(** Deleting from [l] the elements at the indices [idx]. *)
Definition delete_indices {X : Type} (idx : list Z) (l : list X) : list X :=
  delete_from 0 idx l.

(** Every element of the window of [S] that starts at [i] relates by [Q] to
    the element of [P] at the same offset (and the window lies inside [S]). *)
Definition pairwise {T : Type} (S P : list T) (i : Z) (Q : T → T → Prop) : Prop :=
  ∀ j, 0 ≤ j < len P →
    ∃ s p, S !! Z.to_nat (i + j) = Some s ∧ P !! Z.to_nat j = Some p ∧ Q s p.

(** The window of [S] that the record [r] points at is [P] shifted by the
    non-zero constant [tr_offset r] (and has the aux values of [P] when
    these are compared). *)
Definition transposed_at {T A : Type} (P S : list T) (value_fn : T → Z)
    (aux_fn : T → A) (require_same_aux : bool) (r : transposition_match) : Prop :=
  tr_offset r ≠ 0 ∧
  pairwise S P (tr_position r) (λ s p, value_fn s - value_fn p = tr_offset r) ∧
  (require_same_aux = true →
   pairwise S P (tr_position r) (λ s p, aux_fn s = aux_fn p)).

(** The window of [S] that starts at [i] is the mirror image of [P] around
    [axis]: it starts on the axis, every primary value is the reflection of
    the pattern's, and the aux values are those of [P] when these are
    compared. *)
Definition inverted_at {T A : Type} (P S : list T) (value_fn : T → Z)
    (aux_fn : T → A) (require_same_aux : bool) (axis : Z) (i : Z) : Prop :=
  (∃ s0, S !! Z.to_nat i = Some s0 ∧ value_fn s0 = axis) ∧
  (require_same_aux = true → pairwise S P i (λ s p, aux_fn s = aux_fn p)) ∧
  pairwise S P i (λ s p, value_fn s = axis - (value_fn p - axis)).

(** The loop invariant of [_removed_positions_for_fragment]: the pattern
    cursor is at [i], the fragment cursor at [j], and deleting [removed] from
    the first [i] items of [P] leaves the first [j] items of [F]. *)
Definition removed_inv {T : Type} (P F : list T) (i j : Z) (removed : list Z)
    : Prop :=
  0 ≤ j ≤ i ∧ i ≤ len P ∧ j ≤ len F ∧
  StronglySorted Z.lt removed ∧
  Forall (λ k, 0 ≤ k < i) removed ∧
  len removed = i - j ∧
  delete_indices removed (take (Z.to_nat i) P) = take (Z.to_nat j) F.

Section FragmentationVocabulary.
Context {T : Type} `{EqDecision T}.

(** The window of [S] of length [frag_len] at [start] is a candidate of the
    scan of [fragmentation], with the removed indices [removed]: it lies
    inside [S], it is not inside the span of an exact match, and it aligns
    against [P]. *)
Definition frag_candidate (P S : list T) (frag_len start : Z)
    (removed : list Z) : Prop :=
  0 ≤ start ≤ len S - frag_len ∧
  inside_exact_span (exact_spans P S) start (start + frag_len - 1) = false ∧
  _removed_positions_for_fragment P (py_slice S start (start + frag_len))
    = Ok (Some removed).

(** [removed] comes from the longest candidate at [start] among the window
    lengths [lens]. *)
Definition best_candidate (P S : list T) (lens : list Z) (start : Z)
    (removed : list Z) : Prop :=
  ∃ frag_len, frag_len ∈ lens ∧ frag_candidate P S frag_len start removed ∧
    ∀ frag_len' removed', frag_len' ∈ lens →
      frag_candidate P S frag_len' start removed' → frag_len' ≤ frag_len.

(** [removed] are the removed indices of a candidate at [start], and no
    candidate at [start] has fewer removed indices. *)
Definition fewest_removed (P S : list T) (lens : list Z) (start : Z)
    (removed : list Z) : Prop :=
  (∃ frag_len, frag_len ∈ lens ∧ frag_candidate P S frag_len start removed) ∧
  ∀ frag_len' removed', frag_len' ∈ lens →
    frag_candidate P S frag_len' start removed' → len removed ≤ len removed'.
End FragmentationVocabulary.

(** The last index of the window of the record [r], for a pattern of
    length [L]. *)
Definition fr_end (L : Z) (r : fragmentation_match) : Z :=
  fr_position r + (L - len (fr_removed_indices r)) - 1.

(** The end index of the last record kept so far by the sweep; [-1] when
    none has been kept. *)
Definition last_end (L : Z) (kept : list fragmentation_match) : Z :=
  match last kept with
  | Some k => fr_end L k
  | None => -1
  end.

(** The loop invariant of [_added_positions_for_fragment]: the pattern cursor
    is at [i], the fragment cursor at [j], and deleting the added indices
    from the first [j] items of [F] leaves the first [i] items of [P]. *)
Definition added_inv {T : Type} (P F : list T) (i j : Z)
    (added : list (addition T)) : Prop :=
  0 ≤ i ≤ j ∧ i ≤ len P ∧ j ≤ len F ∧
  StronglySorted Z.lt (ad_index <$> added) ∧
  Forall (λ a, 0 ≤ ad_index a < j ∧
               F !! Z.to_nat (ad_index a) = Some (ad_value a)) added ∧
  len added = j - i ∧
  delete_indices (ad_index <$> added) (take (Z.to_nat j) F) = take (Z.to_nat i) P.

Section ExtensionVocabulary.
Context {T : Type} `{EqDecision T}.

(** The window lengths that [extension] tries, in the order of the scan. *)
Definition extension_lengths (P : list T) (max_extra : option Z) : list Z :=
  let L := len P in
  let max_extra :=
    match max_extra with
    | None => Z.max 1 (L `div` 4)
    | Some m => m
    end in
  py_range (L + 1) (L + max_extra + 1).

(** The window of [S] of length [frag_len] at [start] qualifies, with the
    additions [added]: its length is one of [lens], it lies inside [S],
    and the pattern aligns against it. *)
Definition ext_qualifies (P S : list T) (lens : list Z) (start frag_len : Z)
    (added : list (addition T)) : Prop :=
  frag_len ∈ lens ∧ 0 ≤ start ∧ start + frag_len ≤ len S ∧
  _added_positions_for_fragment P (py_slice S start (start + frag_len))
    = Ok (Some added).

(** [added] comes from the longest qualifying window at [start]. *)
Definition longest_qualifying (P S : list T) (lens : list Z) (start : Z)
    (added : list (addition T)) : Prop :=
  ∃ frag_len, ext_qualifies P S lens start frag_len added ∧
    ∀ frag_len' added', ext_qualifies P S lens start frag_len' added' →
      frag_len' ≤ frag_len.
End ExtensionVocabulary.

(** The window of [S] that starts at [i] is [P] read backwards: at every
    offset its item has the primary value (and the aux value, when these are
    compared) of the item of [P] at the mirrored offset. *)
Definition retrograde_at {T V A : Type} (P S : list T) (primary_fn : T → V)
    (aux_fn : T → A) (require_same_aux : bool) (i : Z) : Prop :=
  ∀ j, 0 ≤ j < len P →
    ∃ s p, S !! Z.to_nat (i + j) = Some s ∧
           P !! Z.to_nat (len P - 1 - j) = Some p ∧
           primary_fn s = primary_fn p ∧
           (require_same_aux = true → aux_fn s = aux_fn p).

(** [changed] lists, by strictly increasing offset, exactly the offsets of
    the window of [S] at [i] where [g] differs from its value on the pattern,
    each with the value of [g] in the window. *)
Definition is_changes {T B : Type} (S P : list T) (g : T → B) (i : Z)
    (changed : list (change B)) : Prop :=
  StronglySorted Z.lt (ch_index <$> changed) ∧
  ∀ c, c ∈ changed ↔
    0 ≤ ch_index c < len P ∧
    ∃ s p, S !! Z.to_nat (i + ch_index c) = Some s ∧
           P !! Z.to_nat (ch_index c) = Some p ∧
           g s ≠ g p ∧ ch_new c = g s.

(** The bound on the number of changes that the two local-change detectors
    use. *)
Definition effective_max_changes {T : Type} (P : list T)
    (max_changes : option Z) : Z :=
  match max_changes with
  | None => Z.max 1 (len P `div` 4)
  | Some m => m
  end.


Section AdditionVocabulary.
Context {T : Type}.
Implicit Types (P F : list T) (i j : Z) (added : list (addition T)).

(** The first item of the fragment is an addition unless it is the first
    item of the pattern. *)
Definition first_item_kept P F added : Prop :=
  (head F = head P ∧ is_Some (head P)) ↔ ∀ a, a ∈ added → ad_index a ≠ 0.

(** The item read last is an addition exactly when the part of the pattern
    that is matched lies inside the items before it. *)
Definition last_item_added P F i j added : Prop :=
  (∃ a, last added = Some a ∧ ad_index a = j - 1) ↔
  take (Z.to_nat i) P `sublist_of` take (Z.to_nat (j - 1)) F.
End AdditionVocabulary.

(** * Properties *)

(** ** The [result] monad and the loops *)

(** A loop whose body never breaks and never raises establishes any
    invariant that the body maintains along the list. *)
Lemma for_each_inv {X St : Type} (Inv : list X → St → Prop)
    (xs : list X) (body : X → St → result (flow St)) (st0 : St) :
  Inv [] st0 →
  (∀ pre x post st, xs = pre ++ x :: post → Inv pre st →
     ∃ st', body x st = Ok (Next st') ∧ Inv (pre ++ [x]) st') →
  ∃ st', for_each xs body st0 = Ok st' ∧ Inv xs st'.
Proof.
  revert Inv st0. induction xs as [|x xs IH]; intros Inv st0 H0 Hstep.
  - by exists st0.
  - destruct (Hstep [] x xs st0 eq_refl H0) as (st1 & Hb & H1).
    destruct (IH (λ pre, Inv (x :: pre)) st1 H1) as (st' & Hf & H').
    + intros pre y post st -> Hpre.
      apply (Hstep (x :: pre) y post st); [done | done].
    + exists st'. split; [| done]. simpl. by rewrite Hb.
Qed.

(** A loop that appends to a list: the result is the input followed by
    what each iteration appended, in order. *)
Lemma for_each_collect {X Y : Type} (R : X → list Y → Prop)
    (xs : list X) (body : X → list Y → result (flow (list Y))) :
  (∀ x, x ∈ xs → ∃ rs, R x rs ∧ ∀ st, body x st = Ok (Next (st ++ rs))) →
  ∀ st, ∃ rss, for_each xs body st = Ok (st ++ concat rss) ∧ Forall2 R xs rss.
Proof.
  induction xs as [|x xs IH]; intros Hbody st.
  - exists []. split; [by rewrite app_nil_r | constructor].
  - destruct (Hbody x) as (rs & HR & Hb); [by left |].
    destruct (IH (λ y Hy, Hbody y (list_elem_of_further _ _ _ Hy)) (st ++ rs))
      as (rss & Hf & HF).
    exists (rs :: rss). split; [| by constructor].
    simpl. rewrite Hb. simpl. rewrite Hf. by rewrite <-app_assoc.
Qed.

(** The idiom [ok = True; for x in xs: if bad(x): ok = False; break]. *)
Lemma for_each_flag {X : Type} (Q : X → Prop) (xs : list X)
    (body : X → bool → result (flow bool)) :
  (∀ x, x ∈ xs → ∃ b : bool, (b = true ↔ Q x) ∧
     ∀ ok, body x ok = Ok (if b then Next ok else Break false)) →
  ∃ b : bool, for_each xs body true = Ok b ∧ (b = true ↔ ∀ x, x ∈ xs → Q x).
Proof.
  induction xs as [|x xs IH]; intros Hbody.
  - exists true. split; [done |]. split; [| done]. intros _ x Hx. by inversion Hx.
  - destruct (Hbody x) as (b & HQ & Hb); [by left |].
    destruct (IH (λ y Hy, Hbody y (list_elem_of_further _ _ _ Hy)))
      as (b' & Hf & Hall).
    simpl. rewrite Hb. destruct b; simpl.
    + exists b'. split; [done |]. rewrite Hall. split.
      * intros Hxs y Hy. apply elem_of_cons in Hy as [-> | Hy]; [by apply HQ | auto].
      * intros Hxs y Hy. apply Hxs. by right.
    + exists false. split; [done |]. split; [done |].
      intros Hxs. apply HQ, Hxs. by left.
Qed.

Lemma py_all_spec {X : Type} (Q : X → Prop) (xs : list X) (f : X → result bool) :
  (∀ x, x ∈ xs → ∃ b : bool, (b = true ↔ Q x) ∧ f x = Ok b) →
  ∃ b : bool, py_all xs f = Ok b ∧ (b = true ↔ ∀ x, x ∈ xs → Q x).
Proof.
  induction xs as [|x xs IH]; intros Hf.
  - exists true. split; [done |]. split; [| done]. intros _ x Hx. by inversion Hx.
  - destruct (Hf x) as (b & HQ & Hb); [by left |].
    destruct (IH (λ y Hy, Hf y (list_elem_of_further _ _ _ Hy)))
      as (b' & Hall & Hiff).
    simpl. rewrite Hb. destruct b; simpl.
    + exists b'. split; [done |]. rewrite Hiff. split.
      * intros Hxs y Hy. apply elem_of_cons in Hy as [-> | Hy]; [by apply HQ | auto].
      * intros Hxs y Hy. apply Hxs. by right.
    + exists false. split; [done |]. split; [done |].
      intros Hxs. apply HQ, Hxs. by left.
Qed.

(** Total correctness of a [while] loop: an invariant, and a variant that
    the fuel covers. *)
Lemma while_inv {St : Type} (Inv : St → Prop) (variant : St → nat)
    (cond : St → bool) (body : St → result St) :
  (∀ st, Inv st → cond st = true →
     ∃ st', body st = Ok st' ∧ Inv st' ∧ (variant st' < variant st)%nat) →
  ∀ fuel st, Inv st → (variant st ≤ fuel)%nat →
  ∃ st', while fuel cond body st = Ok st' ∧ Inv st' ∧ cond st' = false.
Proof.
  intros Hstep fuel. induction fuel as [|fuel IH]; intros st Hinv Hvar.
  - destruct (cond st) eqn:Hc.
    + destruct (Hstep st Hinv Hc) as (st' & _ & _ & Hlt). lia.
    + exists st. simpl. by rewrite Hc.
  - destruct (cond st) eqn:Hc.
    + destruct (Hstep st Hinv Hc) as (st' & Hb & Hinv' & Hlt).
      destruct (IH st' Hinv') as (st'' & Hw & Hinv'' & Hc''); [lia |].
      exists st''. simpl. rewrite Hc, Hb. by simpl.
    + exists st. simpl. by rewrite Hc.
Qed.

(** ** Ranges, indexing and slicing *)

Lemma len_nonneg {X : Type} (l : list X) : 0 ≤ len l.
Proof. unfold len. lia. Qed.

Lemma len_app {X : Type} (l1 l2 : list X) : len (l1 ++ l2) = len l1 + len l2.
Proof. unfold len. rewrite length_app. lia. Qed.

Lemma len_nil_inv {X : Type} (l : list X) : len l = 0 → l = [].
Proof. destruct l; [done | unfold len; simpl; lia]. Qed.

Lemma elem_of_py_range (a b k : Z) : k ∈ py_range a b ↔ a ≤ k < b.
Proof. unfold py_range. rewrite elem_of_seqZ. lia. Qed.

Lemma py_range_empty (a b : Z) : b ≤ a → py_range a b = [].
Proof. intros. unfold py_range. apply seqZ_nil. lia. Qed.

Lemma seqZ_StronglySorted (a n : Z) : StronglySorted Z.lt (seqZ a n).
Proof.
  destruct (decide (n ≤ 0)) as [Hn | Hn].
  { rewrite seqZ_nil by done. constructor. }
  rewrite <-(Z2Nat.id n) by lia. generalize (Z.to_nat n) as k. clear n Hn.
  intros k. revert a. induction k as [|k IH]; intros a.
  - rewrite seqZ_nil by lia. constructor.
  - rewrite seqZ_cons by lia. constructor.
    + replace (Z.pred (Z.of_nat (S k))) with (Z.of_nat k) by lia. apply IH.
    + apply Forall_forall. intros y Hy. apply elem_of_seqZ in Hy. lia.
Qed.

Lemma py_range_StronglySorted (a b : Z) : StronglySorted Z.lt (py_range a b).
Proof. apply seqZ_StronglySorted. Qed.

Lemma py_index_inbounds {X : Type} (l : list X) (k : Z) :
  0 ≤ k < len l → ∃ x, l !! Z.to_nat k = Some x ∧ py_index l k = Ok x.
Proof.
  intros Hk. unfold py_index. cbv zeta.
  rewrite (decide_False (P := k < 0)) by lia. rewrite decide_True by done.
  destruct (lookup_lt_is_Some_2 l (Z.to_nat k)) as [x Hx].
  { unfold len in Hk. lia. }
  exists x. by rewrite Hx.
Qed.

Lemma py_index_lookup {X : Type} (l : list X) (k : Z) (x : X) :
  0 ≤ k → l !! Z.to_nat k = Some x → py_index l k = Ok x.
Proof.
  intros Hk Hx. destruct (py_index_inbounds l k) as (y & Hy & ->).
  - apply lookup_lt_Some in Hx. unfold len. lia.
  - congruence.
Qed.

(** The last element, as [l[-1]]. *)
Lemma py_index_last {X : Type} (l : list X) (x : X) :
  py_index (l ++ [x]) (-1) = Ok x.
Proof.
  unfold py_index. cbv zeta. rewrite (decide_True (P := -1 < 0)) by lia.
  rewrite len_app. change (len [x]) with 1.
  pose proof (len_nonneg l). rewrite decide_True by lia.
  replace (Z.to_nat (-1 + (len l + 1))) with (length l) by (unfold len; lia).
  by rewrite list_lookup_middle.
Qed.

Section Window.
Context {X : Type}.
Implicit Types (s : list X) (i w j : Z).

Lemma py_slice_window s i w :
  0 ≤ i → 0 ≤ w → i + w ≤ len s →
  py_slice s i (i + w) = take (Z.to_nat w) (drop (Z.to_nat i) s).
Proof.
  intros Hi Hw Hiw. unfold py_slice, clamp_index.
  rewrite !decide_False by lia.
  rewrite !Z.min_l by lia. f_equal. lia.
Qed.

Lemma len_py_slice_window s i w :
  0 ≤ i → 0 ≤ w → i + w ≤ len s → len (py_slice s i (i + w)) = w.
Proof.
  intros Hi Hw Hiw. rewrite py_slice_window by done.
  unfold len in *. rewrite length_take, length_drop. lia.
Qed.

Lemma lookup_py_slice_window s i w j :
  0 ≤ i → 0 ≤ w → i + w ≤ len s → 0 ≤ j < w →
  py_slice s i (i + w) !! Z.to_nat j = s !! Z.to_nat (i + j).
Proof.
  intros Hi Hw Hiw Hj. rewrite py_slice_window by done.
  rewrite lookup_take_lt by lia. rewrite lookup_drop. f_equal. lia.
Qed.

(** Reading position [j] of a window that lies inside the sequence. *)
Lemma window_index s i w j :
  0 ≤ i → i + w ≤ len s → 0 ≤ j < w →
  ∃ x, s !! Z.to_nat (i + j) = Some x ∧ py_index (py_slice s i (i + w)) j = Ok x.
Proof.
  intros Hi Hiw Hj.
  destruct (py_index_inbounds (py_slice s i (i + w)) j) as (x & Hx & Hix).
  { rewrite len_py_slice_window by lia. done. }
  exists x. split; [| done]. by rewrite <-lookup_py_slice_window with (w := w) by lia.
Qed.

(** A window equals a list exactly when it does so element by element. *)
Lemma py_slice_window_eq s i (p : list X) :
  0 ≤ i → i + len p ≤ len s →
  py_slice s i (i + len p) = p ↔
  ∀ j, 0 ≤ j < len p → s !! Z.to_nat (i + j) = p !! Z.to_nat j.
Proof.
  intros Hi Hip. pose proof (len_nonneg p) as Hp. split.
  - intros Heq j Hj. rewrite <-lookup_py_slice_window with (w := len p) by lia.
    by rewrite Heq.
  - intros Hall. apply list_eq. intros n.
    destruct (decide (Z.of_nat n < len p)) as [Hn | Hn].
    + specialize (Hall (Z.of_nat n)).
      rewrite <-lookup_py_slice_window with (w := len p) in Hall by lia.
      rewrite Nat2Z.id in Hall. apply Hall. lia.
    + rewrite !lookup_ge_None_2; [done | unfold len in *; lia |].
      pose proof (len_py_slice_window s i (len p) Hi Hp Hip) as Hlen.
      unfold len in *. lia.
Qed.
End Window.

(** ** Loops that select at most one record per position *)

Lemma StronglySorted_sublist {X : Type} (R : relation X) (l1 l2 : list X) :
  l1 `sublist_of` l2 → StronglySorted R l2 → StronglySorted R l1.
Proof.
  induction 1 as [| x l1 l2 Hsub IH | x l1 l2 Hsub IH]; intros Hs.
  - constructor.
  - apply StronglySorted_cons in Hs as [Hx Hs].
    apply StronglySorted_cons. split; [| auto].
    eapply Forall_forall. intros y Hy.
    eapply Forall_forall in Hx; [done |]. by eapply elem_of_sublist.
  - apply StronglySorted_cons in Hs as [_ Hs]. auto.
Qed.

Lemma for_each_select {X Y : Type} (P : X → Y → Prop) (key : Y → X)
    (xs : list X) (body : X → list Y → result (flow (list Y))) :
  (∀ x r, P x r → key r = x) →
  (∀ x, x ∈ xs → ∃ rs, (length rs ≤ 1)%nat ∧ (∀ r, r ∈ rs ↔ P x r) ∧
     ∀ st, body x st = Ok (Next (st ++ rs))) →
  ∃ res, for_each xs body [] = Ok res ∧
    (∀ r, r ∈ res ↔ ∃ x, x ∈ xs ∧ P x r) ∧
    (key <$> res) `sublist_of` xs.
Proof.
  intros Hkey Hbody.
  destruct (for_each_collect
    (λ x rs, (length rs ≤ 1)%nat ∧ ∀ r, r ∈ rs ↔ P x r) xs body) with (st := @nil Y)
    as (rss & Hrun & HF).
  { intros x Hx. destruct (Hbody x Hx) as (rs & ? & ? & ?). by exists rs. }
  exists (concat rss). split; [done |]. clear Hrun Hbody.
  induction HF as [| x rs xs rss [Hlen HP] HF [IHin IHsub]]; simpl.
  - split; [| done]. intros r. split; [by inversion 1 |].
    intros (x & Hx & _). by inversion Hx.
  - split.
    + intros r. rewrite elem_of_app, HP, IHin. split.
      * intros [Hr | (y & Hy & Hr)]; [exists x | exists y]; split; try done;
          by constructor.
      * intros (y & Hy & Hr). apply elem_of_cons in Hy as [-> | Hy]; eauto.
    + rewrite fmap_app. destruct rs as [| r [| r' rs]]; simpl in *.
      * by apply sublist_cons.
      * rewrite (Hkey x r); [by apply sublist_skip |]. apply HP. by left.
      * lia.
Qed.

(** ** Repetition *)

Section Repetition.
Context {T : Type} `{EqDecision T}.
Implicit Types (P S : list T).

(** What [repetition] returns, exactly. *)
Lemma repetition_select P S :
  ∃ res, repetition P S = Ok res ∧
    (∀ i, i ∈ res ↔
       P ≠ [] ∧ 0 ≤ i ≤ len S - len P ∧ py_slice S i (i + len P) = P) ∧
    StronglySorted Z.lt res.
Proof.
  unfold repetition. cbv zeta.
  destruct (decide (len P = 0)) as [HL | HL].
  { exists []. split; [done |]. split; [| constructor].
    intros i. split; [by inversion 1 |].
    intros (HP & _). by apply len_nil_inv in HL. }
  match goal with
  | |- ∃ res, for_each ?xs ?body [] = Ok res ∧ _ =>
      destruct (for_each_select
        (λ i r : Z, r = i ∧ py_slice S i (i + len P) = P) id xs body)
        as (res & Hrun & Hin & Hsub); [| | exists res; split; [exact Hrun |]]
  end.
  - by intros x r [-> _].
  - intros i Hi. destruct (decide (py_slice S i (i + len P) = P)) as [Hw | Hw].
    + exists [i]. split; [done |]. split; [| done].
      intros r. rewrite list_elem_of_singleton. tauto.
    + exists []. split; [simpl; lia |]. split.
      * intros r. split; [by inversion 1 | tauto].
      * intros st. by rewrite app_nil_r.
  - split.
    + intros i. rewrite Hin. split.
      * intros (x & Hx & -> & Hw). apply elem_of_py_range in Hx.
        split; [by intros -> |]. split; [lia | done].
      * intros (HP & Hi & Hw). exists i. split; [apply elem_of_py_range; lia |].
        done.
    + rewrite list_fmap_id in Hsub.
      eapply StronglySorted_sublist; [done | apply py_range_StronglySorted].
Qed.

(** C1. For a non-empty pattern [repetition] returns, in strictly
    ascending order (hence without duplicates), exactly the start indices
    [i] in [[0, len S - len P]] at which the window of [S] equals [P]
    element by element; for the empty pattern it returns the empty list. *)
Theorem repetition_exact_windows P S :
  repetition [] S = Ok [] ∧
  ∃ res, repetition P S = Ok res ∧
    StronglySorted Z.lt res ∧
    ∀ i, i ∈ res ↔
      P ≠ [] ∧ 0 ≤ i ≤ len S - len P ∧
      ∀ j, 0 ≤ j < len P → S !! Z.to_nat (i + j) = P !! Z.to_nat j.
Proof.
  split; [done |].
  destruct (repetition_select P S) as (res & Hrun & Hin & Hsorted).
  exists res. split_and!; [done | done |].
  intros i. rewrite Hin. split.
  - intros (HP & Hi & Hw). split; [done |]. split; [done |].
    apply py_slice_window_eq; [lia | lia | done].
  - intros (HP & Hi & Hall). split; [done |]. split; [done |].
    apply py_slice_window_eq; [lia | lia | done].
Qed.
End Repetition.

(** ** Windows read element by element *)

Section Pairwise.
Context {T : Type}.
Implicit Types (P S : list T) (i j : Z).

Lemma window_pair S P i j :
  0 ≤ i → i + len P ≤ len S → 0 ≤ j < len P →
  ∃ s p, S !! Z.to_nat (i + j) = Some s ∧ P !! Z.to_nat j = Some p ∧
    py_index (py_slice S i (i + len P)) j = Ok s ∧ py_index P j = Ok p.
Proof.
  intros Hi Hip Hj.
  destruct (window_index S i (len P) j) as (s & Hs & Hsi); [done.. |].
  destruct (py_index_inbounds P j) as (p & Hp & Hpi); [done |].
  by exists s, p.
Qed.

Lemma pairwise_at S P i (Q : T → T → Prop) j s p :
  pairwise S P i Q → 0 ≤ j < len P →
  S !! Z.to_nat (i + j) = Some s → P !! Z.to_nat j = Some p → Q s p.
Proof.
  intros HQ Hj Hs Hp. destruct (HQ j Hj) as (s' & p' & Hs' & Hp' & H).
  congruence.
Qed.

(** What the range of a loop over the offsets of a window says. *)
Lemma pairwise_range S P i (Q : T → T → Prop) :
  0 ≤ i → i + len P ≤ len S →
  (∀ j, j ∈ py_range 0 (len P) →
     ∀ s p, S !! Z.to_nat (i + j) = Some s → P !! Z.to_nat j = Some p → Q s p)
  ↔ pairwise S P i Q.
Proof.
  intros Hi Hip. split.
  - intros Hall j Hj.
    destruct (window_pair S P i j) as (s & p & Hs & Hp & _); [done.. |].
    exists s, p. split_and!; [done | done |].
    apply (Hall j); [by apply elem_of_py_range; lia | done | done].
  - intros HQ j Hj s p Hs Hp. apply elem_of_py_range in Hj.
    eapply pairwise_at; [done | | done | done]. lia.
Qed.
End Pairwise.

Section WindowChecks.
Context {T : Type} `{EqDecision T}.
Implicit Types (P S : list T) (i j : Z).

(** The check [all(g(segment[j]) == g(pattern[j]) for j in range(L))]. *)
Lemma py_all_window_eq {B : Type} `{EqDecision B} S P i (g : T → B) :
  0 ≤ i → i + len P ≤ len S →
  ∃ b : bool,
    py_all (py_range 0 (len P)) (λ j,
      s ← py_index (py_slice S i (i + len P)) j;
      p ← py_index P j;
      Ok (bool_decide (g s = g p))) = Ok b ∧
    (b = true ↔ pairwise S P i (λ s p, g s = g p)).
Proof.
  intros Hi Hip.
  match goal with
  | |- ∃ b : bool, py_all ?xs ?f = Ok b ∧ _ =>
      destruct (py_all_spec
        (λ j, ∀ s p, S !! Z.to_nat (i + j) = Some s →
                P !! Z.to_nat j = Some p → g s = g p) xs f)
        as (b & Hb & Hiff)
  end.
  - intros j Hj. apply elem_of_py_range in Hj.
    destruct (window_pair S P i j) as (s & p & Hs & Hp & Hsi & Hpi); [lia.. |].
    exists (bool_decide (g s = g p)). split.
    + rewrite bool_decide_eq_true. split.
      * intros Hg s' p' Hs' Hp'. congruence.
      * intros Hall. by apply Hall.
    + by rewrite Hsi, Hpi.
  - exists b. split; [done |]. rewrite Hiff. by apply pairwise_range.
Qed.

(** The same check, made only when [require_same_aux] is set. *)
Lemma optional_aux_check {B : Type} `{EqDecision B} S P i (g : T → B)
    (require_same_aux : bool) :
  0 ≤ i → i + len P ≤ len S →
  ∃ b : bool,
    (if require_same_aux then
       py_all (py_range 0 (len P)) (λ j,
         s ← py_index (py_slice S i (i + len P)) j;
         p ← py_index P j;
         Ok (bool_decide (g s = g p)))
     else Ok true) = Ok b ∧
    (b = true ↔
     (require_same_aux = true → pairwise S P i (λ s p, g s = g p))).
Proof.
  intros Hi Hip. destruct require_same_aux.
  - destruct (py_all_window_eq S P i g Hi Hip) as (b & Hb & Hiff).
    exists b. split; [done |]. rewrite Hiff. tauto.
  - exists true. split; [done |]. split; [done | done].
Qed.
End WindowChecks.

(** ** Transposition *)

Section Transposition.
Context {T A : Type} `{EqDecision T} `{EqDecision A}.
Context (value_fn : T → Z) (aux_fn : T → A) (require_same_aux : bool).
Implicit Types (P S : list T) (i j : Z) (r : transposition_match).

Lemma offset_flag_loop S P i (base_offset : Z) :
  0 ≤ i → i + len P ≤ len S →
  ∃ b : bool,
    for_each (py_range 0 (len P)) (λ j ok,
      s ← py_index (py_slice S i (i + len P)) j;
      p ← py_index P j;
      if decide (value_fn s - value_fn p ≠ base_offset)
      then Ok (Break false)
      else Ok (Next ok)) true = Ok b ∧
    (b = true ↔ pairwise S P i (λ s p, value_fn s - value_fn p = base_offset)).
Proof.
  intros Hi Hip.
  match goal with
  | |- ∃ b : bool, for_each ?xs ?body true = Ok b ∧ _ =>
      destruct (for_each_flag
        (λ j, ∀ s p, S !! Z.to_nat (i + j) = Some s →
                P !! Z.to_nat j = Some p →
                value_fn s - value_fn p = base_offset) xs body)
        as (b & Hb & Hiff)
  end.
  - intros j Hj. apply elem_of_py_range in Hj.
    destruct (window_pair S P i j) as (s & p & Hs & Hp & Hsi & Hpi); [lia.. |].
    exists (bool_decide (value_fn s - value_fn p = base_offset)). split.
    + rewrite bool_decide_eq_true. split.
      * intros Hg s' p' Hs' Hp'. congruence.
      * intros Hall. by apply Hall.
    + intros ok. rewrite Hsi, Hpi. simpl.
      destruct (decide (value_fn s - value_fn p ≠ base_offset)) as [Hne | Heq].
      * by rewrite bool_decide_eq_false_2.
      * rewrite bool_decide_eq_true_2; [done |]. lia.
  - exists b. split; [done |]. rewrite Hiff. by apply pairwise_range.
Qed.

(** What [transposition] returns, exactly. *)
Lemma transposition_select P S :
  ∃ res, transposition P S value_fn aux_fn require_same_aux = Ok res ∧
    (∀ r, r ∈ res ↔
       P ≠ [] ∧ 0 ≤ tr_position r ≤ len S - len P ∧
       transposed_at P S value_fn aux_fn require_same_aux r) ∧
    StronglySorted Z.lt (tr_position <$> res).
Proof.
  unfold transposition. cbv zeta.
  destruct (decide (len P = 0)) as [HL | HL].
  { exists []. split; [done |]. split; [| constructor].
    intros r. split; [by inversion 1 |].
    intros (HP & _). by apply len_nil_inv in HL. }
  assert (HP : P ≠ []) by (by intros ->).
  pose proof (len_nonneg P) as HL0.
  match goal with
  | |- ∃ res, for_each ?xs ?body [] = Ok res ∧ _ =>
      destruct (for_each_select
        (λ i r, tr_position r = i ∧
                transposed_at P S value_fn aux_fn require_same_aux r)
        tr_position xs body)
        as (res & Hrun & Hin & Hsub); [| | exists res; split; [exact Hrun |]]
  end.
  - by intros x r [-> _].
  - intros i Hi. apply elem_of_py_range in Hi.
    assert (Hi0 : 0 ≤ i) by lia. assert (Hip : i + len P ≤ len S) by lia.
    destruct (optional_aux_check S P i aux_fn require_same_aux Hi0 Hip)
      as (b1 & Hb1 & Haux).
    destruct (window_pair S P i 0) as (s0 & p0 & Hs0 & Hp0 & Hsi0 & Hpi0); [lia.. |].
    destruct (offset_flag_loop S P i (value_fn s0 - value_fn p0) Hi0 Hip)
      as (b2 & Hb2 & Hoff).
    (* every record at [i] has the offset read at the first element *)
    assert (Hbase : ∀ r, tr_position r = i →
              transposed_at P S value_fn aux_fn require_same_aux r →
              tr_offset r = value_fn s0 - value_fn p0).
    { intros r Hr (_ & Hpw & _). rewrite Hr in Hpw.
      pose proof (pairwise_at S P i _ 0 s0 p0 Hpw) as H0. simpl in H0.
      rewrite H0; [done | lia | done | done]. }
    assert (Hnone : ∀ r, r ∈ @nil transposition_match ↔ False)
      by (intros r; split; [by inversion 1 | done]).
    destruct b1; simpl.
    2:{ exists []. split; [simpl; lia |]. split.
        - intros r. rewrite Hnone. split; [done |].
          intros (Hr & _ & _ & Ha). rewrite Hr in Ha. by apply Haux in Ha.
        - intros st. rewrite Hb1. simpl. by rewrite app_nil_r. }
    destruct (decide (value_fn s0 - value_fn p0 = 0)) as [Hz | Hnz].
    { exists []. split; [simpl; lia |]. split.
      - intros r. rewrite Hnone. split; [done |].
        intros (Hr & Hspec). pose proof (Hbase r Hr Hspec) as Ho.
        destruct Hspec as (Hne & _). lia.
      - intros st. rewrite Hb1. simpl. rewrite Hsi0, Hpi0. simpl.
        rewrite decide_True by done. by rewrite app_nil_r. }
    destruct b2.
    + exists [TranspositionMatch i (value_fn s0 - value_fn p0)].
      split; [done |]. split.
      * intros r. rewrite list_elem_of_singleton. split.
        -- intros ->. split; [done |]. split; [done |]. simpl. split.
           ++ by apply Hoff.
           ++ by apply Haux.
        -- intros (Hr & Hspec). pose proof (Hbase r Hr Hspec) as Ho.
           destruct r as [pos off]. simpl in *. by subst.
      * intros st. rewrite Hb1. simpl. rewrite Hsi0, Hpi0. simpl.
        rewrite decide_False by done. by rewrite Hb2.
    + exists []. split; [simpl; lia |]. split.
      * intros r. rewrite Hnone. split; [done |].
        intros (Hr & Hspec). pose proof (Hbase r Hr Hspec) as Ho.
        destruct Hspec as (_ & Hpw & _). rewrite Hr, Ho in Hpw.
        assert (false = true) by (by apply Hoff). done.
      * intros st. rewrite Hb1. simpl. rewrite Hsi0, Hpi0. simpl.
        rewrite decide_False by done. rewrite Hb2. simpl. by rewrite app_nil_r.
  - split.
    + intros r. rewrite Hin. split.
      * intros (i & Hi & Hr & Hspec). apply elem_of_py_range in Hi.
        split; [done |]. split; [lia | done].
      * intros (_ & Hr & Hspec). exists (tr_position r).
        split; [apply elem_of_py_range; lia | done].
    + eapply StronglySorted_sublist; [done | apply py_range_StronglySorted].
Qed.

(** C5. Every record that [transposition] reports has a non-zero offset,
    the primary value of the sequence at [position + j] minus that of the
    pattern at [j] is the offset for every [j < len P], and the aux values
    agree at every [j] as well when [require_same_aux] is set. *)
Theorem transposition_sound P S :
  ∃ res, transposition P S value_fn aux_fn require_same_aux = Ok res ∧
    Forall (λ r,
      tr_offset r ≠ 0 ∧
      ∀ j, 0 ≤ j < len P →
        ∃ s p, S !! Z.to_nat (tr_position r + j) = Some s ∧
               P !! Z.to_nat j = Some p ∧
               value_fn s - value_fn p = tr_offset r ∧
               (require_same_aux = true → aux_fn s = aux_fn p)) res.
Proof.
  destruct (transposition_select P S) as (res & Hrun & Hin & _).
  exists res. split; [done |]. apply Forall_forall. intros r Hr.
  apply Hin in Hr as (_ & _ & Hne & Hoff & Haux). split; [done |].
  intros j Hj. destruct (Hoff j Hj) as (s & p & Hs & Hp & Hv).
  exists s, p. split_and!; [done.. |].
  intros Hreq.
  exact (pairwise_at S P _ _ j s p (Haux Hreq) Hj Hs Hp).
Qed.
End Transposition.

(** ** Inversion *)

Section Inversion.
Context {T A : Type} `{EqDecision T} `{EqDecision A}.
Context (value_fn : T → Z) (aux_fn : T → A) (require_same_aux : bool).
Implicit Types (P S : list T) (i j : Z).

Lemma mirror_flag_loop S P i (axis : Z) :
  0 ≤ i → i + len P ≤ len S →
  ∃ b : bool,
    for_each (py_range 0 (len P)) (λ j ok,
      p ← py_index P j;
      let v := value_fn p in
      let expected := axis - (v - axis) in
      s ← py_index (py_slice S i (i + len P)) j;
      if decide (value_fn s ≠ expected) then Ok (Break false)
      else Ok (Next ok)) true = Ok b ∧
    (b = true ↔
     pairwise S P i (λ s p, value_fn s = axis - (value_fn p - axis))).
Proof.
  intros Hi Hip.
  match goal with
  | |- ∃ b : bool, for_each ?xs ?body true = Ok b ∧ _ =>
      destruct (for_each_flag
        (λ j, ∀ s p, S !! Z.to_nat (i + j) = Some s →
                P !! Z.to_nat j = Some p →
                value_fn s = axis - (value_fn p - axis)) xs body)
        as (b & Hb & Hiff)
  end.
  - intros j Hj. apply elem_of_py_range in Hj.
    destruct (window_pair S P i j) as (s & p & Hs & Hp & Hsi & Hpi); [lia.. |].
    exists (bool_decide (value_fn s = axis - (value_fn p - axis))). split.
    + rewrite bool_decide_eq_true. split.
      * intros Hg s' p' Hs' Hp'. congruence.
      * intros Hall. by apply Hall.
    + intros ok. rewrite Hpi. simpl. rewrite Hsi. simpl.
      destruct (decide (value_fn s ≠ axis - (value_fn p - axis))) as [Hne | Heq].
      * by rewrite bool_decide_eq_false_2.
      * rewrite bool_decide_eq_true_2; [done |]. lia.
  - exists b. split; [done |]. rewrite Hiff. by apply pairwise_range.
Qed.

(** What [inversion] returns for a non-empty pattern, exactly. *)
Lemma inversion_select (p0 : T) P' S :
  ∃ res, inversion (p0 :: P') S value_fn aux_fn require_same_aux = Ok res ∧
    (∀ i, i ∈ res ↔
       0 ≤ i ≤ len S - len (p0 :: P') ∧
       inverted_at (p0 :: P') S value_fn aux_fn require_same_aux
         (value_fn p0) i) ∧
    StronglySorted Z.lt res.
Proof.
  set (P := p0 :: P'). unfold inversion. cbv zeta.
  assert (HL : len P ≠ 0) by (unfold len; simpl; lia).
  rewrite decide_False by done.
  assert (Hp0 : py_index P 0 = Ok p0) by done.
  rewrite Hp0. simpl.
  match goal with
  | |- ∃ res, for_each ?xs ?body [] = Ok res ∧ _ =>
      destruct (for_each_select
        (λ i r, r = i ∧
                inverted_at P S value_fn aux_fn require_same_aux (value_fn p0) i)
        id xs body)
        as (res & Hrun & Hin & Hsub); [| | exists res; split; [exact Hrun |]]
  end.
  - by intros x r [-> _].
  - intros i Hi. apply elem_of_py_range in Hi.
    pose proof (len_nonneg P) as HL0.
    assert (Hi0 : 0 ≤ i) by lia. assert (Hip : i + len P ≤ len S) by lia.
    destruct (window_pair S P i 0) as (s0 & q0 & Hs0 & Hq0 & Hsi0 & _); [lia.. |].
    replace (i + 0) with i in Hs0 by lia.
    destruct (optional_aux_check S P i aux_fn require_same_aux Hi0 Hip)
      as (b1 & Hb1 & Haux).
    destruct (mirror_flag_loop S P i (value_fn p0) Hi0 Hip) as (b2 & Hb2 & Hmir).
    cbv zeta in Hb2.
    assert (Hnone : ∀ r : Z, r ∈ @nil Z ↔ False)
      by (intros r; split; [by inversion 1 | done]).
    destruct (decide (value_fn s0 ≠ value_fn p0)) as [Hax | Hax].
    { exists []. split; [simpl; lia |]. split.
      - intros r. rewrite Hnone. split; [done |].
        intros (_ & (s0' & Hs0' & Hv) & _). congruence.
      - intros st. rewrite Hsi0. simpl. rewrite decide_True by done.
        by rewrite app_nil_r. }
    destruct b1.
    2:{ exists []. split; [simpl; lia |]. split.
        - intros r. rewrite Hnone. split; [done |].
          intros (_ & _ & Ha & _). by apply Haux in Ha.
        - intros st. rewrite Hsi0. simpl. rewrite decide_False by done.
          rewrite Hb1. simpl. by rewrite app_nil_r. }
    destruct b2.
    + exists [i]. split; [done |]. split.
      * intros r. rewrite list_elem_of_singleton. split; [| tauto].
        intros ->. split; [done |]. split_and!.
        -- exists s0. split; [done | lia].
        -- by apply Haux.
        -- by apply Hmir.
      * intros st. rewrite Hsi0. simpl. rewrite decide_False by done.
        rewrite Hb1. simpl. by rewrite Hb2.
    + exists []. split; [simpl; lia |]. split.
      * intros r. rewrite Hnone. split; [done |].
        intros (_ & _ & _ & Hm). by apply Hmir in Hm.
      * intros st. rewrite Hsi0. simpl. rewrite decide_False by done.
        rewrite Hb1. simpl. rewrite Hb2. simpl. by rewrite app_nil_r.
  - split.
    + intros i. rewrite Hin. split.
      * intros (x & Hx & -> & Hspec). apply elem_of_py_range in Hx.
        split; [lia | done].
      * intros (Hi & Hspec). exists i.
        split; [apply elem_of_py_range; lia | done].
    + rewrite list_fmap_id in Hsub.
      eapply StronglySorted_sublist; [done | apply py_range_StronglySorted].
Qed.

(** C6. For a non-empty pattern [p0 :: P'] the axis is [value_fn p0], the
    same for every window, and [inversion] reports the start index [i]
    exactly when the primary value of the sequence at [i] is the axis, the
    aux values of the window are those of the pattern at every offset if
    [require_same_aux] is set, and at every offset [j] the primary value of
    the sequence at [i + j] is [axis - (value_fn P[j] - axis)]. *)
Theorem inversion_exact (p0 : T) P' S :
  let P := p0 :: P' in
  let axis := value_fn p0 in
  ∃ res, inversion P S value_fn aux_fn require_same_aux = Ok res ∧
    ∀ i, i ∈ res ↔
      0 ≤ i ∧
      (∃ s0, S !! Z.to_nat i = Some s0 ∧ value_fn s0 = axis) ∧
      (require_same_aux = true →
       ∀ j, 0 ≤ j < len P →
         ∃ s p, S !! Z.to_nat (i + j) = Some s ∧ P !! Z.to_nat j = Some p ∧
                aux_fn s = aux_fn p) ∧
      (∀ j, 0 ≤ j < len P →
         ∃ s p, S !! Z.to_nat (i + j) = Some s ∧ P !! Z.to_nat j = Some p ∧
                value_fn s = axis - (value_fn p - axis)).
Proof.
  intros P axis.
  destruct (inversion_select p0 P' S) as (res & Hrun & Hin & _).
  exists res. split; [done |]. intros i. rewrite Hin. fold P.
  unfold inverted_at, pairwise. fold axis. split.
  - intros (Hi & Hspec). split; [lia | done].
  - intros (Hi & Hax & Haux & Hmir). split; [| done]. split; [done |].
    (* the last offset of the window lies inside the sequence *)
    assert (HL : 0 < len P) by (unfold len; simpl; lia).
    destruct (Hmir (len P - 1)) as (s & _ & Hs & _); [lia |].
    apply lookup_lt_Some in Hs. unfold len in *. lia.
Qed.
End Inversion.

(** ** Loops that do not raise, and where their records come from *)

Lemma for_each_total {X St : Type} (xs : list X)
    (body : X → St → result (flow St)) :
  (∀ x st, x ∈ xs → ∃ fl, body x st = Ok fl) →
  ∀ st, ∃ st', for_each xs body st = Ok st'.
Proof.
  induction xs as [|x xs IH]; intros Hbody st.
  - by exists st.
  - destruct (Hbody x st) as ([st1 | st1] & Hb); [by left | |].
    + destruct (IH (λ y st' Hy, Hbody y st' (list_elem_of_further _ _ _ Hy)) st1)
        as (st' & Hf).
      exists st'. simpl. by rewrite Hb.
    + exists st1. simpl. by rewrite Hb.
Qed.

(** A loop over positions that appends, at position [x], only records whose
    key is [x]. *)
Lemma for_each_positions {X Y : Type} (key : Y → X) (xs : list X)
    (body : X → list Y → result (flow (list Y))) :
  (∀ x st, x ∈ xs →
     ∃ rs, body x st = Ok (Next (st ++ rs)) ∧ Forall (λ r, key r = x) rs) →
  ∃ res, for_each xs body [] = Ok res ∧ Forall (λ r, key r ∈ xs) res.
Proof.
  intros Hbody.
  destruct (for_each_inv (λ pre st, Forall (λ r, key r ∈ pre) st) xs body [])
    as (res & Hrun & Hres); [by constructor | | by exists res].
  intros pre x post st Hxs Hst.
  destruct (Hbody x st) as (rs & Hb & Hrs).
  { rewrite Hxs. apply elem_of_app. right. by left. }
  exists (st ++ rs). split; [done |]. apply Forall_app. split.
  - eapply Forall_impl; [done |]. intros r Hr. apply elem_of_app. by left.
  - eapply Forall_impl; [done |]. intros r ->. apply elem_of_app. right. by left.
Qed.

(** The positions of a windowed detector are the starts of the windows of
    length [len P] that lie inside [S]. *)
Lemma window_positions {Y : Type} (key : Y → Z) {T : Type} (P S : list T)
    (res : list Y) :
  Forall (λ r, key r ∈ py_range 0 (len S - len P + 1)) res →
  Forall (λ r, 0 ≤ key r ≤ len S - len P) res.
Proof.
  intros Hres. eapply Forall_impl; [exact Hres |].
  intros r Hr. apply elem_of_py_range in Hr. lia.
Qed.

(** ** Retrograde and the two local-change detectors *)

Section OtherWindowed.
Context {T V A : Type} `{EqDecision T} `{EqDecision V} `{EqDecision A}.
Context (primary_fn : T → V) (aux_fn : T → A).
Implicit Types (P S : list T) (i j : Z).

Lemma retrograde_positions P S (require_same_aux : bool) :
  ∃ res, retrograde P S primary_fn aux_fn require_same_aux = Ok res ∧
    Forall (λ i, 0 ≤ i ≤ len S - len P) res.
Proof.
  unfold retrograde. cbv zeta.
  destruct (decide (len P = 0)) as [HL | HL]; [by exists [] |].
  pose proof (len_nonneg P) as HL0.
  match goal with
  | |- ∃ res, for_each ?xs ?body [] = Ok res ∧ _ =>
      destruct (for_each_positions id xs body) as (res & Hrun & Hres);
        [| exists res; split; [exact Hrun | by apply (window_positions id)]]
  end.
  intros i st Hi. apply elem_of_py_range in Hi.
  match goal with
  | |- ∃ rs, (for_each ?xs ?body true ≫= _) = _ ∧ _ =>
      destruct (for_each_total xs body) with (st := true) as (ok & Hok)
  end.
  - intros j ok Hj. apply elem_of_py_range in Hj.
    destruct (py_index_inbounds P (len P - 1 - j)) as (p & _ & Hp); [lia |].
    destruct (window_index S i (len P) j) as (s & _ & Hs); [lia.. |].
    rewrite Hp. simpl. rewrite Hs. simpl.
    destruct (decide (primary_fn s ≠ primary_fn p)); [by eexists |].
    destruct (require_same_aux && bool_decide (aux_fn s ≠ aux_fn p));
      by eexists.
  - rewrite Hok. simpl. destruct ok.
    + exists [i]. split; [done |]. by constructor.
    + exists []. split; [by rewrite app_nil_r | constructor].
Qed.

(** The list comprehension that records the changed offsets of a window. *)
Lemma changed_loop_total {B : Type} `{EqDecision B} S P i (g : T → B) :
  0 ≤ i → i + len P ≤ len S →
  ∃ changed,
    for_each (py_range 0 (len P)) (λ j changed,
      s ← py_index (py_slice S i (i + len P)) j;
      p ← py_index P j;
      if decide (g s ≠ g p) then
        s' ← py_index (py_slice S i (i + len P)) j;
        Ok (Next (changed ++ [Change j (g s')]))
      else Ok (Next changed)) [] = Ok changed.
Proof.
  intros Hi Hip. apply for_each_total.
  intros j changed Hj. apply elem_of_py_range in Hj.
  destruct (window_pair S P i j) as (s & p & _ & _ & Hs & Hp); [lia.. |].
  rewrite Hs. simpl. rewrite Hp. simpl.
  destruct (decide (g s ≠ g p)); by eexists.
Qed.

Lemma local_aux_changes_positions P S (max_changes : option Z) :
  ∃ res, local_aux_changes P S primary_fn aux_fn max_changes = Ok res ∧
    Forall (λ r, 0 ≤ cm_position r ≤ len S - len P) res.
Proof.
  unfold local_aux_changes. cbv zeta.
  destruct (decide (len P = 0)) as [HL | HL]; [by exists [] |].
  pose proof (len_nonneg P) as HL0.
  match goal with
  | |- ∃ res, for_each ?xs ?body [] = Ok res ∧ _ =>
      destruct (for_each_positions cm_position xs body) as (res & Hrun & Hres);
        [| exists res; split; [exact Hrun | by apply (window_positions cm_position)]]
  end.
  intros i st Hi. apply elem_of_py_range in Hi.
  destruct (py_all_window_eq S P i primary_fn) as (b & Hb & _); [lia.. |].
  destruct (changed_loop_total S P i aux_fn) as (changed & Hch); [lia.. |].
  rewrite Hb. simpl. destruct b; simpl.
  - rewrite Hch. simpl. case_decide.
    + eexists [_]. split; [done |]. by constructor.
    + exists []. split; [by rewrite app_nil_r | constructor].
  - exists []. split; [by rewrite app_nil_r | constructor].
Qed.

Lemma local_value_changes_positions P S (max_changes : option Z)
    (require_same_aux : bool) :
  ∃ res, local_value_changes P S primary_fn aux_fn max_changes
           require_same_aux = Ok res ∧
    Forall (λ r, 0 ≤ cm_position r ≤ len S - len P) res.
Proof.
  unfold local_value_changes. cbv zeta.
  destruct (decide (len P = 0)) as [HL | HL]; [by exists [] |].
  pose proof (len_nonneg P) as HL0.
  match goal with
  | |- ∃ res, for_each ?xs ?body [] = Ok res ∧ _ =>
      destruct (for_each_positions cm_position xs body) as (res & Hrun & Hres);
        [| exists res; split; [exact Hrun | by apply (window_positions cm_position)]]
  end.
  intros i st Hi. apply elem_of_py_range in Hi.
  destruct (optional_aux_check S P i aux_fn require_same_aux)
    as (b & Hb & _); [lia.. |].
  destruct (changed_loop_total S P i primary_fn) as (changed & Hch); [lia.. |].
  rewrite Hb. simpl. destruct b; simpl.
  - rewrite Hch. simpl. case_decide.
    + eexists [_]. split; [done |]. by constructor.
    + exists []. split; [by rewrite app_nil_r | constructor].
  - exists []. split; [by rewrite app_nil_r | constructor].
Qed.
End OtherWindowed.

(** ** Deleting indices *)

Section DeleteIndices.
Context {X : Type}.
Implicit Types (l : list X) (idx : list Z) (k : Z).

Lemma delete_from_app k idx l1 l2 :
  delete_from k idx (l1 ++ l2) =
  delete_from k idx l1 ++ delete_from (k + len l1) idx l2.
Proof.
  revert k. induction l1 as [|x l1 IH]; intros k; simpl.
  - f_equal. unfold len. simpl. lia.
  - rewrite IH. replace (k + 1 + len l1) with (k + len (x :: l1))
      by (unfold len; simpl; lia).
    by destruct (decide (k ∈ idx)).
Qed.

(** Only the indices that fall inside the list matter. *)
Lemma delete_from_ext k idx1 idx2 l :
  (∀ n, k ≤ n < k + len l → n ∈ idx1 ↔ n ∈ idx2) →
  delete_from k idx1 l = delete_from k idx2 l.
Proof.
  revert k. induction l as [|x l IH]; intros k Hext; [done |]. simpl.
  assert (Hlen : len (x :: l) = 1 + len l) by (unfold len; simpl; lia).
  pose proof (len_nonneg l).
  rewrite (IH (k + 1)) by (intros n Hn; apply Hext; lia).
  destruct (decide (k ∈ idx1)) as [H1 | H1], (decide (k ∈ idx2)) as [H2 | H2];
    try done; exfalso; apply (Hext k) in H1 || apply (Hext k) in H2; (done || lia).
Qed.

Lemma len_take_Z l k : 0 ≤ k ≤ len l → len (take (Z.to_nat k) l) = k.
Proof. unfold len. rewrite length_take. lia. Qed.

(** Extending the prefix by an item that is kept. *)
Lemma delete_indices_keep idx l k x :
  0 ≤ k → l !! Z.to_nat k = Some x → Forall (λ n, n < k) idx →
  delete_indices idx (take (Z.to_nat (k + 1)) l) =
  delete_indices idx (take (Z.to_nat k) l) ++ [x].
Proof.
  intros Hk Hx Hidx. unfold delete_indices.
  replace (Z.to_nat (k + 1)) with (S (Z.to_nat k)) by lia.
  rewrite (take_S_r _ _ x) by done. rewrite delete_from_app. f_equal.
  simpl. rewrite decide_False; [done |].
  rewrite len_take_Z.
  - intros Hin. eapply Forall_forall in Hidx; [| done]. lia.
  - apply lookup_lt_Some in Hx. unfold len. lia.
Qed.

(** Extending the prefix by an item that is deleted. *)
Lemma delete_indices_drop idx l k x :
  0 ≤ k → l !! Z.to_nat k = Some x →
  delete_indices (idx ++ [k]) (take (Z.to_nat (k + 1)) l) =
  delete_indices idx (take (Z.to_nat k) l).
Proof.
  intros Hk Hx. unfold delete_indices.
  assert (Hlen : len (take (Z.to_nat k) l) = k).
  { apply len_take_Z. apply lookup_lt_Some in Hx. unfold len. lia. }
  replace (Z.to_nat (k + 1)) with (S (Z.to_nat k)) by lia.
  rewrite (take_S_r _ _ x) by done. rewrite delete_from_app.
  rewrite Hlen. simpl.
  rewrite decide_True by (apply elem_of_app; right; by left).
  rewrite app_nil_r. apply delete_from_ext.
  intros n Hn. rewrite elem_of_app, list_elem_of_singleton. split; [| tauto].
  intros [Hin | ->]; [done | lia].
Qed.
End DeleteIndices.

Lemma StronglySorted_snoc_lt (l : list Z) (k : Z) :
  StronglySorted Z.lt l → Forall (λ n, n < k) l → StronglySorted Z.lt (l ++ [k]).
Proof.
  intros Hs Hl. apply StronglySorted_app. split_and!.
  - intros x y Hx Hy. apply list_elem_of_singleton in Hy as ->.
    by eapply Forall_forall in Hl.
  - done.
  - repeat constructor.
Qed.

(** ** The alignment of a fragment against the pattern *)

Section RemovedPositions.
Context {T : Type} `{EqDecision T}.
Implicit Types (P F : list T) (i j : Z) (removed : list Z).

Lemma removed_inv_init P F : removed_inv P F 0 0 [].
Proof.
  pose proof (len_nonneg P). pose proof (len_nonneg F).
  unfold removed_inv. split_and!; try done; try lia; constructor.
Qed.

Lemma removed_inv_match P F i j removed x :
  removed_inv P F i j removed →
  P !! Z.to_nat i = Some x → F !! Z.to_nat j = Some x →
  removed_inv P F (i + 1) (j + 1) removed.
Proof.
  intros (Hji & HiP & HjF & Hs & Hb & Hlen & Hdel) HP HF.
  pose proof (lookup_lt_Some _ _ _ HP). pose proof (lookup_lt_Some _ _ _ HF).
  unfold removed_inv, len in *. split_and!; try lia; try done.
  - eapply Forall_impl; [done |]. simpl. lia.
  - rewrite (delete_indices_keep _ _ _ x); [| lia | done |].
    + rewrite Hdel. replace (Z.to_nat (j + 1)) with (S (Z.to_nat j)) by lia.
      by rewrite (take_S_r _ _ x).
    + eapply Forall_impl; [done |]. simpl. lia.
Qed.

Lemma removed_inv_skip P F i j removed x :
  removed_inv P F i j removed → P !! Z.to_nat i = Some x →
  removed_inv P F (i + 1) j (removed ++ [i]).
Proof.
  intros (Hji & HiP & HjF & Hs & Hb & Hlen & Hdel) HP.
  pose proof (lookup_lt_Some _ _ _ HP).
  unfold removed_inv. split_and!; try lia; try done.
  - unfold len in *. lia.
  - apply StronglySorted_snoc_lt; [done |].
    eapply Forall_impl; [done |]. simpl. lia.
  - apply Forall_app. split.
    + eapply Forall_impl; [done |]. simpl. lia.
    + constructor; [lia | constructor].
  - rewrite len_app. change (len [i]) with 1. lia.
  - rewrite (delete_indices_drop _ _ _ x); [done | lia | done].
Qed.

(** What the alignment returns: when it succeeds, the removed indices are
    strictly increasing indices of [P], as many as [P] is longer than [F],
    and deleting them from [P] leaves [F]. *)
Lemma removed_positions_spec P F :
  ∃ o, _removed_positions_for_fragment P F = Ok o ∧
    ∀ removed, o = Some removed →
      StronglySorted Z.lt removed ∧
      Forall (λ k, 0 ≤ k < len P) removed ∧
      len removed = len P - len F ∧
      delete_indices removed P = F.
Proof.
  unfold _removed_positions_for_fragment. cbv zeta.
  destruct (while_inv
    (λ '(i, j, removed), removed_inv P F i j removed)
    (λ '(i, _, _), Z.to_nat (len P - i))
    (λ '(i, j, _), bool_decide (i < len P) && bool_decide (j < len F))
    (λ '(i, j, removed),
       p ← py_index P i;
       f ← py_index F j;
       if decide (p = f) then Ok (i + 1, j + 1, removed)
       else Ok (i + 1, j, removed ++ [i]))) with (fuel := length P) (st := (0, 0, @nil Z))
    as ([[i j] removed] & Hw1 & Hinv1 & Hc1).
  - intros [[i j] removed] Hinv Hc.
    apply andb_true_iff in Hc as [Hi Hj].
    apply bool_decide_eq_true in Hi, Hj.
    pose proof Hinv as (Hji & _).
    destruct (py_index_inbounds P i) as (p & Hp & Hpi); [lia |].
    destruct (py_index_inbounds F j) as (f & Hf & Hfi); [lia |].
    rewrite Hpi. simpl. rewrite Hfi. simpl.
    destruct (decide (p = f)) as [-> | Hne].
    + exists (i + 1, j + 1, removed). split; [done |].
      split; [by eapply removed_inv_match | lia].
    + exists (i + 1, j, removed ++ [i]). split; [done |].
      split; [by eapply removed_inv_skip | lia].
  - apply removed_inv_init.
  - unfold len. lia.
  - rewrite Hw1. simpl.
    destruct (while_inv
      (λ '(i, removed), removed_inv P F i j removed)
      (λ '(i, _), Z.to_nat (len P - i))
      (λ '(i, _), bool_decide (i < len P))
      (λ '(i, removed), Ok (i + 1, removed ++ [i]))) with (fuel := length P) (st := (i, removed))
      as ([i' removed'] & Hw2 & Hinv2 & Hc2).
    + intros [i2 removed2] Hinv Hc. apply bool_decide_eq_true in Hc.
      pose proof Hinv as (Hji & _).
      destruct (py_index_inbounds P i2) as (p & Hp & _); [lia |].
      exists (i2 + 1, removed2 ++ [i2]). split; [done |].
      split; [by eapply removed_inv_skip | lia].
    + done.
    + destruct Hinv1 as (? & _). unfold len. lia.
    + rewrite Hw2. simpl. eexists. split; [done |].
      intros removed0 Hsome. case_decide as Hj; [| done].
      injection Hsome as <-.
      apply bool_decide_eq_false in Hc2.
      destruct Hinv2 as (Hji & HiP & HjF & Hs & Hb & Hlen & Hdel).
      assert (i' = len P) as -> by lia. subst j.
      split_and!; [done | done | done |].
      unfold len in Hdel. rewrite !Nat2Z.id, !firstn_all in Hdel. done.
Qed.
End RemovedPositions.

(** ** The scan of [fragmentation] *)

Section FragmentationScan.
Context {T : Type} `{EqDecision T}.
Context (P S : list T).
Implicit Types (start frag_len : Z) (removed : list Z) (lens : list Z).
Implicit Types (m : gmap Z (list Z)).

Lemma frag_candidate_fun frag_len start removed1 removed2 :
  frag_candidate P S frag_len start removed1 →
  frag_candidate P S frag_len start removed2 → removed1 = removed2.
Proof. intros (_ & _ & H1) (_ & _ & H2). congruence. Qed.

(** The removed indices of a candidate. *)
Lemma frag_candidate_removed frag_len start removed :
  0 ≤ frag_len → frag_candidate P S frag_len start removed →
  StronglySorted Z.lt removed ∧
  Forall (λ k, 0 ≤ k < len P) removed ∧
  len removed = len P - frag_len ∧
  delete_indices removed P = py_slice S start (start + frag_len).
Proof.
  intros Hfl (Hstart & _ & Hrem).
  destruct (removed_positions_spec P (py_slice S start (start + frag_len)))
    as (o & Ho & Hspec).
  rewrite Hrem in Ho. injection Ho as <-.
  destruct (Hspec removed eq_refl) as (Hs & Hb & Hlen & Hdel).
  rewrite len_py_slice_window in Hlen by lia. done.
Qed.

Lemma best_candidate_snoc_hit lens frag_len start removed :
  (∀ y, y ∈ lens → y < frag_len) →
  frag_candidate P S frag_len start removed →
  ∀ r, best_candidate P S (lens ++ [frag_len]) start r ↔ r = removed.
Proof.
  intros Hlt Hc r. split.
  - intros (fl & Hfl & Hcr & Hmax).
    assert (frag_len ≤ fl) as Hle.
    { eapply Hmax; [| done]. apply elem_of_app. right. by left. }
    apply elem_of_app in Hfl as [Hfl | Hfl].
    + apply Hlt in Hfl. lia.
    + apply list_elem_of_singleton in Hfl as ->.
      by eapply frag_candidate_fun.
  - intros ->. exists frag_len. split; [apply elem_of_app; right; by left |].
    split; [done |]. intros fl' r' Hfl' _.
    apply elem_of_app in Hfl' as [Hfl' | Hfl'].
    + apply Hlt in Hfl'. lia.
    + apply list_elem_of_singleton in Hfl' as ->. lia.
Qed.

Lemma best_candidate_snoc_miss lens frag_len start :
  (∀ r, ¬ frag_candidate P S frag_len start r) →
  ∀ r, best_candidate P S (lens ++ [frag_len]) start r ↔
       best_candidate P S lens start r.
Proof.
  intros Hno r. split.
  - intros (fl & Hfl & Hcr & Hmax).
    apply elem_of_app in Hfl as [Hfl | Hfl].
    + exists fl. split; [done |]. split; [done |].
      intros fl' r' Hfl' Hc'. eapply Hmax; [| done]. apply elem_of_app. by left.
    + apply list_elem_of_singleton in Hfl as ->. by apply Hno in Hcr.
  - intros (fl & Hfl & Hcr & Hmax).
    exists fl. split; [apply elem_of_app; by left |]. split; [done |].
    intros fl' r' Hfl' Hc'. apply elem_of_app in Hfl' as [Hfl' | Hfl'].
    + by eapply Hmax.
    + apply list_elem_of_singleton in Hfl' as ->. by apply Hno in Hc'.
Qed.

(** One pass over the start indices, for the window length [frag_len]. *)
Lemma scan_inner lens frag_len m0 :
  (∀ y, y ∈ lens → 0 ≤ y < frag_len) → 0 ≤ frag_len →
  (∀ start removed,
     m0 !! start = Some removed ↔ best_candidate P S lens start removed) →
  ∃ m,
    for_each (py_range 0 (len S - frag_len + 1)) (λ start best_by_pos,
      let end_ := start + frag_len - 1 in
      if inside_exact_span (exact_spans P S) start end_
      then Ok (Next best_by_pos)
      else
        let fragment := py_slice S start (start + frag_len) in
        removed ← _removed_positions_for_fragment P fragment;
        match removed with
        | None => Ok (Next best_by_pos)
        | Some removed =>
            match best_by_pos !! start with
            | None => Ok (Next (<[start := removed]> best_by_pos))
            | Some existing =>
                if decide (len removed < len existing)
                then Ok (Next (<[start := removed]> best_by_pos))
                else Ok (Next best_by_pos)
            end
        end) m0 = Ok m ∧
    ∀ start removed,
      m !! start = Some removed ↔
      best_candidate P S (lens ++ [frag_len]) start removed.
Proof.
  intros Hlens Hfl Hm0. cbv zeta.
  match goal with
  | |- ∃ m, for_each ?xs ?body m0 = Ok m ∧ _ =>
      destruct (for_each_inv
        (λ done_ m, ∀ start removed,
           m !! start = Some removed ↔
           if decide (start ∈ done_)
           then best_candidate P S (lens ++ [frag_len]) start removed
           else best_candidate P S lens start removed) xs body m0)
        as (m & Hrun & Hm)
  end.
  - intros start removed. rewrite decide_False by (by inversion 1). apply Hm0.
  - intros done_ start post m Hxs Hinv.
    (* the start index is new, and inside the range *)
    assert (Hnew : start ∉ done_).
    { pose proof (NoDup_seqZ 0 (len S - frag_len + 1 - 0)) as Hnd.
      fold (py_range 0 (len S - frag_len + 1)) in Hnd. rewrite Hxs in Hnd.
      apply NoDup_app in Hnd as (_ & Hnd & _). intros Hin.
      apply (Hnd start Hin). by left. }
    assert (Hrange : 0 ≤ start ≤ len S - frag_len).
    { assert (start ∈ py_range 0 (len S - frag_len + 1)) as Hin
        by (rewrite Hxs; apply elem_of_app; right; by left).
      apply elem_of_py_range in Hin. lia. }
    (* the two ways the map can come out of the iteration *)
    assert (Hmiss : (∀ r, ¬ frag_candidate P S frag_len start r) →
      ∀ start' removed,
        m !! start' = Some removed ↔
        if decide (start' ∈ done_ ++ [start])
        then best_candidate P S (lens ++ [frag_len]) start' removed
        else best_candidate P S lens start' removed).
    { intros Hno start' removed. rewrite Hinv.
      destruct (decide (start' = start)) as [-> | Hne].
      - rewrite decide_False by done.
        rewrite decide_True by (apply elem_of_app; right; by left).
        symmetry. by apply best_candidate_snoc_miss.
      - destruct (decide (start' ∈ done_)) as [Hin | Hin].
        + by rewrite decide_True by (apply elem_of_app; by left).
        + rewrite decide_False; [done |].
          rewrite elem_of_app, list_elem_of_singleton. tauto. }
    assert (Hhit : ∀ removed, frag_candidate P S frag_len start removed →
      ∀ start' removed',
        <[start := removed]> m !! start' = Some removed' ↔
        if decide (start' ∈ done_ ++ [start])
        then best_candidate P S (lens ++ [frag_len]) start' removed'
        else best_candidate P S lens start' removed').
    { intros removed Hc start' removed'.
      destruct (decide (start' = start)) as [-> | Hne].
      - rewrite lookup_insert_eq.
        rewrite decide_True by (apply elem_of_app; right; by left).
        rewrite best_candidate_snoc_hit; [| | done].
        + split; [by intros [= ->] | by intros ->].
        + intros y Hy. apply Hlens in Hy. lia.
      - rewrite lookup_insert_ne by done. rewrite Hinv.
        destruct (decide (start' ∈ done_)) as [Hin | Hin].
        + by rewrite decide_True by (apply elem_of_app; by left).
        + rewrite decide_False; [done |].
          rewrite elem_of_app, list_elem_of_singleton. tauto. }
    destruct (inside_exact_span (exact_spans P S) start (start + frag_len - 1))
      eqn:Hinside.
    { exists m. split; [done |]. apply Hmiss.
      intros r (_ & Hout & _). congruence. }
    destruct (removed_positions_spec P (py_slice S start (start + frag_len)))
      as (o & Ho & _).
    rewrite Ho. simpl. destruct o as [removed |].
    2:{ exists m. split; [done |]. apply Hmiss.
        intros r (_ & _ & Hr). congruence. }
    assert (Hc : frag_candidate P S frag_len start removed) by done.
    destruct (m !! start) as [existing |] eqn:Hex.
    2:{ eexists. split; [done |]. by apply Hhit. }
    (* an entry left by a shorter window has more removed indices *)
    apply Hinv in Hex. rewrite decide_False in Hex by done.
    destruct Hex as (fl0 & Hfl0 & Hc0 & _).
    apply Hlens in Hfl0.
    apply frag_candidate_removed in Hc0 as (_ & _ & Hlen0 & _); [| lia].
    pose proof (frag_candidate_removed _ _ _ Hfl Hc) as (_ & _ & Hlen & _).
    rewrite decide_True by lia.
    eexists. split; [done |]. by apply Hhit.
  - exists m. split; [done |]. intros start removed. rewrite Hm.
    destruct (decide (start ∈ py_range 0 (len S - frag_len + 1)))
      as [Hin | Hout]; [done |].
    symmetry. apply best_candidate_snoc_miss.
    intros r (Hstart & _). apply Hout, elem_of_py_range. lia.
Qed.

(** What the scan leaves in [best_by_pos]: at every start index that has a
    candidate, the removed indices of the longest one. *)
Lemma fragmentation_scan_spec (min_len : Z) :
  0 ≤ min_len →
  ∃ m, fragmentation_scan P S min_len = Ok m ∧
    ∀ start removed,
      m !! start = Some removed ↔
      best_candidate P S (py_range min_len (len P)) start removed.
Proof.
  intros Hmin. unfold fragmentation_scan. cbv zeta.
  match goal with
  | |- ∃ m, for_each ?xs ?body ∅ = Ok m ∧ _ =>
      destruct (for_each_inv
        (λ lens m, ∀ start removed,
           m !! start = Some removed ↔ best_candidate P S lens start removed)
        xs body ∅) as (m & Hrun & Hm); [| | by exists m]
  end.
  - intros start removed. rewrite lookup_empty. split; [done |].
    intros (fl & Hfl & _). by inversion Hfl.
  - intros lens frag_len post m Hxs Hinv.
    pose proof (py_range_StronglySorted min_len (len P)) as Hsorted.
    rewrite Hxs in Hsorted.
    assert (Hin : ∀ y, y ∈ lens ++ [frag_len] → min_len ≤ y).
    { intros y Hy. assert (y ∈ py_range min_len (len P)) as Hy'.
      { rewrite Hxs. apply elem_of_app in Hy as [Hy | Hy].
        - apply elem_of_app. by left.
        - apply list_elem_of_singleton in Hy as ->.
          apply elem_of_app. right. by left. }
      apply elem_of_py_range in Hy'. lia. }
    destruct (scan_inner lens frag_len m) as (m' & Hrun' & Hm').
    + intros y Hy. split.
      * assert (min_len ≤ y) by (apply Hin, elem_of_app; by left). lia.
      * eapply StronglySorted_app_1_elem_of; [done | done | by left].
    + assert (min_len ≤ frag_len)
        by (apply Hin, elem_of_app; right; by left). lia.
    + done.
    + cbv zeta in Hrun'. exists m'. split; [| done]. by rewrite Hrun'.
Qed.
End FragmentationScan.

(** ** [sorted] on the items of the map *)

Lemma list_leb_total (l1 l2 : list Z) : list_leb l1 l2 = true ∨ list_leb l2 l1 = true.
Proof.
  revert l2. induction l1 as [|x l1 IH]; intros [|y l2]; simpl; auto.
  destruct (decide (x < y)), (decide (y < x)); auto; try lia.
  assert (x = y) as -> by lia. rewrite !decide_True by done. apply IH.
Qed.

Global Instance item_le_total : Total item_le.
Proof.
  intros [k1 l1] [k2 l2]. unfold item_le, item_leb. simpl.
  destruct (decide (k1 < k2)), (decide (k2 < k1)); simpl; auto; try lia.
  assert (k1 = k2) as -> by lia. rewrite !decide_True by done.
  destruct (list_leb_total l1 l2) as [-> | ->]; simpl; auto.
Qed.

Lemma item_le_fst (x y : Z * list Z) : item_le x y → x.1 ≤ y.1.
Proof.
  unfold item_le, item_leb. destruct (decide (x.1 < y.1)); [lia |].
  destruct (decide (x.1 = y.1)); [lia | done].
Qed.

Lemma StronglySorted_le_NoDup_lt (l : list Z) :
  StronglySorted Z.le l → NoDup l → StronglySorted Z.lt l.
Proof.
  induction 1 as [| x l Hs IH Hx]; intros Hnd; [constructor |].
  apply NoDup_cons in Hnd as [Hnotin Hnd]. constructor; [auto |].
  apply Forall_forall. intros y Hy.
  eapply Forall_forall in Hx; [| done].
  assert (x ≠ y) by (by intros ->). lia.
Qed.

Lemma py_sorted_spec (items : list (Z * list Z)) :
  NoDup (items.*1) →
  StronglySorted Z.lt ((py_sorted items).*1) ∧
  ∀ x, x ∈ py_sorted items ↔ x ∈ items.
Proof.
  intros Hnd. unfold py_sorted.
  pose proof (merge_sort_Permutation item_le items) as Hperm. split.
  - apply StronglySorted_le_NoDup_lt.
    + apply Sorted_StronglySorted; [apply _ |].
      eapply Sorted_fmap; [| apply Sorted_merge_sort, _].
      intros x y. apply item_le_fst.
    + by rewrite Hperm.
  - intros x. by rewrite Hperm.
Qed.

(** The sorted list of candidates that [fragmentation] sweeps. *)
Lemma fragmentation_results_spec (m : gmap Z (list Z)) :
  let results :=
    (λ '(pos, removed), FragmentationMatch pos removed) <$>
      py_sorted (map_to_list m) in
  StronglySorted Z.lt (fr_position <$> results) ∧
  ∀ r, r ∈ results ↔ m !! fr_position r = Some (fr_removed_indices r).
Proof.
  intros results.
  destruct (py_sorted_spec (map_to_list m) (NoDup_fst_map_to_list m))
    as (Hsorted & Hin).
  split.
  - unfold results. rewrite <-list_fmap_compose.
    erewrite list_fmap_ext; [exact Hsorted |]. by intros _ [pos removed] _.
  - intros [pos removed]. unfold results. rewrite list_elem_of_fmap. simpl. split.
    + intros ([pos' removed'] & [= -> ->] & Hx).
      apply Hin in Hx. by apply elem_of_map_to_list in Hx.
    + intros Hm. exists (pos, removed). split; [done |].
      apply Hin. by apply elem_of_map_to_list.
Qed.

(** ** The sweep that removes overlaps *)

Lemma for_each_app_next {X St : Type} (xs ys : list X)
    (body : X → St → result (flow St)) (st : St) :
  (∀ x st, x ∈ xs → ∃ st', body x st = Ok (Next st')) →
  for_each (xs ++ ys) body st = st' ← for_each xs body st; for_each ys body st'.
Proof.
  revert st. induction xs as [|x xs IH]; intros st Hnext; [done |].
  destruct (Hnext x st) as (st' & Hb); [by left |].
  simpl. rewrite Hb. simpl. apply IH.
  intros y st0 Hy. apply Hnext. by right.
Qed.

Section Sweep.
Context (L : Z).
Implicit Types (r k : fragmentation_match) (rs kept : list fragmentation_match).

Lemma last_end_snoc kept r : last_end L (kept ++ [r]) = fr_end L r.
Proof. unfold last_end. by rewrite last_snoc. Qed.

(** One iteration, when [last_end] is the end of the last kept record. *)
Lemma sweep_body_step r kept :
  sweep_body L r (kept, last_end L kept) =
  Ok (Next (let kept' :=
              if decide (fr_position r > last_end L kept)
              then kept ++ [r] else kept in
            (kept', last_end L kept'))).
Proof.
  unfold sweep_body. cbv zeta. case_decide; [| done].
  by rewrite last_end_snoc.
Qed.

(** The loop, started after [kept] has been kept, appends to it a
    sublist of the records it runs over. *)
Lemma sweep_run rs kept :
  ∃ more, for_each rs (sweep_body L) (kept, last_end L kept)
            = Ok (kept ++ more, last_end L (kept ++ more)) ∧
          more `sublist_of` rs.
Proof.
  revert kept. induction rs as [|r rs IH]; intros kept.
  - exists []. rewrite app_nil_r. split; [done | constructor].
  - cbn [for_each]. rewrite sweep_body_step. simpl. case_decide.
    + destruct (IH (kept ++ [r])) as (more & Hrun & Hsub).
      exists (r :: more). rewrite Hrun, <-app_assoc. simpl.
      split; [done | by constructor].
    + destruct (IH kept) as (more & Hrun & Hsub).
      exists more. split; [done | by constructor].
Qed.

Lemma fragmentation_sweep_sublist rs :
  ∃ out, fragmentation_sweep L rs = Ok out ∧ out `sublist_of` rs.
Proof.
  unfold fragmentation_sweep. destruct (sweep_run rs []) as (out & Hrun & Hsub).
  change (last_end L []) with (-1) in Hrun. rewrite Hrun. by exists out.
Qed.

(** The decision taken at a record depends only on the records before it:
    it is kept exactly when it starts after the end of the last record
    kept among them. *)
Lemma fragmentation_sweep_greedy pre r post :
  NoDup (pre ++ r :: post) →
  ∃ kept out,
    fragmentation_sweep L pre = Ok kept ∧
    fragmentation_sweep L (pre ++ r :: post) = Ok out ∧
    kept `prefix_of` out ∧
    (r ∈ out ↔ fr_position r > last_end L kept).
Proof.
  intros Hnd. unfold fragmentation_sweep.
  destruct (sweep_run pre []) as (kept & Hpre & Hsubpre). simpl in Hpre.
  change (last_end L []) with (-1) in Hpre.
  rewrite for_each_app_next by (intros x [f le] _; unfold sweep_body;
    cbv zeta; case_decide; by eexists).
  rewrite Hpre. cbn [mbind result_bind for_each]. rewrite sweep_body_step.
  cbn [mbind result_bind]. cbv zeta.
  apply NoDup_app in Hnd as (_ & Hpre_post & Hnd).
  apply NoDup_cons in Hnd as (Hr_post & _).
  assert (Hr_pre : r ∉ pre) by (intros Hin; apply (Hpre_post r Hin); by left).
  case_decide as Hkeep.
  - destruct (sweep_run post (kept ++ [r])) as (more & Hpost & Hsub).
    rewrite Hpost. simpl. exists kept, ((kept ++ [r]) ++ more).
    split_and!; [done | done | |].
    + rewrite <-app_assoc. by apply prefix_app_r.
    + split; [done |]. intros _. rewrite !elem_of_app, list_elem_of_singleton.
      auto.
  - destruct (sweep_run post kept) as (more & Hpost & Hsub).
    rewrite Hpost. simpl. exists kept, (kept ++ more).
    split_and!; [done | done | by apply prefix_app_r |].
    split; [| done]. rewrite elem_of_app. intros [Hin | Hin].
    + exfalso. apply Hr_pre. by eapply elem_of_sublist.
    + exfalso. apply Hr_post. by eapply elem_of_sublist.
Qed.

(** The records kept do not overlap, and every record dropped starts
    inside the window of a record kept before it. *)
Lemma fragmentation_sweep_disjoint rs :
  StronglySorted Z.lt (fr_position <$> rs) →
  Forall (λ r, 0 ≤ fr_position r ∧ len (fr_removed_indices r) ≤ L) rs →
  ∃ out, fragmentation_sweep L rs = Ok out ∧
    StronglySorted (λ r1 r2, fr_end L r1 < fr_position r2) out ∧
    ∀ r, r ∈ rs → r ∉ out →
      ∃ k, k ∈ out ∧ fr_position k < fr_position r ≤ fr_end L k.
Proof.
  intros Hsorted Hwf. unfold fragmentation_sweep.
  destruct (for_each_inv
    (λ pre '(f, le),
       le = last_end L f ∧ f `sublist_of` pre ∧
       StronglySorted (λ r1 r2, fr_end L r1 < fr_position r2) f ∧
       Forall (λ k, fr_end L k ≤ le) f ∧
       ∀ r, r ∈ pre → r ∉ f →
         ∃ k, k ∈ f ∧ fr_position k < fr_position r ≤ fr_end L k)
    rs (sweep_body L) ([], -1))
    as ([out le] & Hrun & _ & _ & Hdisj & _ & Hdrop).
  - split_and!; [done | constructor | constructor | constructor |].
    intros r Hr. by inversion Hr.
  - intros pre r post [f le] Hrs (-> & Hsub & Hdisj & Hends & Hdrop).
    rewrite sweep_body_step. eexists. split; [done |]. cbv zeta.
    assert (Hr : 0 ≤ fr_position r ∧ len (fr_removed_indices r) ≤ L).
    { eapply Forall_forall in Hwf; [done |]. rewrite Hrs.
      apply elem_of_app. right. by left. }
    assert (Hbefore : ∀ k, k ∈ pre → fr_position k < fr_position r).
    { intros k Hk. rewrite Hrs, fmap_app, fmap_cons in Hsorted.
      eapply StronglySorted_app_1_elem_of; [done | |].
      - by apply list_elem_of_fmap_2.
      - by left. }
    case_decide as Hkeep.
    + rewrite last_end_snoc. split_and!.
      * done.
      * by apply sublist_app.
      * apply StronglySorted_app. split_and!; [| done | repeat constructor].
        intros k r' Hk Hr'. apply list_elem_of_singleton in Hr' as ->.
        eapply Forall_forall in Hends; [| done]. simpl in Hends. lia.
      * apply Forall_app. split.
        -- eapply Forall_impl; [done |]. simpl. intros k Hk.
           unfold fr_end at 2. lia.
        -- constructor; [lia | constructor].
      * intros r' Hr' Hnot. apply elem_of_app in Hr' as [Hr' | Hr'].
        -- destruct (Hdrop r' Hr') as (k & Hk & Hover).
           { intros Hin. apply Hnot, elem_of_app. by left. }
           exists k. split; [apply elem_of_app; by left | done].
        -- apply list_elem_of_singleton in Hr' as ->.
           exfalso. apply Hnot, elem_of_app. right. by left.
    + split_and!.
      * done.
      * by apply sublist_inserts_r.
      * done.
      * done.
      * intros r' Hr' Hnot. apply elem_of_app in Hr' as [Hr' | Hr'].
        -- by apply Hdrop.
        -- apply list_elem_of_singleton in Hr' as ->.
           unfold last_end in Hkeep.
           destruct (last f) as [k |] eqn:Hlast; [| lia].
           apply last_Some_elem_of in Hlast.
           exists k. split; [done |]. split; [| lia].
           apply Hbefore. by eapply elem_of_sublist.
  - rewrite Hrun. simpl. by exists out.
Qed.
End Sweep.

(** ** Fragmentation *)

Lemma StronglySorted_lt_NoDup (l : list Z) : StronglySorted Z.lt l → NoDup l.
Proof.
  induction 1 as [| x l Hs IH Hx]; constructor; [| done].
  intros Hin. eapply Forall_forall in Hx; [| done]. lia.
Qed.

(** The default [min_len = L - L // 4]. *)
Lemma default_min_len_bounds (L : Z) :
  0 ≤ L →
  0 ≤ L - L `div` 4 ∧ (1 ≤ L → 1 ≤ L - L `div` 4) ∧ (L ≤ 3 → L - L `div` 4 = L).
Proof. intros HL. Z.to_euclidean_division_equations. lia. Qed.

Section Fragmentation.
Context {T : Type} `{EqDecision T}.
Context (P S : list T).
Implicit Types (r k : fragmentation_match) (start frag_len : Z).

Lemma best_iff_fewest (lens : list Z) start (removed : list Z) :
  (∀ y, y ∈ lens → 0 ≤ y) →
  best_candidate P S lens start removed ↔ fewest_removed P S lens start removed.
Proof.
  intros Hlens. split.
  - intros (fl & Hfl & Hc & Hmax). split; [by exists fl |].
    intros fl' r' Hfl' Hc'.
    pose proof (Hmax fl' r' Hfl' Hc') as Hle.
    apply frag_candidate_removed in Hc as (_ & _ & Hlen & _); [| by apply Hlens].
    apply frag_candidate_removed in Hc' as (_ & _ & Hlen' & _); [| by apply Hlens].
    lia.
  - intros ((fl & Hfl & Hc) & Hmin). exists fl. split; [done |]. split; [done |].
    intros fl' r' Hfl' Hc'.
    pose proof (Hmin fl' r' Hfl' Hc') as Hle.
    apply frag_candidate_removed in Hc as (_ & _ & Hlen & _); [| by apply Hlens].
    apply frag_candidate_removed in Hc' as (_ & _ & Hlen' & _); [| by apply Hlens].
    lia.
Qed.

(** With the default [min_len], a pattern or a sequence without items has
    no candidate. *)
Lemma no_candidate_degenerate frag_len start (removed : list Z) :
  len P = 0 ∨ len S = 0 →
  frag_len ∈ py_range (len P - len P `div` 4) (len P) →
  ¬ frag_candidate P S frag_len start removed.
Proof.
  intros Hdeg Hfl (Hstart & _). apply elem_of_py_range in Hfl.
  pose proof (default_min_len_bounds (len P) (len_nonneg P)). lia.
Qed.

(** [fragmentation] with the default [min_len]: the sweep of the sorted
    per-start results, which hold at each start index that has a
    candidate the one from the longest window. *)
Lemma fragmentation_run :
  ∃ results out,
    fragmentation P S None = Ok out ∧
    fragmentation_sweep (len P) results = Ok out ∧
    StronglySorted Z.lt (fr_position <$> results) ∧
    ∀ r, r ∈ results ↔
      best_candidate P S (py_range (len P - len P `div` 4) (len P))
        (fr_position r) (fr_removed_indices r).
Proof.
  unfold fragmentation. cbv zeta.
  destruct (decide (len P = 0 ∨ len S = 0)) as [Hdeg | Hdeg].
  { exists [], []. split_and!; [done | done | constructor |].
    intros r. split; [by inversion 1 |].
    intros (fl & Hfl & Hc & _).
    destruct (no_candidate_degenerate _ _ _ Hdeg Hfl Hc). }
  destruct (fragmentation_scan_spec P S (len P - len P `div` 4))
    as (m & Hscan & Hm).
  { by apply default_min_len_bounds, len_nonneg. }
  rewrite Hscan. simpl.
  destruct (fragmentation_results_spec m) as (Hsorted & Hin).
  cbv zeta in Hsorted, Hin.
  destruct (fragmentation_sweep_sublist (len P)
    ((λ '(pos, removed), FragmentationMatch pos removed) <$>
       py_sorted (map_to_list m))) as (out & Hout & _).
  eexists _, out. split_and!; [done | done | done |].
  intros r. by rewrite Hin, Hm.
Qed.

(** Every record of the per-start results, hence every record reported,
    comes from a candidate window. *)
Lemma best_candidate_window (r : fragmentation_match) :
  best_candidate P S (py_range (len P - len P `div` 4) (len P))
    (fr_position r) (fr_removed_indices r) →
  ∃ frag_len,
    1 ≤ frag_len ∧ len P - len P `div` 4 ≤ frag_len < len P ∧
    frag_candidate P S frag_len (fr_position r) (fr_removed_indices r).
Proof.
  intros (fl & Hfl & Hc & _). apply elem_of_py_range in Hfl.
  exists fl. split; [| done].
  pose proof (default_min_len_bounds (len P) (len_nonneg P)). lia.
Qed.

Lemma fragmentation_windows :
  ∃ out, fragmentation P S None = Ok out ∧
    Forall (λ r, ∃ frag_len,
      1 ≤ frag_len ∧ len P - len P `div` 4 ≤ frag_len < len P ∧
      frag_candidate P S frag_len (fr_position r) (fr_removed_indices r)) out.
Proof.
  destruct fragmentation_run as (results & out & Hrun & Hsweep & _ & Hin).
  exists out. split; [done |]. apply Forall_forall. intros r Hr.
  apply best_candidate_window, Hin.
  destruct (fragmentation_sweep_sublist (len P) results) as (out' & Hout' & Hsub).
  rewrite Hsweep in Hout'. injection Hout' as <-. by eapply elem_of_sublist.
Qed.

(** The windows of the records for any [min_len] that is not negative. *)
Lemma fragmentation_candidates (min_len : option Z) :
  let ml :=
    match min_len with
    | None => len P - len P `div` 4
    | Some m => m
    end in
  0 ≤ ml →
  ∃ out, fragmentation P S min_len = Ok out ∧
    Forall (λ r, ∃ frag_len,
      ml ≤ frag_len < len P ∧
      frag_candidate P S frag_len (fr_position r) (fr_removed_indices r)) out.
Proof.
  intros ml Hml. unfold fragmentation. cbv zeta. fold ml.
  destruct (decide (len P = 0 ∨ len S = 0)) as [Hdeg | Hdeg];
    [by exists [] |].
  destruct (fragmentation_scan_spec P S ml Hml) as (m & Hscan & Hm).
  rewrite Hscan. simpl.
  destruct (fragmentation_results_spec m) as (_ & Hin). cbv zeta in Hin.
  destruct (fragmentation_sweep_sublist (len P)
    ((λ '(pos, removed), FragmentationMatch pos removed) <$>
       py_sorted (map_to_list m))) as (out & Hout & Hsub).
  exists out. split; [done |]. apply Forall_forall. intros r Hr.
  eapply elem_of_sublist in Hr; [| done].
  apply Hin, Hm in Hr as (fl & Hfl & Hc & _). apply elem_of_py_range in Hfl.
  by exists fl.
Qed.

(** The bound on the positions holds for every [min_len] that is not
    negative. *)
Lemma fragmentation_positions_nonneg (m : Z) :
  0 ≤ m →
  ∃ out, fragmentation P S (Some m) = Ok out ∧
    Forall (λ r,
      0 ≤ fr_position r ≤ len S - (len P - len (fr_removed_indices r))) out.
Proof.
  intros Hm. destruct (fragmentation_candidates (Some m) Hm) as (out & Hrun & Hall).
  exists out. split; [done |]. eapply Forall_impl; [done |]. simpl.
  intros r (fl & Hfl & Hc). pose proof Hc as (Hstart & _).
  apply frag_candidate_removed in Hc as (_ & _ & Hlen & _); [| lia]. lia.
Qed.
End Fragmentation.

(** ** The alignment of the pattern against a longer fragment *)

(** A strictly increasing list of integers of an interval is no longer than
    the interval. *)
Lemma sorted_lt_len (l : list Z) (lo hi : Z) :
  StronglySorted Z.lt l → Forall (λ k, lo ≤ k < hi) l → len l ≤ Z.max 0 (hi - lo).
Proof.
  intros Hs. revert lo. induction Hs as [| a l Hs IH Ha]; intros lo Hb.
  - unfold len. simpl. lia.
  - apply Forall_cons in Hb as [Hlo Hb].
    assert (len l ≤ Z.max 0 (hi - (a + 1))) as Hl.
    { apply IH. apply Forall_forall. intros k Hk.
      eapply Forall_forall in Ha; [| done]. eapply Forall_forall in Hb; [| done].
      simpl in Hb. lia. }
    unfold len in *. simpl. lia.
Qed.

Section AddedPositions.
Context {T : Type} `{EqDecision T}.
Implicit Types (P F : list T) (i j : Z) (added : list (addition T)).

Lemma added_inv_init P F : added_inv P F 0 0 [].
Proof.
  pose proof (len_nonneg P). pose proof (len_nonneg F).
  unfold added_inv. split_and!; try done; try lia; constructor.
Qed.

Lemma added_inv_match P F i j added x :
  added_inv P F i j added →
  P !! Z.to_nat i = Some x → F !! Z.to_nat j = Some x →
  added_inv P F (i + 1) (j + 1) added.
Proof.
  intros (Hij & HiP & HjF & Hs & Hb & Hlen & Hdel) HP HF.
  pose proof (lookup_lt_Some _ _ _ HP). pose proof (lookup_lt_Some _ _ _ HF).
  unfold added_inv, len in *. split_and!; try lia; try done.
  - eapply Forall_impl; [done |]. simpl. intros a [? ?]. split; [lia | done].
  - rewrite (delete_indices_keep _ _ _ x); [| lia | done |].
    + rewrite Hdel. replace (Z.to_nat (i + 1)) with (S (Z.to_nat i)) by lia.
      by rewrite (take_S_r _ _ x).
    + apply Forall_fmap. eapply Forall_impl; [done |]. simpl. lia.
Qed.

Lemma added_inv_skip P F i j added v :
  added_inv P F i j added → F !! Z.to_nat j = Some v →
  added_inv P F i (j + 1) (added ++ [Addition j v]).
Proof.
  intros (Hij & HiP & HjF & Hs & Hb & Hlen & Hdel) HF.
  pose proof (lookup_lt_Some _ _ _ HF).
  unfold added_inv. split_and!; try lia; try done.
  - unfold len in *. lia.
  - rewrite fmap_app. apply StronglySorted_snoc_lt; [done |].
    apply Forall_fmap. eapply Forall_impl; [done |]. simpl. lia.
  - apply Forall_app. split.
    + eapply Forall_impl; [done |]. simpl. intros a [? ?]. split; [lia | done].
    + constructor; [| constructor]. simpl. split; [lia | done].
  - rewrite len_app. change (len [Addition j v]) with 1. lia.
  - rewrite fmap_app. simpl.
    rewrite (delete_indices_drop _ _ _ v); [done | lia | done].
Qed.

(** What the alignment returns: when it succeeds there is at least one
    addition, the added indices are strictly increasing indices of [F], as
    many as [F] is longer than [P], each with the item of [F] at that
    index; deleting them from [F] leaves [P]; and neither the first item of
    [F] is the first addition nor the last item of [F] the last one. *)
Lemma added_positions_spec P F :
  ∃ o, _added_positions_for_fragment P F = Ok o ∧
    ∀ added, o = Some added →
      StronglySorted Z.lt (ad_index <$> added) ∧
      Forall (λ a, 0 ≤ ad_index a < len F ∧
                   F !! Z.to_nat (ad_index a) = Some (ad_value a)) added ∧
      len added = len F - len P ∧
      delete_indices (ad_index <$> added) F = P ∧
      ∃ first last_, head added = Some first ∧ last added = Some last_ ∧
        ad_index first ≠ 0 ∧ ad_index last_ ≠ len F - 1.
Proof.
  unfold _added_positions_for_fragment. cbv zeta.
  destruct (while_inv
    (λ '(i, j, added), added_inv P F i j added)
    (λ '(_, j, _), Z.to_nat (len F - j))
    (λ '(i, j, _), bool_decide (j < len F) && bool_decide (i < len P))
    (λ '(i, j, added),
       f ← py_index F j;
       p ← py_index P i;
       if decide (f = p) then Ok (i + 1, j + 1, added)
       else
         v ← py_index F j;
         Ok (i, j + 1, added ++ [Addition j v])))
    with (fuel := length F) (st := (0, 0, @nil (addition T)))
    as ([[i j] added] & Hw1 & Hinv1 & Hc1).
  - intros [[i j] added] Hinv Hc.
    apply andb_true_iff in Hc as [Hj Hi].
    apply bool_decide_eq_true in Hi, Hj.
    pose proof Hinv as (Hij & _).
    destruct (py_index_inbounds F j) as (f & Hf & Hfi); [lia |].
    destruct (py_index_inbounds P i) as (p & Hp & Hpi); [lia |].
    rewrite Hfi. simpl. rewrite Hpi. simpl.
    destruct (decide (f = p)) as [-> | Hne].
    + exists (i + 1, j + 1, added). split; [done |].
      split; [by eapply added_inv_match | lia].
    + exists (i, j + 1, added ++ [Addition j f]). split; [done |].
      split; [by eapply added_inv_skip | lia].
  - apply added_inv_init.
  - unfold len. lia.
  - rewrite Hw1. simpl.
    destruct (while_inv
      (λ '(j, added), added_inv P F i j added)
      (λ '(j, _), Z.to_nat (len F - j))
      (λ '(j, _), bool_decide (j < len F))
      (λ '(j, added),
         v ← py_index F j;
         Ok (j + 1, added ++ [Addition j v])))
      with (fuel := length F) (st := (j, added))
      as ([j' added'] & Hw2 & Hinv2 & Hc2).
    + intros [j2 added2] Hinv Hc. apply bool_decide_eq_true in Hc.
      pose proof Hinv as (Hij & _).
      destruct (py_index_inbounds F j2) as (v & Hv & Hvi); [lia |].
      rewrite Hvi. simpl.
      exists (j2 + 1, added2 ++ [Addition j2 v]). split; [done |].
      split; [by eapply added_inv_skip | lia].
    + done.
    + destruct Hinv1 as (? & _). unfold len. lia.
    + rewrite Hw2. simpl. clear Hw1 Hw2 Hinv1 Hc1.
      apply bool_decide_eq_false in Hc2.
      destruct Hinv2 as (Hij & HiP & HjF & Hs & Hb & Hlen & Hdel).
      assert (j' = len F) as -> by lia.
      destruct (bool_decide (i ≠ len P)) eqn:Hi; simpl.
      { eexists. split; [done |]. done. }
      apply bool_decide_eq_false in Hi. apply dec_stable in Hi. subst i.
      destruct (bool_decide (len added' = 0)) eqn:Hempty; simpl.
      { eexists. split; [done |]. done. }
      apply bool_decide_eq_false in Hempty.
      (* the first and the last addition *)
      destruct added' as [| first rest] eqn:Hadded.
      { by destruct Hempty. }
      assert (Hfirst : py_index added' 0 = Ok first).
      { apply py_index_lookup; [lia | by rewrite Hadded]. }
      destruct (last added') as [last_ |] eqn:Hlast.
      2:{ apply last_None in Hlast. by rewrite Hadded in Hlast. }
      assert (Hlast' : py_index added' (-1) = Ok last_).
      { apply last_Some in Hlast as (l' & ->). apply py_index_last. }
      rewrite <-Hadded. rewrite Hfirst. simpl. rewrite Hlast'. simpl.
      destruct (bool_decide (ad_index first = 0)) eqn:H0; simpl.
      { eexists. split; [done |]. done. }
      destruct (bool_decide (ad_index last_ = len F - 1)) eqn:H1; simpl.
      { eexists. split; [done |]. done. }
      apply bool_decide_eq_false in H0, H1.
      eexists. split; [done |]. intros ? [= <-].
      unfold len in Hdel. rewrite !Nat2Z.id, !firstn_all in Hdel.
      split_and!; [by rewrite Hadded | by rewrite Hadded | by rewrite Hadded
                  | by rewrite Hadded |].
      exists first, last_. rewrite Hadded. split_and!; try done.
      by rewrite <-Hadded.
Qed.
End AddedPositions.

(** ** Extension *)

(** A loop that may break: the invariant holds as long as it goes on, and
    the final condition holds when it breaks or runs to the end. *)
Lemma for_each_inv_break {X St : Type} (Inv : list X → St → Prop)
    (Fin : St → Prop) (xs : list X) (body : X → St → result (flow St))
    (st0 : St) :
  Inv [] st0 →
  (∀ pre x post st, xs = pre ++ x :: post → Inv pre st →
     ∃ fl, body x st = Ok fl ∧
       match fl with
       | Next st' => Inv (pre ++ [x]) st'
       | Break st' => Fin st'
       end) →
  (∀ st, Inv xs st → Fin st) →
  ∃ st', for_each xs body st0 = Ok st' ∧ Fin st'.
Proof.
  revert Inv st0. induction xs as [|x xs IH]; intros Inv st0 H0 Hstep Hfin.
  - exists st0. split; [done | auto].
  - destruct (Hstep [] x xs st0 eq_refl H0) as ([st1 | st1] & Hb & H1).
    + destruct (IH (λ pre, Inv (x :: pre)) st1 H1) as (st' & Hf & H').
      * intros pre y post st -> Hpre.
        apply (Hstep (x :: pre) y post st); [done | done].
      * done.
      * exists st'. split; [| done]. simpl. by rewrite Hb.
    + exists st1. split; [| done]. simpl. by rewrite Hb.
Qed.

Section Extension.
Context {T : Type} `{EqDecision T}.
Context (P S : list T).
Implicit Types (start frag_len : Z) (added : list (addition T)).
Implicit Types (r : extension_match T) (lens : list Z).

Lemma ext_qualifies_fun lens1 lens2 start frag_len added1 added2 :
  ext_qualifies P S lens1 start frag_len added1 →
  ext_qualifies P S lens2 start frag_len added2 → added1 = added2.
Proof. intros (_ & _ & _ & H1) (_ & _ & _ & H2). congruence. Qed.

Lemma longest_qualifying_same lens1 lens2 start :
  (∀ frag_len added, ext_qualifies P S lens1 start frag_len added ↔
                     ext_qualifies P S lens2 start frag_len added) →
  ∀ added, longest_qualifying P S lens1 start added ↔
           longest_qualifying P S lens2 start added.
Proof.
  intros Hsame added. unfold longest_qualifying.
  split; intros (fl & Hq & Hmax); exists fl; (split; [by apply Hsame |]);
    intros fl' a' Hq'; apply (Hmax fl' a'); by apply Hsame.
Qed.

Lemma longest_qualifying_snoc_hit lens frag_len start added :
  (∀ y, y ∈ lens → y < frag_len) →
  ext_qualifies P S (lens ++ [frag_len]) start frag_len added →
  ∀ a, longest_qualifying P S (lens ++ [frag_len]) start a ↔ a = added.
Proof.
  intros Hlt Hq a. split.
  - intros (fl & Hqa & Hmax).
    pose proof (Hmax _ _ Hq) as Hle.
    pose proof Hqa as (Hfl & _).
    apply elem_of_app in Hfl as [Hfl | Hfl].
    + apply Hlt in Hfl. lia.
    + apply list_elem_of_singleton in Hfl as ->. by eapply ext_qualifies_fun.
  - intros ->. exists frag_len. split; [done |].
    intros fl' a' (Hfl' & _). apply elem_of_app in Hfl' as [Hfl' | Hfl'].
    + apply Hlt in Hfl'. lia.
    + apply list_elem_of_singleton in Hfl' as ->. lia.
Qed.

Lemma longest_qualifying_snoc_miss lens frag_len start :
  (∀ a, ¬ ext_qualifies P S (lens ++ [frag_len]) start frag_len a) →
  ∀ a, longest_qualifying P S (lens ++ [frag_len]) start a ↔
       longest_qualifying P S lens start a.
Proof.
  intros Hno. apply longest_qualifying_same. intros fl a. split.
  - intros Hq. pose proof Hq as (Hfl & H0 & HN & Ha).
    apply elem_of_app in Hfl as [Hfl | Hfl]; [done |].
    apply list_elem_of_singleton in Hfl as ->. by apply Hno in Hq.
  - intros (Hfl & H0 & HN & Ha). split; [apply elem_of_app; by left | done].
Qed.

(** The scan of the window lengths at one start index. *)
Lemma extension_inner lens start :
  StronglySorted Z.lt lens → 0 ≤ start →
  ∃ best,
    for_each lens (λ frag_len best,
      let end_ := start + frag_len in
      if decide (end_ > len S) then Ok (Break best)
      else
        let fragment := py_slice S start end_ in
        added ← _added_positions_for_fragment P fragment;
        match added with
        | None | Some [] => Ok (Next best)
        | Some added => Ok (Next (Some (ExtensionMatch start added)))
        end) None = Ok best ∧
    ∀ r, best = Some r ↔
      ex_position r = start ∧
      longest_qualifying P S lens start (ex_added r).
Proof.
  intros Hsorted Hstart. cbv zeta.
  match goal with
  | |- ∃ best, for_each ?xs ?body None = Ok best ∧ _ =>
      apply (for_each_inv_break
        (λ done_ best, ∀ r, best = Some r ↔
           ex_position r = start ∧
           longest_qualifying P S done_ start (ex_added r))
        (λ best, ∀ r, best = Some r ↔
           ex_position r = start ∧
           longest_qualifying P S lens start (ex_added r)) xs body None)
  end.
  - intros r. split; [done |]. intros (_ & fl & (Hfl & _) & _). by inversion Hfl.
  - intros done_ frag_len post best Hlens Hinv.
    rewrite Hlens in Hsorted.
    assert (Hlt : ∀ y, y ∈ done_ → y < frag_len).
    { intros y Hy. eapply StronglySorted_app_1_elem_of; [done | done | by left]. }
    assert (Hgt : ∀ y, y ∈ post → frag_len < y).
    { intros y Hy. apply StronglySorted_app_1_r in Hsorted.
      apply StronglySorted_cons in Hsorted as [Hall _].
      by eapply Forall_forall in Hall. }
    assert (Hself : frag_len ∈ done_ ++ [frag_len])
      by (apply elem_of_app; right; by left).
    destruct (decide (start + frag_len > len S)) as [Hout | Hin].
    { (* no window from here on lies inside the sequence *)
      eexists. split; [done |]. simpl. intros r. rewrite Hinv.
      apply and_iff_compat_l. apply longest_qualifying_same.
      intros fl a. split.
      - intros (Hfl & H0 & HN & Ha).
        split; [rewrite Hlens; apply elem_of_app; by left | done].
      - intros (Hfl & H0 & HN & Ha). split; [| done].
        rewrite Hlens in Hfl. apply elem_of_app in Hfl as [Hfl | Hfl]; [done |].
        apply elem_of_cons in Hfl as [-> | Hfl]; [lia |].
        apply Hgt in Hfl. lia. }
    destruct (added_positions_spec P (py_slice S start (start + frag_len)))
      as (o & Ho & Hspec).
    rewrite Ho. simpl.
    assert (Hmiss : o = None → ∀ r, best = Some r ↔
              ex_position r = start ∧
              longest_qualifying P S (done_ ++ [frag_len]) start (ex_added r)).
    { intros -> r. rewrite Hinv. apply and_iff_compat_l. symmetry.
      apply longest_qualifying_snoc_miss. intros a (_ & _ & _ & Ha). congruence. }
    destruct o as [[| a added] |].
    + destruct (Hspec [] eq_refl) as (_ & _ & _ & _ & f & l & Hhead & _). done.
    + eexists. split; [done |]. simpl. intros r.
      assert (Hq : ext_qualifies P S (done_ ++ [frag_len]) start frag_len
                     (a :: added)) by (split_and!; [done | done | lia | done]).
      rewrite (longest_qualifying_snoc_hit _ _ _ _ Hlt Hq). split.
      * by intros [= <-].
      * intros [Hpos Hadd]. destruct r as [pos add']. simpl in *. by subst.
    + eexists. split; [done |]. simpl. by apply Hmiss.
  - done.
Qed.
End Extension.

Section ExtensionResults.
Context {T : Type} `{EqDecision T}.
Context (P S : list T).
Implicit Types (start frag_len : Z) (added : list (addition T)).
Implicit Types (r : extension_match T) (max_extra : option Z).

(** The empty pattern has no extension: all the items of the window would
    be additions, the first one included. *)
Lemma no_extension_of_empty (F : list T) added :
  _added_positions_for_fragment [] F ≠ Ok (Some added).
Proof.
  intros Hrun. destruct (added_positions_spec [] F) as (o & Ho & Hspec).
  rewrite Hrun in Ho. injection Ho as <-.
  destruct (Hspec added eq_refl)
    as (Hs & Hb & Hlen & _ & first & last_ & Hhead & _ & Hne & _).
  destruct added as [| a rest]; [done |]. injection Hhead as ->.
  rewrite fmap_cons in Hs. apply StronglySorted_cons in Hs as [Hlt Hs].
  apply Forall_cons in Hb as [[Hfirst _] Hb].
  assert (len (ad_index <$> rest) ≤ Z.max 0 (len F - (ad_index first + 1))) as Hle.
  { apply sorted_lt_len; [done |]. apply Forall_forall. intros k Hk.
    eapply Forall_forall in Hlt; [| done].
    apply list_elem_of_fmap in Hk as (a & -> & Ha).
    eapply Forall_forall in Hb; [| done]. simpl in Hb. lia. }
  unfold len in *. rewrite length_fmap in Hle. simpl in *. lia.
Qed.

Lemma ext_qualifies_range max_extra start frag_len added :
  ext_qualifies P S (extension_lengths P max_extra) start frag_len added →
  P ≠ [] ∧ len P + 1 ≤ frag_len ∧ 0 ≤ start ≤ len S - len P - 1.
Proof.
  intros (Hfl & H0 & HN & Ha). unfold extension_lengths in Hfl.
  apply elem_of_py_range in Hfl. split; [| lia].
  intros ->. by apply no_extension_of_empty in Ha.
Qed.

(** What [extension] returns, exactly: in ascending order of the start
    index, one record for each start index that has a qualifying window,
    holding the additions of the longest one. *)
Lemma extension_select max_extra :
  ∃ res, extension P S max_extra = Ok res ∧
    (∀ r, r ∈ res ↔
       longest_qualifying P S (extension_lengths P max_extra)
         (ex_position r) (ex_added r)) ∧
    StronglySorted Z.lt (ex_position <$> res).
Proof.
  unfold extension. cbv zeta.
  destruct (decide (len P = 0 ∨ len S = 0)) as [Hdeg | Hdeg].
  { exists []. split; [done |]. split; [| constructor].
    intros r. split; [by inversion 1 |]. intros (fl & Hq & _).
    pose proof Hq as (_ & H0 & HN & _).
    apply ext_qualifies_range in Hq as (HP & Hfl & Hstart).
    pose proof (len_nonneg P).
    destruct Hdeg as [HL | HN0]; [by apply len_nil_inv in HL | lia]. }
  fold (extension_lengths P max_extra).
  match goal with
  | |- ∃ res, for_each ?xs ?body [] = Ok res ∧ _ =>
      destruct (for_each_select
        (λ start r, ex_position r = start ∧
           longest_qualifying P S (extension_lengths P max_extra) start
             (ex_added r))
        ex_position xs body)
        as (res & Hrun & Hin & Hsub); [| | exists res; split; [exact Hrun |]]
  end.
  - by intros x r [-> _].
  - intros start Hstart. apply elem_of_py_range in Hstart.
    destruct (extension_inner P S (extension_lengths P max_extra) start)
      as (best & Hbest & Hspec); [apply py_range_StronglySorted | lia |].
    cbv zeta in Hbest. destruct best as [b |].
    + exists [b]. split; [done |]. split.
      * intros r. rewrite list_elem_of_singleton, <-Hspec.
        split; [by intros -> | by intros [= ->]].
      * intros st. by rewrite Hbest.
    + exists []. split; [simpl; lia |]. split.
      * intros r. rewrite <-Hspec. split; [by inversion 1 | done].
      * intros st. rewrite Hbest. simpl. by rewrite app_nil_r.
  - split.
    + intros r. rewrite Hin. split.
      * by intros (start & _ & -> & Hl).
      * intros Hl. exists (ex_position r). split; [| done].
        destruct Hl as (fl & Hq & _).
        apply ext_qualifies_range in Hq as (_ & _ & Hstart).
        apply elem_of_py_range. lia.
    + eapply StronglySorted_sublist; [done | apply py_range_StronglySorted].
Qed.

(** The additions of a qualifying window. *)
Lemma ext_qualifies_added lens start frag_len added :
  ext_qualifies P S lens start frag_len added → 0 ≤ frag_len →
  len added = frag_len - len P ∧
  delete_indices (ad_index <$> added) (py_slice S start (start + frag_len)) = P ∧
  ∃ first last_, head added = Some first ∧ last added = Some last_ ∧
    ad_index first ≠ 0 ∧ ad_index last_ ≠ frag_len - 1.
Proof.
  intros (_ & H0 & HN & Ha) Hfl.
  destruct (added_positions_spec P (py_slice S start (start + frag_len)))
    as (o & Ho & Hspec).
  rewrite Ha in Ho. injection Ho as <-.
  destruct (Hspec added eq_refl) as (_ & _ & Hlen & Hdel & Hends).
  rewrite len_py_slice_window in Hlen, Hends by lia. done.
Qed.

(** C3. Every record that [extension] reports has a non-empty list of
    additions, whose first index is not 0 and whose last index is not the
    last index of the reported window (the window has [len P] items plus
    the additions); the start indices of the records are strictly
    increasing, so that no start index has two records; and the records are
    exactly those of the longest qualifying window of each start index that
    has a qualifying window. *)
Theorem extension_internal_longest max_extra :
  ∃ res, extension P S max_extra = Ok res ∧
    Forall (λ r,
      ∃ first last_,
        head (ex_added r) = Some first ∧ last (ex_added r) = Some last_ ∧
        ad_index first ≠ 0 ∧
        ad_index last_ ≠ len P + len (ex_added r) - 1) res ∧
    StronglySorted Z.lt (ex_position <$> res) ∧
    ∀ r, r ∈ res ↔
      longest_qualifying P S (extension_lengths P max_extra)
        (ex_position r) (ex_added r).
Proof.
  destruct (extension_select max_extra) as (res & Hrun & Hin & Hsorted).
  exists res. split_and!; [done | | done | done].
  apply Forall_forall. intros r Hr. apply Hin in Hr as (fl & Hq & _).
  pose proof (ext_qualifies_range _ _ _ _ Hq) as (_ & Hfl & _).
  pose proof (len_nonneg P).
  apply ext_qualifies_added in Hq as (Hlen & _ & first & last_ & ? & ? & ? & ?);
    [| lia].
  exists first, last_. split_and!; [done | done | done |].
  by replace (len P + len (ex_added r) - 1) with (fl - 1) by lia.
Qed.
End ExtensionResults.

(** ** The edit-based detectors: round trips and the shape of the records *)

Section EditDetectors.
Context {T : Type} `{EqDecision T}.
Context (P S : list T).
Implicit Types (max_extra : option Z).

(** C2. Deleting from the pattern the removed indices of a record of
    [fragmentation] leaves the window of the sequence that starts at the
    record's position and has [len P - len removed_indices] items; deleting
    from the window of a record of [extension] (the [len P + len added]
    items from the record's position) the indices listed in [added] leaves
    the pattern. *)
Theorem edit_round_trip max_extra :
  (∃ out, fragmentation P S None = Ok out ∧
     Forall (λ r,
       delete_indices (fr_removed_indices r) P =
       py_slice S (fr_position r)
         (fr_position r + len P - len (fr_removed_indices r))) out) ∧
  (∃ res, extension P S max_extra = Ok res ∧
     Forall (λ r,
       delete_indices (ad_index <$> ex_added r)
         (py_slice S (ex_position r)
            (ex_position r + (len P + len (ex_added r)))) = P) res).
Proof.
  split.
  - destruct (fragmentation_windows P S) as (out & Hrun & Hall).
    exists out. split; [done |]. eapply Forall_impl; [done |]. simpl.
    intros r (fl & Hfl & _ & Hc).
    apply frag_candidate_removed in Hc as (_ & _ & Hlen & Hdel); [| lia].
    rewrite Hdel. f_equal. lia.
  - destruct (extension_select P S max_extra) as (res & Hrun & Hin & _).
    exists res. split; [done |]. apply Forall_forall. intros r Hr.
    apply Hin in Hr as (fl & Hq & _).
    pose proof (ext_qualifies_range _ _ _ _ _ _ Hq) as (_ & Hfl & _).
    pose proof (len_nonneg P).
    apply ext_qualifies_added in Hq as (Hlen & Hdel & _); [| lia].
    by replace (len P + len (ex_added r)) with fl by lia.
Qed.

(** C10. In every record of [fragmentation] the removed indices are
    strictly increasing indices of the pattern, and there are as many of
    them as the pattern is longer than the matched window, a candidate
    window of the scan, shorter than the pattern; hence at least one. *)
Theorem fragmentation_removed_indices :
  ∃ out, fragmentation P S None = Ok out ∧
    Forall (λ r,
      StronglySorted Z.lt (fr_removed_indices r) ∧
      Forall (λ k, 0 ≤ k ≤ len P - 1) (fr_removed_indices r) ∧
      (∃ frag_len,
         frag_candidate P S frag_len (fr_position r) (fr_removed_indices r) ∧
         len (py_slice S (fr_position r) (fr_position r + frag_len)) = frag_len ∧
         frag_len < len P ∧
         len (fr_removed_indices r) = len P - frag_len) ∧
      fr_removed_indices r ≠ []) out.
Proof.
  destruct (fragmentation_windows P S) as (out & Hrun & Hall).
  exists out. split; [done |]. eapply Forall_impl; [done |]. simpl.
  intros r (fl & Hfl & Hrange & Hc).
  pose proof Hc as (Hstart & _).
  assert (Hfl0 : 0 ≤ fl) by lia.
  pose proof (frag_candidate_removed P S fl _ _ Hfl0 Hc)
    as (Hs & Hb & Hlen & _).
  split_and!.
  - done.
  - eapply Forall_impl; [done |]. simpl. lia.
  - exists fl. split_and!; [done | | lia | done].
    apply len_py_slice_window; lia.
  - intros Hnil. rewrite Hnil in Hlen. unfold len in Hlen at 1. simpl in Hlen. lia.
Qed.

(** C9. With the default [min_len], a pattern of one, two or three items
    has no fragmentation. *)
Theorem fragmentation_short_pattern :
  1 ≤ len P ≤ 3 → fragmentation P S None = Ok [].
Proof.
  intros HL. unfold fragmentation. cbv zeta.
  case_decide; [done |].
  destruct (default_min_len_bounds (len P)) as (_ & _ & Hml); [lia |].
  unfold fragmentation_scan. cbv zeta.
  rewrite Hml by lia. rewrite py_range_empty by lia. simpl.
  by rewrite map_to_list_empty.
Qed.

(** C4. [fragmentation] holds one candidate for each start index that has
    one, the candidate with the fewest removed indices, in ascending order
    of the start index ([results]); it then keeps a candidate exactly when
    its start index is greater than the end index of the last candidate
    kept before it ([last_end], which is [-1] as long as none is kept).
    The records kept do not overlap, and a candidate that is dropped starts
    inside the window of a candidate that starts earlier and is kept. *)
Theorem fragmentation_fewest_then_greedy :
  let L := len P in
  ∃ results out,
    fragmentation P S None = Ok out ∧
    StronglySorted Z.lt (fr_position <$> results) ∧
    (∀ r, r ∈ results ↔
       fewest_removed P S (py_range (L - L `div` 4) L)
         (fr_position r) (fr_removed_indices r)) ∧
    out `sublist_of` results ∧
    (∀ pre r post, results = pre ++ r :: post →
       ∃ kept, fragmentation_sweep L pre = Ok kept ∧ kept `prefix_of` out ∧
         (r ∈ out ↔ fr_position r > last_end L kept)) ∧
    StronglySorted (λ r1 r2, fr_end L r1 < fr_position r2) out ∧
    (∀ r, r ∈ results → r ∉ out →
       ∃ k, k ∈ out ∧ fr_position k < fr_position r ≤ fr_end L k).
Proof.
  intros L.
  destruct (fragmentation_run P S) as (results & out & Hrun & Hsweep & Hsorted & Hin).
  fold L in Hsweep, Hin.
  assert (Hlens : ∀ y, y ∈ py_range (L - L `div` 4) L → 0 ≤ y).
  { intros y Hy. apply elem_of_py_range in Hy.
    pose proof (default_min_len_bounds L (len_nonneg P)). lia. }
  assert (Hnd : NoDup results).
  { eapply NoDup_fmap_1. by apply StronglySorted_lt_NoDup. }
  exists results, out. split_and!; [done | done | | | | |].
  - intros r. rewrite Hin. by apply best_iff_fewest.
  - destruct (fragmentation_sweep_sublist L results) as (out' & Hout' & Hsub).
    congruence.
  - intros pre r post Hres. rewrite Hres in Hnd.
    destruct (fragmentation_sweep_greedy L pre r post Hnd)
      as (kept & out' & Hkept & Hout' & Hprefix & Hiff).
    rewrite <-Hres, Hsweep in Hout'. injection Hout' as <-. by exists kept.
  - destruct (fragmentation_sweep_disjoint L results) as (out' & Hout' & Hd & _);
      [done | | congruence].
    apply Forall_forall. intros r Hr.
    apply Hin, best_candidate_window in Hr as (fl & Hfl & _ & Hc).
    pose proof Hc as (Hstart & _).
    apply frag_candidate_removed in Hc as (_ & _ & Hlen & _); [| lia].
    unfold L. lia.
  - destruct (fragmentation_sweep_disjoint L results) as (out' & Hout' & _ & Hd);
      [done | |].
    + apply Forall_forall. intros r Hr.
      apply Hin, best_candidate_window in Hr as (fl & Hfl & _ & Hc).
      pose proof Hc as (Hstart & _).
      apply frag_candidate_removed in Hc as (_ & _ & Hlen & _); [| lia].
      unfold L. lia.
    + rewrite Hsweep in Hout'. by injection Hout' as <-.
Qed.
End EditDetectors.

(** ** All eight detectors: positions and degenerate inputs *)

(** A detector whose positions are starts of windows of [len P] items inside
    an empty sequence reports nothing. *)
Lemma no_window_in_empty {Y T : Type} (key : Y → Z) (P : list T) (res : list Y) :
  P ≠ [] → Forall (λ r, 0 ≤ key r ≤ len (@nil T) - len P) res → res = [].
Proof.
  intros HP Hres. destruct res as [| r res]; [done |].
  apply Forall_cons in Hres as [Hr _]. destruct P as [| p P]; [done |].
  unfold len in Hr. simpl in Hr. lia.
Qed.

Section AllDetectors.
Context {T V A : Type} `{EqDecision T} `{EqDecision V} `{EqDecision A}.
Context (value_fn : T → Z) (primary_fn : T → V) (aux_fn : T → A).
Implicit Types (P S : list T) (require_same_aux : bool).
Implicit Types (max_changes min_len max_extra : option Z).

Lemma repetition_positions P S :
  ∃ res, repetition P S = Ok res ∧ Forall (λ i, 0 ≤ i ≤ len S - len P) res.
Proof.
  destruct (repetition_select P S) as (res & Hrun & Hin & _).
  exists res. split; [done |]. apply Forall_forall. intros i Hi.
  by apply Hin in Hi as (_ & Hi & _).
Qed.

Lemma transposition_positions P S require_same_aux :
  ∃ res, transposition P S value_fn aux_fn require_same_aux = Ok res ∧
    Forall (λ r, 0 ≤ tr_position r ≤ len S - len P) res.
Proof.
  destruct (transposition_select value_fn aux_fn require_same_aux P S)
    as (res & Hrun & Hin & _).
  exists res. split; [done |]. apply Forall_forall. intros r Hr.
  by apply Hin in Hr as (_ & Hr & _).
Qed.

Lemma inversion_positions P S require_same_aux :
  ∃ res, inversion P S value_fn aux_fn require_same_aux = Ok res ∧
    Forall (λ i, 0 ≤ i ≤ len S - len P) res.
Proof.
  destruct P as [| p0 P']; [by exists [] |].
  destruct (inversion_select value_fn aux_fn require_same_aux p0 P' S)
    as (res & Hrun & Hin & _).
  exists res. split; [done |]. apply Forall_forall. intros i Hi.
  by apply Hin in Hi as (Hi & _).
Qed.

Lemma fragmentation_positions P S :
  ∃ res, fragmentation P S None = Ok res ∧
    Forall (λ r,
      0 ≤ fr_position r ≤ len S - (len P - len (fr_removed_indices r))) res.
Proof.
  destruct (fragmentation_windows P S) as (out & Hrun & Hall).
  exists out. split; [done |]. eapply Forall_impl; [done |]. simpl.
  intros r (fl & Hfl & _ & Hc). pose proof Hc as (Hstart & _).
  apply frag_candidate_removed in Hc as (_ & _ & Hlen & _); [| lia]. lia.
Qed.

Lemma extension_positions P S max_extra :
  ∃ res, extension P S max_extra = Ok res ∧
    Forall (λ r,
      0 ≤ ex_position r ≤ len S - (len P + len (ex_added r))) res.
Proof.
  destruct (extension_select P S max_extra) as (res & Hrun & Hin & _).
  exists res. split; [done |]. apply Forall_forall. intros r Hr.
  apply Hin in Hr as (fl & Hq & _). pose proof Hq as (_ & H0 & HN & _).
  pose proof (ext_qualifies_range _ _ _ _ _ _ Hq) as (_ & Hfl & _).
  pose proof (len_nonneg P).
  apply ext_qualifies_added in Hq as (Hlen & _); [| lia]. lia.
Qed.

(** The bound on the positions of [fragmentation], for the default
    [min_len] and for every [min_len] that is not negative. *)
Lemma fragmentation_positions_any P S min_len :
  (∀ m, min_len = Some m → 0 ≤ m) →
  ∃ res, fragmentation P S min_len = Ok res ∧
    Forall (λ r,
      0 ≤ fr_position r ≤ len S - (len P - len (fr_removed_indices r))) res.
Proof.
  intros Hm. destruct min_len as [m |]; [| apply fragmentation_positions].
  apply fragmentation_positions_nonneg. by apply Hm.
Qed.

(** C7, as amended.  For every value of the optional parameters, provided
    [min_len] is not negative when it is given, every record that a detector
    reports has a position between 0 and [len S] minus the length of its
    window: [len P] for the six windowed detectors,
    [len P - len removed_indices] for [fragmentation] and
    [len P + len added] for [extension]. *)
Theorem positions_inside_sequence P S require_same_aux max_changes min_len
    max_extra :
  (∀ m, min_len = Some m → 0 ≤ m) →
  (∃ res, repetition P S = Ok res ∧
     Forall (λ i, 0 ≤ i ≤ len S - len P) res) ∧
  (∃ res, transposition P S value_fn aux_fn require_same_aux = Ok res ∧
     Forall (λ r, 0 ≤ tr_position r ≤ len S - len P) res) ∧
  (∃ res, retrograde P S primary_fn aux_fn require_same_aux = Ok res ∧
     Forall (λ i, 0 ≤ i ≤ len S - len P) res) ∧
  (∃ res, inversion P S value_fn aux_fn require_same_aux = Ok res ∧
     Forall (λ i, 0 ≤ i ≤ len S - len P) res) ∧
  (∃ res, local_aux_changes P S primary_fn aux_fn max_changes = Ok res ∧
     Forall (λ r, 0 ≤ cm_position r ≤ len S - len P) res) ∧
  (∃ res, local_value_changes P S primary_fn aux_fn max_changes
            require_same_aux = Ok res ∧
     Forall (λ r, 0 ≤ cm_position r ≤ len S - len P) res) ∧
  (∃ res, fragmentation P S min_len = Ok res ∧
     Forall (λ r,
       0 ≤ fr_position r ≤ len S - (len P - len (fr_removed_indices r))) res) ∧
  (∃ res, extension P S max_extra = Ok res ∧
     Forall (λ r,
       0 ≤ ex_position r ≤ len S - (len P + len (ex_added r))) res).
Proof.
  intros Hmin. split_and!.
  - apply repetition_positions.
  - apply transposition_positions.
  - apply retrograde_positions.
  - apply inversion_positions.
  - apply local_aux_changes_positions.
  - apply local_value_changes_positions.
  - by apply fragmentation_positions_any.
  - apply extension_positions.
Qed.

(** C8. Each of the eight detectors returns the empty list, and does not
    raise, for an empty pattern and any sequence, and for an empty sequence
    and any pattern. *)
Theorem degenerate_inputs_empty P S require_same_aux max_changes min_len
    max_extra :
  (repetition [] S = Ok [] ∧ repetition P [] = Ok []) ∧
  (transposition [] S value_fn aux_fn require_same_aux = Ok [] ∧
   transposition P [] value_fn aux_fn require_same_aux = Ok []) ∧
  (retrograde [] S primary_fn aux_fn require_same_aux = Ok [] ∧
   retrograde P [] primary_fn aux_fn require_same_aux = Ok []) ∧
  (inversion [] S value_fn aux_fn require_same_aux = Ok [] ∧
   inversion P [] value_fn aux_fn require_same_aux = Ok []) ∧
  (local_aux_changes [] S primary_fn aux_fn max_changes = Ok [] ∧
   local_aux_changes P [] primary_fn aux_fn max_changes = Ok []) ∧
  (local_value_changes [] S primary_fn aux_fn max_changes require_same_aux
     = Ok [] ∧
   local_value_changes P [] primary_fn aux_fn max_changes require_same_aux
     = Ok []) ∧
  (fragmentation [] S min_len = Ok [] ∧ fragmentation P [] min_len = Ok []) ∧
  (extension [] S max_extra = Ok [] ∧ extension P [] max_extra = Ok []).
Proof.
  assert (Hwin : ∀ {Y : Type} (key : Y → Z) (run : list T → list T → result (list Y)),
    run [] [] = Ok [] →
    (∃ res, run P [] = Ok res ∧
       Forall (λ r, 0 ≤ key r ≤ len (@nil T) - len P) res) →
    run P [] = Ok []).
  { intros Y key run Hnil (res & Hrun & Hres).
    destruct (decide (P = [])) as [-> | HP]; [done |].
    by rewrite (no_window_in_empty key P res HP Hres) in Hrun. }
  split_and!; try done.
  - apply (Hwin _ id repetition); [done | apply repetition_positions].
  - apply (Hwin _ tr_position
      (λ P S, transposition P S value_fn aux_fn require_same_aux));
      [done | apply transposition_positions].
  - apply (Hwin _ id (λ P S, retrograde P S primary_fn aux_fn require_same_aux));
      [done | apply retrograde_positions].
  - apply (Hwin _ id (λ P S, inversion P S value_fn aux_fn require_same_aux));
      [done | apply inversion_positions].
  - apply (Hwin _ cm_position
      (λ P S, local_aux_changes P S primary_fn aux_fn max_changes));
      [done | apply local_aux_changes_positions].
  - apply (Hwin _ cm_position
      (λ P S, local_value_changes P S primary_fn aux_fn max_changes
                require_same_aux));
      [done | apply local_value_changes_positions].
  - unfold fragmentation. cbv zeta. by rewrite decide_True by (by right).
  - unfold extension. cbv zeta. by rewrite decide_True by (by right).
Qed.
End AllDetectors.

(** The bound on a run where [fragmentation], with [min_len = 3], reports a
    record. *)
Lemma positions_inside_sequence_witness :
  let P := [1; 2; 3; 4] in
  let S := [1; 2; 4; 7] in
  (∀ m, Some 3 = Some m → 0 ≤ m) ∧
  (∃ res, repetition P S = Ok res ∧
     Forall (λ i, 0 ≤ i ≤ len S - len P) res) ∧
  (∃ res, transposition P S id (@no_aux Z) true = Ok res ∧
     Forall (λ r, 0 ≤ tr_position r ≤ len S - len P) res) ∧
  (∃ res, retrograde P S id (@no_aux Z) true = Ok res ∧
     Forall (λ i, 0 ≤ i ≤ len S - len P) res) ∧
  (∃ res, inversion P S id (@no_aux Z) true = Ok res ∧
     Forall (λ i, 0 ≤ i ≤ len S - len P) res) ∧
  (∃ res, local_aux_changes P S id (@no_aux Z) None = Ok res ∧
     Forall (λ r, 0 ≤ cm_position r ≤ len S - len P) res) ∧
  (∃ res, local_value_changes P S id (@no_aux Z) None true = Ok res ∧
     Forall (λ r, 0 ≤ cm_position r ≤ len S - len P) res) ∧
  (∃ res, fragmentation P S (Some 3) = Ok res ∧
     Forall (λ r,
       0 ≤ fr_position r ≤ len S - (len P - len (fr_removed_indices r))) res) ∧
  (∃ res, extension P S None = Ok res ∧
     Forall (λ r,
       0 ≤ ex_position r ≤ len S - (len P + len (ex_added r))) res).
Proof.
  intros P S.
  assert (Hmin : ∀ m, Some 3 = Some m → 0 ≤ m) by (intros m [= <-]; lia).
  split; [exact Hmin |].
  exact (positions_inside_sequence id id (@no_aux Z) P S true None (Some 3)
           None Hmin).
Defined.

(** With [min_len = -1] the scan of [fragmentation] tries the window lengths
    -1 and 0 and start indices up to [len S + 1]: the pattern [[1]] is
    reported in [[1; 2]] at the positions 2 and 3, each with a window of no
    item, and position 3 is past the end of the sequence. *)
Lemma positions_inside_sequence_counterexample :
  ∃ res, fragmentation [1] [1; 2] (Some (-1)) = Ok res ∧
    ¬ Forall (λ r,
        0 ≤ fr_position r
          ≤ len [1; 2] - (len [1] - len (fr_removed_indices r))) res.
Proof.
  exists [FragmentationMatch 2 [0]; FragmentationMatch 3 [0]].
  split; [by vm_compute |]. intros Hall.
  apply Forall_cons in Hall as [_ Hall]. apply Forall_cons in Hall as [H3 _].
  unfold len in H3. simpl in H3. lia.
Qed.

(** A pattern of three items, run on a sequence that holds it with one item
    in between. *)
Lemma fragmentation_short_pattern_witness :
  1 ≤ len [1; 2; 3] ≤ 3 ∧ fragmentation [1; 2; 3] [1; 2; 4; 3] None = Ok [].
Proof.
  split.
  - unfold len. simpl. lia.
  - apply (fragmentation_short_pattern [1; 2; 3] [1; 2; 4; 3]).
    unfold len. simpl. lia.
Defined.

(** ** The scenarios of the specification, and a few more runs *)

Section Scenarios.
Example scenario_repetition :
  repetition [1; 2] [0; 1; 2; 1; 2; 3] = Ok [1; 3].
Proof. by vm_compute. Qed.

Example scenario_transposition :
  transposition [1; 2; 3] [1; 2; 3; 2; 3; 4] id no_aux true
  = Ok [TranspositionMatch 3 1].
Proof. by vm_compute. Qed.

Example scenario_retrograde :
  retrograde [(1, 10); (2, 20); (3, 30)] [(3, 30); (2, 20); (1, 10); (0, 40)]
    fst snd true
  = Ok [0].
Proof. by vm_compute. Qed.

Example scenario_inversion :
  inversion [0; 1; -1] [0; -1; 1; 0] id no_aux true = Ok [0].
Proof. by vm_compute. Qed.

Example scenario_local_aux_changes :
  local_aux_changes [(1, 10); (2, 10); (3, 10)]
    [(1, 10); (2, 5); (3, 10); (1, 10)] fst snd (Some 1)
  = Ok [ChangeMatch 0 [Change 1 5]].
Proof. by vm_compute. Qed.

Example scenario_local_value_changes :
  local_value_changes [(1, 10); (2, 10); (3, 10)]
    [(1, 10); (2, 10); (4, 10); (0, 10)] fst snd (Some 1) true
  = Ok [ChangeMatch 0 [Change 2 4]].
Proof. by vm_compute. Qed.

Example scenario_fragmentation :
  fragmentation [1; 2; 3; 4] [1; 2; 4; 5] None
  = Ok [FragmentationMatch 0 [2]].
Proof. by vm_compute. Qed.

Example scenario_extension :
  extension [1; 2; 3] [1; 9; 2; 3; 0] (Some 2)
  = Ok [ExtensionMatch 0 [Addition 1 9]].
Proof. by vm_compute. Qed.

(** Two window lengths at start 0 and one at start 1: the scan holds the
    longer window at start 0, and the sweep drops start 1, which lies in
    the window kept at start 0. *)
Example fragmentation_overlap_scan :
  (m ← fragmentation_scan [1; 2; 3; 4; 5; 6; 7; 8] [1; 2; 3; 4; 5; 6; 7; 9] 6;
   Ok (py_sorted (map_to_list m)))
  = Ok [(0, [7]); (1, [0; 7])].
Proof. by vm_compute. Qed.

Example fragmentation_overlap :
  fragmentation [1; 2; 3; 4; 5; 6; 7; 8] [1; 2; 3; 4; 5; 6; 7; 9] None
  = Ok [FragmentationMatch 0 [7]].
Proof. by vm_compute. Qed.

(** A negative [min_len] makes the scan visit start indices past the end of
    the sequence. *)
Example fragmentation_negative_min_len :
  fragmentation [1] [1; 2] (Some (-1))
  = Ok [FragmentationMatch 2 [0]; FragmentationMatch 3 [0]].
Proof. by vm_compute. Qed.
End Scenarios.

(** * Further properties of the detectors *)

(** ** Lists of records that are determined by their keys *)

Lemma StronglySorted_fmap_inv {Y : Type} (key : Y → Z) (l : list Y) :
  StronglySorted Z.lt (key <$> l) →
  StronglySorted (λ a b, key a < key b) l.
Proof.
  induction l as [| y l IH]; intros Hs; [constructor |].
  rewrite fmap_cons in Hs. apply StronglySorted_cons in Hs as [Hy Hs].
  constructor; [auto |]. apply Forall_forall. intros z Hz.
  eapply Forall_forall in Hy; [done |]. by apply list_elem_of_fmap_2.
Qed.

(** Two lists with strictly increasing keys and the same elements are the
    same list. *)
Lemma sorted_key_unique {Y : Type} (key : Y → Z) (l1 l2 : list Y) :
  StronglySorted Z.lt (key <$> l1) → StronglySorted Z.lt (key <$> l2) →
  (∀ y, y ∈ l1 ↔ y ∈ l2) → l1 = l2.
Proof.
  intros H1 H2 Hin.
  apply (StronglySorted_unique_strong (λ a b, key a < key b)).
  - intros x1 x2 _ _ ? ?. lia.
  - by apply StronglySorted_fmap_inv.
  - by apply StronglySorted_fmap_inv.
  - apply NoDup_Permutation; [| | done].
    + eapply NoDup_fmap_1. by apply StronglySorted_lt_NoDup.
    + eapply NoDup_fmap_1. by apply StronglySorted_lt_NoDup.
Qed.

(** A list with strictly increasing keys whose only element is [y]. *)
Lemma sorted_key_singleton {Y : Type} (key : Y → Z) (l : list Y) (y : Y) :
  StronglySorted Z.lt (key <$> l) → (∀ z, z ∈ l ↔ z = y) → l = [y].
Proof.
  intros Hs Hin. apply (sorted_key_unique key); [done | repeat constructor |].
  intros z. by rewrite Hin, list_elem_of_singleton.
Qed.

(** A list with strictly increasing keys and no element. *)
Lemma no_element_nil {Y : Type} (l : list Y) : (∀ z, z ∉ l) → l = [].
Proof.
  destruct l as [| y l]; [done |]. intros Hno. destruct (Hno y). by left.
Qed.

(** ** The window of a match, as a list *)

Section WindowAsList.
Context {T : Type}.
Implicit Types (P S : list T) (i j : Z).

(** The window of [S] at [i], taken as a sequence of its own, relates to [P]
    read as the pattern the other way round. *)
Lemma pairwise_window_swap S P i (Q : T → T → Prop) :
  0 ≤ i → i + len P ≤ len S → pairwise S P i Q →
  pairwise P (py_slice S i (i + len P)) 0 (λ p s, Q s p).
Proof.
  intros Hi Hip HQ j Hj. pose proof (len_nonneg P).
  rewrite len_py_slice_window in Hj by lia.
  destruct (HQ j Hj) as (s & p & Hs & Hp & Hsp).
  exists p, s. split_and!; [by rewrite Z.add_0_l | | done].
  by rewrite lookup_py_slice_window by lia.
Qed.

Lemma pairwise_mono S P i (Q1 Q2 : T → T → Prop) :
  (∀ s p, Q1 s p → Q2 s p) → pairwise S P i Q1 → pairwise S P i Q2.
Proof.
  intros HQ H1 j Hj. destruct (H1 j Hj) as (s & p & ? & ? & ?).
  exists s, p. auto.
Qed.
End WindowAsList.

(** ** Transposition: completeness, and the way back *)

Section TranspositionMore.
Context {T A : Type} `{EqDecision T} `{EqDecision A}.
Context (value_fn : T → Z) (aux_fn : T → A) (require_same_aux : bool).
Implicit Types (P S : list T) (r : transposition_match).

(** X1. [transposition] reports, in strictly ascending order of the position
    and once each, exactly the windows of [len P] items inside the sequence
    that differ from the pattern by a non-zero constant at every item (and
    have its aux values, when these are compared); the offset of the record
    is that constant. *)
Theorem transposition_exact P S :
  ∃ res, transposition P S value_fn aux_fn require_same_aux = Ok res ∧
    StronglySorted Z.lt (tr_position <$> res) ∧
    ∀ r, r ∈ res ↔
      P ≠ [] ∧ 0 ≤ tr_position r ≤ len S - len P ∧ tr_offset r ≠ 0 ∧
      pairwise S P (tr_position r)
        (λ s p, value_fn s - value_fn p = tr_offset r) ∧
      (require_same_aux = true →
       pairwise S P (tr_position r) (λ s p, aux_fn s = aux_fn p)).
Proof.
  destruct (transposition_select value_fn aux_fn require_same_aux P S)
    as (res & Hrun & Hin & Hsorted).
  exists res. split; [done |]. split; [done |]. intros r. by rewrite Hin.
Qed.

(** X2. The window of a record of [transposition], searched for in the
    pattern, is found at position 0 with the opposite offset, and nothing
    else is. *)
Theorem transposition_inverse P S :
  ∃ res, transposition P S value_fn aux_fn require_same_aux = Ok res ∧
    Forall (λ r,
      transposition (py_slice S (tr_position r) (tr_position r + len P)) P
        value_fn aux_fn require_same_aux
      = Ok [TranspositionMatch 0 (- tr_offset r)]) res.
Proof.
  destruct (transposition_select value_fn aux_fn require_same_aux P S)
    as (res & Hrun & Hin & _).
  exists res. split; [done |]. apply Forall_forall. intros r Hr.
  apply Hin in Hr as (HP & Hpos & Hne & Hoff & Haux).
  set (i := tr_position r) in *. set (W := py_slice S i (i + len P)).
  pose proof (len_nonneg P) as HL0.
  assert (HW : len W = len P) by (apply len_py_slice_window; lia).
  assert (HWne : W ≠ []).
  { intros HWnil. rewrite HWnil in HW. destruct P; [done |].
    unfold len in HW. simpl in HW. lia. }
  destruct (transposition_select value_fn aux_fn require_same_aux W P)
    as (res' & Hrun' & Hin' & Hsorted').
  rewrite Hrun'. f_equal.
  apply (sorted_key_singleton tr_position); [done |].
  intros [pos off]. rewrite Hin'. unfold transposed_at. simpl.
  apply pairwise_window_swap in Hoff; [| lia | lia]. fold W in Hoff.
  split.
  - intros (_ & Hpos' & Hne' & Hoff' & _).
    assert (pos = 0) as -> by lia. f_equal.
    assert (H0 : 0 ≤ 0 < len W).
    { destruct P; [done | unfold len in *; simpl in *; lia]. }
    destruct (Hoff 0 H0) as (p & s & Hp & Hs & Hd).
    pose proof (pairwise_at P W 0 _ 0 p s Hoff' H0 Hp Hs) as Hd'.
    simpl in Hd'. lia.
  - intros [= -> ->]. split_and!; [done | lia | lia | lia | |].
    + eapply pairwise_mono; [| exact Hoff]. simpl. intros p s. lia.
    + intros Hreq. specialize (Haux Hreq).
      apply pairwise_window_swap in Haux; [| lia | lia]. fold W in Haux.
      eapply pairwise_mono; [| exact Haux]. by simpl.
Qed.
End TranspositionMore.

(** ** Retrograde *)

Section RetrogradeMore.
Context {T V A : Type} `{EqDecision T} `{EqDecision V} `{EqDecision A}.
Context (primary_fn : T → V) (aux_fn : T → A) (require_same_aux : bool).
Implicit Types (P S : list T) (i j : Z).

Lemma retrograde_flag_loop S P i :
  0 ≤ i → i + len P ≤ len S →
  ∃ b : bool,
    for_each (py_range 0 (len P)) (λ j ok,
      p ← py_index P (len P - 1 - j);
      s ← py_index (py_slice S i (i + len P)) j;
      if decide (primary_fn s ≠ primary_fn p) then Ok (Break false)
      else if require_same_aux && bool_decide (aux_fn s ≠ aux_fn p)
      then Ok (Break false)
      else Ok (Next ok)) true = Ok b ∧
    (b = true ↔ retrograde_at P S primary_fn aux_fn require_same_aux i).
Proof.
  intros Hi Hip.
  match goal with
  | |- ∃ b : bool, for_each ?xs ?body true = Ok b ∧ _ =>
      destruct (for_each_flag
        (λ j, ∀ s p, S !! Z.to_nat (i + j) = Some s →
                P !! Z.to_nat (len P - 1 - j) = Some p →
                primary_fn s = primary_fn p ∧
                (require_same_aux = true → aux_fn s = aux_fn p)) xs body)
        as (b & Hb & Hiff)
  end.
  - intros j Hj. apply elem_of_py_range in Hj.
    destruct (py_index_inbounds P (len P - 1 - j)) as (p & Hp & Hpi); [lia |].
    destruct (window_index S i (len P) j) as (s & Hs & Hsi); [lia.. |].
    exists (bool_decide (primary_fn s = primary_fn p ∧
                         (require_same_aux = true → aux_fn s = aux_fn p))).
    split.
    + rewrite bool_decide_eq_true. split.
      * intros Hg s' p' Hs' Hp'. by simplify_eq.
      * intros Hall. by apply Hall.
    + intros ok. rewrite Hpi. simpl. rewrite Hsi. simpl.
      destruct (decide (primary_fn s ≠ primary_fn p)) as [Hne | Heq].
      { rewrite bool_decide_eq_false_2; [done |]. by intros [? _]. }
      apply dec_stable in Heq. destruct require_same_aux; simpl.
      * destruct (decide (aux_fn s = aux_fn p)) as [Ha | Ha].
        -- rewrite (bool_decide_eq_false_2 (aux_fn s ≠ aux_fn p)) by auto.
           by rewrite bool_decide_eq_true_2.
        -- rewrite (bool_decide_eq_true_2 (aux_fn s ≠ aux_fn p)) by done.
           rewrite bool_decide_eq_false_2; [done |]. intros [_ Hx]. auto.
      * rewrite bool_decide_eq_true_2; [done |]. by split.
  - exists b. split; [done |]. rewrite Hiff. split.
    + intros Hall j Hj.
      destruct (py_index_inbounds P (len P - 1 - j)) as (p & Hp & _); [lia |].
      destruct (window_index S i (len P) j) as (s & Hs & _); [lia.. |].
      exists s, p. split; [done |]. split; [done |].
      apply (Hall j); [apply elem_of_py_range; lia | done | done].
    + intros Hat j Hj s p Hs Hp. apply elem_of_py_range in Hj.
      destruct (Hat j) as (s' & p' & Hs' & Hp' & Hsp); [lia |]. by simplify_eq.
Qed.

(** What [retrograde] returns, exactly. *)
Lemma retrograde_select P S :
  ∃ res, retrograde P S primary_fn aux_fn require_same_aux = Ok res ∧
    (∀ i, i ∈ res ↔
       P ≠ [] ∧ 0 ≤ i ≤ len S - len P ∧
       retrograde_at P S primary_fn aux_fn require_same_aux i) ∧
    StronglySorted Z.lt res.
Proof.
  unfold retrograde. cbv zeta.
  destruct (decide (len P = 0)) as [HL | HL].
  { exists []. split; [done |]. split; [| constructor].
    intros i. split; [by inversion 1 |].
    intros (HP & _). by apply len_nil_inv in HL. }
  assert (HP : P ≠ []) by (by intros ->).
  pose proof (len_nonneg P) as HL0.
  match goal with
  | |- ∃ res, for_each ?xs ?body [] = Ok res ∧ _ =>
      destruct (for_each_select
        (λ i r : Z, r = i ∧
           retrograde_at P S primary_fn aux_fn require_same_aux i) id xs body)
        as (res & Hrun & Hin & Hsub); [| | exists res; split; [exact Hrun |]]
  end.
  - by intros x r [-> _].
  - intros i Hi. apply elem_of_py_range in Hi.
    destruct (retrograde_flag_loop S P i) as (b & Hb & Hiff); [lia.. |].
    destruct b.
    + exists [i]. split; [done |]. split.
      * intros r. rewrite list_elem_of_singleton. split; [| tauto].
        intros ->. split; [done |]. by apply Hiff.
      * intros st. by rewrite Hb.
    + exists []. split; [simpl; lia |]. split.
      * intros r. split; [by inversion 1 |]. intros [-> Hat].
        by apply Hiff in Hat.
      * intros st. rewrite Hb. simpl. by rewrite app_nil_r.
  - split.
    + intros i. rewrite Hin. split.
      * intros (x & Hx & -> & Hat). apply elem_of_py_range in Hx.
        split; [done |]. split; [lia | done].
      * intros (_ & Hi & Hat). exists i.
        split; [apply elem_of_py_range; lia | done].
    + rewrite list_fmap_id in Hsub.
      eapply StronglySorted_sublist; [done | apply py_range_StronglySorted].
Qed.

(** X3. [retrograde] returns, in strictly ascending order, exactly the start
    indices [i] in [[0, len S - len P]] at which the item of the sequence at
    [i + j] has the primary value of the item of the pattern at
    [len P - 1 - j] for every [j < len P], and its aux value as well when
    [require_same_aux] is set; nothing for the empty pattern. *)
Theorem retrograde_exact P S :
  ∃ res, retrograde P S primary_fn aux_fn require_same_aux = Ok res ∧
    StronglySorted Z.lt res ∧
    ∀ i, i ∈ res ↔
      P ≠ [] ∧ 0 ≤ i ≤ len S - len P ∧
      ∀ j, 0 ≤ j < len P →
        ∃ s p, S !! Z.to_nat (i + j) = Some s ∧
               P !! Z.to_nat (len P - 1 - j) = Some p ∧
               primary_fn s = primary_fn p ∧
               (require_same_aux = true → aux_fn s = aux_fn p).
Proof.
  destruct (retrograde_select P S) as (res & Hrun & Hin & Hsorted).
  exists res. split; [done |]. split; [done |]. intros i. by rewrite Hin.
Qed.

(** X5. The window of a retrograde occurrence has the pattern as its own
    retrograde occurrence: searched for in the pattern, it is found at
    position 0 and nowhere else. *)
Theorem retrograde_symmetric P S :
  ∃ res, retrograde P S primary_fn aux_fn require_same_aux = Ok res ∧
    Forall (λ i,
      retrograde (py_slice S i (i + len P)) P primary_fn aux_fn
        require_same_aux = Ok [0]) res.
Proof.
  destruct (retrograde_select P S) as (res & Hrun & Hin & _).
  exists res. split; [done |]. apply Forall_forall. intros i Hi.
  apply Hin in Hi as (HP & Hpos & Hat).
  set (W := py_slice S i (i + len P)).
  pose proof (len_nonneg P) as HL0.
  assert (HW : len W = len P) by (apply len_py_slice_window; lia).
  assert (HWne : W ≠ []).
  { intros HWnil. rewrite HWnil in HW. destruct P; [done |].
    unfold len in HW. simpl in HW. lia. }
  destruct (retrograde_select W P) as (res' & Hrun' & Hin' & Hsorted').
  rewrite Hrun'. f_equal. apply (sorted_key_singleton id).
  - by rewrite list_fmap_id.
  - intros i'. rewrite Hin'. split; [intros (_ & ? & _); lia |].
    intros ->. split; [done |]. split; [lia |].
    intros j Hj. rewrite HW in Hj.
    destruct (Hat (len P - 1 - j)) as (s & p & Hs & Hp & Hprim & Haux); [lia |].
    exists p, s. rewrite HW. split_and!.
    + rewrite <-Hp. f_equal. lia.
    + unfold W. rewrite lookup_py_slice_window by lia. done.
    + done.
    + intros Hreq. symmetry. by apply Haux.
Qed.
End RetrogradeMore.

(** ** The local-change detectors *)

Section LocalChanges.
Context {T V A : Type} `{EqDecision T} `{EqDecision V} `{EqDecision A}.
Context (primary_fn : T → V) (aux_fn : T → A).
Implicit Types (P S : list T) (i j : Z) (max_changes : option Z).

Lemma is_changes_unique {B : Type} S P (g : T → B) i
    (changed1 changed2 : list (change B)) :
  is_changes S P g i changed1 → is_changes S P g i changed2 →
  changed1 = changed2.
Proof.
  intros [Hs1 Hin1] [Hs2 Hin2].
  apply (sorted_key_unique ch_index); [done | done |].
  intros c. by rewrite Hin1, Hin2.
Qed.

(** The list comprehension that records the changed offsets of a window. *)
Lemma changed_loop_spec {B : Type} `{EqDecision B} S P i (g : T → B) :
  0 ≤ i → i + len P ≤ len S →
  ∃ changed,
    for_each (py_range 0 (len P)) (λ j changed,
      s ← py_index (py_slice S i (i + len P)) j;
      p ← py_index P j;
      if decide (g s ≠ g p) then
        s' ← py_index (py_slice S i (i + len P)) j;
        Ok (Next (changed ++ [Change j (g s')]))
      else Ok (Next changed)) [] = Ok changed ∧
    is_changes S P g i changed.
Proof.
  intros Hi Hip.
  match goal with
  | |- ∃ changed, for_each ?xs ?body [] = Ok changed ∧ _ =>
      destruct (for_each_select
        (λ j (c : change B), ch_index c = j ∧
           ∃ s p, S !! Z.to_nat (i + j) = Some s ∧ P !! Z.to_nat j = Some p ∧
                  g s ≠ g p ∧ ch_new c = g s) ch_index xs body)
        as (changed & Hrun & Hin & Hsub);
        [| | exists changed; split; [exact Hrun |]]
  end.
  - by intros j c [-> _].
  - intros j Hj. apply elem_of_py_range in Hj.
    destruct (window_pair S P i j) as (s & p & Hs & Hp & Hsi & Hpi); [lia.. |].
    destruct (decide (g s ≠ g p)) as [Hne | Heq].
    + exists [Change j (g s)]. split; [done |]. split.
      * intros c. rewrite list_elem_of_singleton. split.
        -- intros ->. split; [done |]. by exists s, p.
        -- intros (Hc & s' & p' & Hs' & Hp' & _ & Hnew).
           destruct c as [idx new]. simpl in *. by simplify_eq.
      * intros st. rewrite Hsi. simpl. rewrite Hpi. simpl.
        by rewrite decide_True by done.
    + exists []. split; [simpl; lia |]. split.
      * intros c. split; [by inversion 1 |].
        intros (_ & s' & p' & Hs' & Hp' & Hne & _). by simplify_eq.
      * intros st. rewrite Hsi. simpl. rewrite Hpi. simpl.
        rewrite decide_False by done. by rewrite app_nil_r.
  - split.
    + eapply StronglySorted_sublist; [done | apply py_range_StronglySorted].
    + intros c. rewrite Hin. split.
      * intros (j & Hj & <- & Hc). apply elem_of_py_range in Hj. split; [lia | done].
      * intros (Hj & Hc). exists (ch_index c).
        split; [apply elem_of_py_range; lia | done].
Qed.

(** What [local_aux_changes] returns, exactly. *)
Lemma local_aux_changes_select P S max_changes :
  ∃ res, local_aux_changes P S primary_fn aux_fn max_changes = Ok res ∧
    (∀ r, r ∈ res ↔
       P ≠ [] ∧ 0 ≤ cm_position r ≤ len S - len P ∧
       pairwise S P (cm_position r) (λ s p, primary_fn s = primary_fn p) ∧
       is_changes S P aux_fn (cm_position r) (cm_changed r) ∧
       0 < len (cm_changed r) ≤ effective_max_changes P max_changes) ∧
    StronglySorted Z.lt (cm_position <$> res).
Proof.
  unfold local_aux_changes. cbv zeta.
  destruct (decide (len P = 0)) as [HL | HL].
  { exists []. split; [done |]. split; [| constructor].
    intros r. split; [by inversion 1 |].
    intros (HP & _). by apply len_nil_inv in HL. }
  assert (HP : P ≠ []) by (by intros ->).
  pose proof (len_nonneg P) as HL0.
  fold (effective_max_changes P max_changes).
  match goal with
  | |- ∃ res, for_each ?xs ?body [] = Ok res ∧ _ =>
      destruct (for_each_select
        (λ i r, cm_position r = i ∧
           pairwise S P i (λ s p, primary_fn s = primary_fn p) ∧
           is_changes S P aux_fn i (cm_changed r) ∧
           0 < len (cm_changed r) ≤ effective_max_changes P max_changes)
        cm_position xs body)
        as (res & Hrun & Hin & Hsub); [| | exists res; split; [exact Hrun |]]
  end.
  - by intros x r [-> _].
  - intros i Hi. apply elem_of_py_range in Hi.
    destruct (py_all_window_eq S P i primary_fn) as (b & Hb & Hprim); [lia.. |].
    destruct (changed_loop_spec S P i aux_fn) as (changed & Hch & Hspec); [lia.. |].
    assert (Hnone : ∀ r : change_match A, r ∈ @nil (change_match A) ↔ False)
      by (intros r; split; [by inversion 1 | done]).
    destruct b; simpl.
    2:{ exists []. split; [simpl; lia |]. split.
        - intros r. rewrite Hnone. split; [done |].
          intros (_ & Hp & _). by apply Hprim in Hp.
        - intros st. rewrite Hb. simpl. by rewrite app_nil_r. }
    destruct (decide (0 < len changed ≤ effective_max_changes P max_changes))
      as [Hlen | Hlen].
    + exists [ChangeMatch i changed]. split; [done |]. split.
      * intros r. rewrite list_elem_of_singleton. split.
        -- intros ->. simpl. split_and!; [done | by apply Hprim | done | lia | lia].
        -- intros (Hr & _ & Hc & _). destruct r as [pos ch]. simpl in *.
           subst pos. f_equal. by eapply is_changes_unique.
      * intros st. rewrite Hb. simpl. rewrite Hch. simpl.
        by rewrite decide_True by done.
    + exists []. split; [simpl; lia |]. split.
      * intros r. rewrite Hnone. split; [done |].
        intros (Hr & _ & Hc & Hl).
        by rewrite (is_changes_unique _ _ _ _ _ _ Hc Hspec) in Hl.
      * intros st. rewrite Hb. simpl. rewrite Hch. simpl.
        rewrite decide_False by done. by rewrite app_nil_r.
  - split.
    + intros r. rewrite Hin. split.
      * intros (i & Hi & Hr & Hspec). apply elem_of_py_range in Hi.
        subst i. split; [done |]. split; [lia | done].
      * intros (_ & Hr & Hspec). exists (cm_position r).
        split; [apply elem_of_py_range; lia | done].
    + eapply StronglySorted_sublist; [done | apply py_range_StronglySorted].
Qed.

(** What [local_value_changes] returns, exactly. *)
Lemma local_value_changes_select P S max_changes (require_same_aux : bool) :
  ∃ res, local_value_changes P S primary_fn aux_fn max_changes
           require_same_aux = Ok res ∧
    (∀ r, r ∈ res ↔
       P ≠ [] ∧ 0 ≤ cm_position r ≤ len S - len P ∧
       (require_same_aux = true →
        pairwise S P (cm_position r) (λ s p, aux_fn s = aux_fn p)) ∧
       is_changes S P primary_fn (cm_position r) (cm_changed r) ∧
       0 < len (cm_changed r) ≤ effective_max_changes P max_changes) ∧
    StronglySorted Z.lt (cm_position <$> res).
Proof.
  unfold local_value_changes. cbv zeta.
  destruct (decide (len P = 0)) as [HL | HL].
  { exists []. split; [done |]. split; [| constructor].
    intros r. split; [by inversion 1 |].
    intros (HP & _). by apply len_nil_inv in HL. }
  assert (HP : P ≠ []) by (by intros ->).
  pose proof (len_nonneg P) as HL0.
  fold (effective_max_changes P max_changes).
  match goal with
  | |- ∃ res, for_each ?xs ?body [] = Ok res ∧ _ =>
      destruct (for_each_select
        (λ i r, cm_position r = i ∧
           (require_same_aux = true →
            pairwise S P i (λ s p, aux_fn s = aux_fn p)) ∧
           is_changes S P primary_fn i (cm_changed r) ∧
           0 < len (cm_changed r) ≤ effective_max_changes P max_changes)
        cm_position xs body)
        as (res & Hrun & Hin & Hsub); [| | exists res; split; [exact Hrun |]]
  end.
  - by intros x r [-> _].
  - intros i Hi. apply elem_of_py_range in Hi.
    destruct (optional_aux_check S P i aux_fn require_same_aux)
      as (b & Hb & Haux); [lia.. |].
    destruct (changed_loop_spec S P i primary_fn) as (changed & Hch & Hspec);
      [lia.. |].
    assert (Hnone : ∀ r : change_match V, r ∈ @nil (change_match V) ↔ False)
      by (intros r; split; [by inversion 1 | done]).
    destruct b; simpl.
    2:{ exists []. split; [simpl; lia |]. split.
        - intros r. rewrite Hnone. split; [done |].
          intros (_ & Ha & _). by apply Haux in Ha.
        - intros st. rewrite Hb. simpl. by rewrite app_nil_r. }
    destruct (decide (0 < len changed ≤ effective_max_changes P max_changes))
      as [Hlen | Hlen].
    + exists [ChangeMatch i changed]. split; [done |]. split.
      * intros r. rewrite list_elem_of_singleton. split.
        -- intros ->. simpl. split_and!; [done | by apply Haux | done | lia | lia].
        -- intros (Hr & _ & Hc & _). destruct r as [pos ch]. simpl in *.
           subst pos. f_equal. by eapply is_changes_unique.
      * intros st. rewrite Hb. simpl. rewrite Hch. simpl.
        by rewrite decide_True by done.
    + exists []. split; [simpl; lia |]. split.
      * intros r. rewrite Hnone. split; [done |].
        intros (Hr & _ & Hc & Hl).
        by rewrite (is_changes_unique _ _ _ _ _ _ Hc Hspec) in Hl.
      * intros st. rewrite Hb. simpl. rewrite Hch. simpl.
        rewrite decide_False by done. by rewrite app_nil_r.
  - split.
    + intros r. rewrite Hin. split.
      * intros (i & Hi & Hr & Hspec). apply elem_of_py_range in Hi.
        subst i. split; [done |]. split; [lia | done].
      * intros (_ & Hr & Hspec). exists (cm_position r).
        split; [apply elem_of_py_range; lia | done].
    + eapply StronglySorted_sublist; [done | apply py_range_StronglySorted].
Qed.

(** X8. [local_aux_changes] reports, in strictly ascending order of the
    position and once each, exactly the windows of [len P] items inside the
    sequence that have the primary values of the pattern at every offset and
    differ from it in the aux value at one offset at least and at
    [max_changes] offsets at most (by default [max 1 (len P // 4)]); the
    record lists, by increasing offset, exactly the offsets where the aux
    value differs, each with the aux value found in the sequence. *)
Theorem local_aux_changes_exact P S max_changes :
  ∃ res, local_aux_changes P S primary_fn aux_fn max_changes = Ok res ∧
    StronglySorted Z.lt (cm_position <$> res) ∧
    ∀ r, r ∈ res ↔
      P ≠ [] ∧ 0 ≤ cm_position r ≤ len S - len P ∧
      pairwise S P (cm_position r) (λ s p, primary_fn s = primary_fn p) ∧
      is_changes S P aux_fn (cm_position r) (cm_changed r) ∧
      0 < len (cm_changed r) ≤ effective_max_changes P max_changes.
Proof.
  destruct (local_aux_changes_select P S max_changes)
    as (res & Hrun & Hin & Hsorted).
  by exists res.
Qed.

(** X9. [local_value_changes] reports, in strictly ascending order of the
    position and once each, exactly the windows of [len P] items inside the
    sequence that have the aux values of the pattern at every offset (when
    [require_same_aux] is set) and differ from it in the primary value at one
    offset at least and at [max_changes] offsets at most; the record lists,
    by increasing offset, exactly the offsets where the primary value
    differs, each with the primary value found in the sequence. *)
Theorem local_value_changes_exact P S max_changes (require_same_aux : bool) :
  ∃ res, local_value_changes P S primary_fn aux_fn max_changes
           require_same_aux = Ok res ∧
    StronglySorted Z.lt (cm_position <$> res) ∧
    ∀ r, r ∈ res ↔
      P ≠ [] ∧ 0 ≤ cm_position r ≤ len S - len P ∧
      (require_same_aux = true →
       pairwise S P (cm_position r) (λ s p, aux_fn s = aux_fn p)) ∧
      is_changes S P primary_fn (cm_position r) (cm_changed r) ∧
      0 < len (cm_changed r) ≤ effective_max_changes P max_changes.
Proof.
  destruct (local_value_changes_select P S max_changes require_same_aux)
    as (res & Hrun & Hin & Hsorted).
  by exists res.
Qed.
End LocalChanges.

(** ** Exact occurrences and the fragments *)

Section ExactOccurrences.
Context {T : Type} `{EqDecision T}.
Implicit Types (P S : list T) (i j : Z).

(** The windows that the scan of [fragmentation] skips are those inside the
    span of a start index of [repetition]. *)
Lemma inside_exact_span_false P S (reps : list Z) (start end_ : Z) :
  repetition P S = Ok reps →
  inside_exact_span (exact_spans P S) start end_ = false →
  ∀ s, s ∈ reps → ¬ (s ≤ start ∧ end_ ≤ s + len P - 1).
Proof.
  intros Hreps Hfalse s Hs [H1 H2].
  destruct (repetition_select P S) as (reps' & Hreps' & Hrin & _).
  rewrite Hreps in Hreps'. injection Hreps' as <-.
  apply Hrin in Hs as (_ & Hs & Hw).
  assert (inside_exact_span (exact_spans P S) start end_ = true) as Htrue;
    [| congruence].
  unfold inside_exact_span. apply existsb_exists.
  exists (s, s + len P - 1). split.
  - apply list_elem_of_In. unfold exact_spans.
    apply (list_elem_of_fmap_2 (λ s, (s, s + len P - 1))).
    apply list_elem_of_filter. split; [done |]. apply elem_of_py_range. lia.
  - apply andb_true_iff. split; by apply bool_decide_eq_true.
Qed.

(** X11. No window that [fragmentation] reports lies inside an exact
    occurrence of the pattern: for every record, and every start index [s]
    that [repetition] reports, the window of the record is not contained in
    [[s, s + len P - 1]]. *)
Theorem fragmentation_outside_exact_occurrences P S :
  ∃ reps out, repetition P S = Ok reps ∧ fragmentation P S None = Ok out ∧
    Forall (λ r, ∀ s, s ∈ reps →
      ¬ (s ≤ fr_position r ∧ fr_end (len P) r ≤ s + len P - 1)) out.
Proof.
  destruct (repetition_select P S) as (reps & Hreps & _).
  destruct (fragmentation_windows P S) as (out & Hrun & Hall).
  exists reps, out. split; [done |]. split; [done |].
  eapply Forall_impl; [done |]. simpl. intros r (fl & Hfl & _ & Hc) s Hs.
  pose proof Hc as (_ & Hout & _).
  apply frag_candidate_removed in Hc as (_ & _ & Hlen & _); [| lia].
  unfold fr_end. replace (len P - len (fr_removed_indices r)) with fl by lia.
  by eapply inside_exact_span_false.
Qed.
End ExactOccurrences.

(** ** Sequences too short, and bounds that leave no room *)

(** Positions below a negative bound: no record. *)
Lemma no_position_below {Y : Type} (key : Y → Z) (b : Z) (res : list Y) :
  b < 0 → Forall (λ r, 0 ≤ key r ≤ b) res → res = [].
Proof.
  intros Hb Hres. destruct res as [| r res]; [done |].
  apply Forall_cons in Hres as [Hr _]. lia.
Qed.

Section NoRoom.
Context {T V A : Type} `{EqDecision T} `{EqDecision V} `{EqDecision A}.
Context (value_fn : T → Z) (primary_fn : T → V) (aux_fn : T → A).
Implicit Types (P S : list T) (max_changes max_extra : option Z).

(** X12. On a sequence shorter than the pattern the six windowed detectors
    report nothing (and do not raise). *)
Theorem shorter_sequence_no_window P S max_changes (require_same_aux : bool) :
  len S < len P →
  repetition P S = Ok [] ∧
  transposition P S value_fn aux_fn require_same_aux = Ok [] ∧
  retrograde P S primary_fn aux_fn require_same_aux = Ok [] ∧
  inversion P S value_fn aux_fn require_same_aux = Ok [] ∧
  local_aux_changes P S primary_fn aux_fn max_changes = Ok [] ∧
  local_value_changes P S primary_fn aux_fn max_changes require_same_aux
    = Ok [].
Proof.
  intros Hshort.
  assert (Hb : len S - len P < 0) by lia.
  split_and!.
  - destruct (repetition_positions P S) as (res & Hrun & Hres).
    by rewrite (no_position_below id _ res Hb Hres) in Hrun.
  - destruct (transposition_positions value_fn aux_fn P S require_same_aux)
      as (res & Hrun & Hres).
    by rewrite (no_position_below tr_position _ res Hb Hres) in Hrun.
  - destruct (retrograde_positions primary_fn aux_fn P S require_same_aux)
      as (res & Hrun & Hres).
    by rewrite (no_position_below id _ res Hb Hres) in Hrun.
  - destruct (inversion_positions value_fn aux_fn P S require_same_aux)
      as (res & Hrun & Hres).
    by rewrite (no_position_below id _ res Hb Hres) in Hrun.
  - destruct (local_aux_changes_positions primary_fn aux_fn P S max_changes)
      as (res & Hrun & Hres).
    by rewrite (no_position_below cm_position _ res Hb Hres) in Hrun.
  - destruct (local_value_changes_positions primary_fn aux_fn P S max_changes
                require_same_aux) as (res & Hrun & Hres).
    by rewrite (no_position_below cm_position _ res Hb Hres) in Hrun.
Qed.

(** X13. [extension] reports nothing when the sequence is not longer than
    the pattern, and nothing when [max_extra] is given and is not
    positive. *)
Theorem extension_no_room P S max_extra :
  len S ≤ len P ∨ (∃ m, max_extra = Some m ∧ m ≤ 0) →
  extension P S max_extra = Ok [].
Proof.
  intros Hno. destruct (extension_select P S max_extra) as (res & Hrun & Hin & _).
  rewrite Hrun. f_equal. apply no_element_nil. intros r Hr.
  apply Hin in Hr as (fl & Hq & _).
  pose proof (ext_qualifies_range _ _ _ _ _ _ Hq) as (_ & Hfl & Hstart).
  destruct Hno as [Hshort | (m & -> & Hm)]; [lia |].
  destruct Hq as (Hlens & _). unfold extension_lengths in Hlens.
  apply elem_of_py_range in Hlens. lia.
Qed.

(** X14. The two local-change detectors report nothing when [max_changes]
    is given and is not positive. *)
Theorem local_changes_no_room P S (m : Z) (require_same_aux : bool) :
  m ≤ 0 →
  local_aux_changes P S primary_fn aux_fn (Some m) = Ok [] ∧
  local_value_changes P S primary_fn aux_fn (Some m) require_same_aux = Ok [].
Proof.
  intros Hm. split.
  - destruct (local_aux_changes_select primary_fn aux_fn P S (Some m))
      as (res & Hrun & Hin & _).
    rewrite Hrun. f_equal. apply no_element_nil. intros r Hr.
    apply Hin in Hr as (_ & _ & _ & _ & Hlen). simpl in Hlen. lia.
  - destruct (local_value_changes_select primary_fn aux_fn P S (Some m)
                require_same_aux) as (res & Hrun & Hin & _).
    rewrite Hrun. f_equal. apply no_element_nil. intros r Hr.
    apply Hin in Hr as (_ & _ & _ & _ & Hlen). simpl in Hlen. lia.
Qed.
End NoRoom.

Section FragmentationMinLen.
Context {T : Type} `{EqDecision T}.
Implicit Types (P S : list T).

(** X15. For every [min_len] that is not negative, the window of every
    record of [fragmentation] has at least [min_len] items and fewer than the
    pattern, lies inside the sequence, and is the pattern without the
    removed indices. *)
Theorem fragmentation_respects_min_len P S (m : Z) :
  0 ≤ m →
  ∃ out, fragmentation P S (Some m) = Ok out ∧
    Forall (λ r,
      let w := len P - len (fr_removed_indices r) in
      m ≤ w < len P ∧ 0 ≤ fr_position r ≤ len S - w ∧
      delete_indices (fr_removed_indices r) P
      = py_slice S (fr_position r) (fr_position r + w)) out.
Proof.
  intros Hm. destruct (fragmentation_candidates P S (Some m) Hm)
    as (out & Hrun & Hall).
  exists out. split; [done |]. eapply Forall_impl; [done |]. simpl.
  intros r (fl & Hfl & Hc). pose proof Hc as (Hstart & _).
  apply frag_candidate_removed in Hc as (_ & _ & Hlen & Hdel); [| lia].
  replace (len P - len (fr_removed_indices r)) with fl by lia. done.
Qed.

(** X16. [fragmentation] reports nothing when [min_len] is given and is not
    less than the length of the pattern. *)
Theorem fragmentation_no_room P S (m : Z) :
  len P ≤ m → fragmentation P S (Some m) = Ok [].
Proof.
  intros Hm. unfold fragmentation. cbv zeta. case_decide; [done |].
  unfold fragmentation_scan. cbv zeta. rewrite py_range_empty by lia.
  simpl. by rewrite map_to_list_empty.
Qed.
End FragmentationMinLen.

(** ** Items that all have the same aux value *)

Section SameAux.
Context {T V A : Type} `{EqDecision T} `{EqDecision V} `{EqDecision A}.
Context (value_fn : T → Z) (primary_fn : T → V) (aux_fn : T → A).
Implicit Types (P S : list T) (i j : Z) (max_changes : option Z).

Lemma pairwise_members S P i (Q1 Q2 : T → T → Prop) :
  (∀ s p, s ∈ S → p ∈ P → Q1 s p → Q2 s p) →
  pairwise S P i Q1 → pairwise S P i Q2.
Proof.
  intros HQ H1 j Hj. destruct (H1 j Hj) as (s & p & Hs & Hp & Hsp).
  exists s, p. split; [done |]. split; [done |].
  apply HQ; [by eapply list_elem_of_lookup_2 | by eapply list_elem_of_lookup_2 | done].
Qed.

Lemma pairwise_inbounds S P i :
  0 ≤ i → i + len P ≤ len S → pairwise S P i (λ _ _, True).
Proof.
  intros Hi Hip j Hj.
  destruct (window_pair S P i j) as (s & p & Hs & Hp & _); [lia.. |].
  by exists s, p.
Qed.

(** X17. When every item of the sequence has the aux value of every item of
    the pattern (as with the default aux extractor on items that are not
    tuples), [require_same_aux] makes no difference to [transposition],
    [retrograde], [inversion] and [local_value_changes], and
    [local_aux_changes] reports nothing. *)
Theorem same_aux_everywhere P S max_changes :
  (∀ s p, s ∈ S → p ∈ P → aux_fn s = aux_fn p) →
  transposition P S value_fn aux_fn true
  = transposition P S value_fn aux_fn false ∧
  retrograde P S primary_fn aux_fn true
  = retrograde P S primary_fn aux_fn false ∧
  inversion P S value_fn aux_fn true = inversion P S value_fn aux_fn false ∧
  local_value_changes P S primary_fn aux_fn max_changes true
  = local_value_changes P S primary_fn aux_fn max_changes false ∧
  local_aux_changes P S primary_fn aux_fn max_changes = Ok [].
Proof.
  intros Hsame.
  assert (Haux : ∀ i (b : bool), 0 ≤ i ≤ len S - len P →
            b = true → pairwise S P i (λ s p, aux_fn s = aux_fn p)).
  { intros i b Hi _. eapply pairwise_members; [| apply pairwise_inbounds; lia].
    intros s p Hs Hp _. by apply Hsame. }
  split_and!.
  - destruct (transposition_select value_fn aux_fn true P S)
      as (res1 & Hrun1 & Hin1 & Hs1).
    destruct (transposition_select value_fn aux_fn false P S)
      as (res2 & Hrun2 & Hin2 & Hs2).
    rewrite Hrun1, Hrun2. f_equal.
    apply (sorted_key_unique tr_position); [done | done |].
    intros r. rewrite Hin1, Hin2. unfold transposed_at. split.
    + intros (? & ? & ? & ? & _). split_and!; try done; try lia.
    + intros (? & ? & ? & ? & _). split_and!; try done; try lia.
      intros _. apply (Haux _ true); [lia | done].
  - destruct (retrograde_select primary_fn aux_fn true P S)
      as (res1 & Hrun1 & Hin1 & Hs1).
    destruct (retrograde_select primary_fn aux_fn false P S)
      as (res2 & Hrun2 & Hin2 & Hs2).
    rewrite Hrun1, Hrun2. f_equal.
    apply (sorted_key_unique id); [by rewrite list_fmap_id.. |].
    intros i. rewrite Hin1, Hin2. do 2 apply and_iff_compat_l.
    split; intros Hat j Hj; destruct (Hat j Hj) as (s & p & Hs & Hp & Hprim & _);
      exists s, p; (split_and!; [done | done | done |]); [done |].
    intros _. apply Hsame; by eapply list_elem_of_lookup_2.
  - destruct P as [| p0 P']; [done |].
    destruct (inversion_select value_fn aux_fn true p0 P' S)
      as (res1 & Hrun1 & Hin1 & Hs1).
    destruct (inversion_select value_fn aux_fn false p0 P' S)
      as (res2 & Hrun2 & Hin2 & Hs2).
    rewrite Hrun1, Hrun2. f_equal.
    apply (sorted_key_unique id); [by rewrite list_fmap_id.. |].
    intros i. rewrite Hin1, Hin2. unfold inverted_at. split.
    + intros (? & ? & _ & ?). split_and!; try done; try lia.
    + intros (? & ? & _ & ?). split_and!; try done; try lia.
      intros _. apply (Haux _ true); [lia | done].
  - destruct (local_value_changes_select primary_fn aux_fn P S max_changes true)
      as (res1 & Hrun1 & Hin1 & Hs1).
    destruct (local_value_changes_select primary_fn aux_fn P S max_changes false)
      as (res2 & Hrun2 & Hin2 & Hs2).
    rewrite Hrun1, Hrun2. f_equal.
    apply (sorted_key_unique cm_position); [done | done |].
    intros r. rewrite Hin1, Hin2. split.
    + intros (? & ? & _ & ? & ?). split_and!; try done; try lia.
    + intros (? & ? & _ & ? & ?). split_and!; try done; try lia.
      intros _. apply (Haux _ true); [lia | done].
  - destruct (local_aux_changes_select primary_fn aux_fn P S max_changes)
      as (res & Hrun & Hin & _).
    rewrite Hrun. f_equal. apply no_element_nil. intros r Hr.
    apply Hin in Hr as (_ & _ & _ & [_ Hc] & Hlen & _).
    destruct (cm_changed r) as [| c changed];
      [unfold len in Hlen; simpl in Hlen; lia |].
    destruct (proj1 (Hc c)) as (_ & s & p & Hs & Hp & Hne & _); [by left |].
    apply Hne, Hsame; by eapply list_elem_of_lookup_2.
Qed.
End SameAux.

(** ** The alignment helper decides the subsequence relation *)

Section RemovedPositionsComplete.
Context {T : Type} `{EqDecision T}.
Implicit Types (P F : list T) (i j : Z) (removed : list Z).

(** One step of the greedy alignment, on the remaining items. *)
Lemma sublist_step (x y : T) (f p : list T) :
  (x :: f) `sublist_of` (y :: p) ↔
  if decide (y = x) then f `sublist_of` p else (x :: f) `sublist_of` p.
Proof.
  rewrite sublist_cons_r. destruct (decide (y = x)) as [-> | Hne]; split.
  - intros [Hs | (l' & [= ->] & Hs)]; [| done].
    etrans; [| exact Hs]. by apply sublist_cons.
  - intros Hs. right. by exists f.
  - intros [Hs | (l' & [= -> ->] & _)]; done.
  - intros Hs. by left.
Qed.

(** The first loop keeps the question open on the remaining items. *)
Lemma removed_loop_subsequence P F :
  ∃ i j removed,
    while (length P)
      (λ '(i, j, _), bool_decide (i < len P) && bool_decide (j < len F))
      (λ '(i, j, removed),
         p ← py_index P i;
         f ← py_index F j;
         if decide (p = f) then Ok (i + 1, j + 1, removed)
         else Ok (i + 1, j, removed ++ [i]))
      (0, 0, []) = Ok (i, j, removed) ∧
    0 ≤ i ≤ len P ∧ 0 ≤ j ≤ len F ∧ (len P ≤ i ∨ len F ≤ j) ∧
    (F `sublist_of` P ↔
     drop (Z.to_nat j) F `sublist_of` drop (Z.to_nat i) P).
Proof.
  destruct (while_inv
    (λ '(i, j, removed),
       0 ≤ i ≤ len P ∧ 0 ≤ j ≤ len F ∧
       (F `sublist_of` P ↔
        drop (Z.to_nat j) F `sublist_of` drop (Z.to_nat i) P))
    (λ '(i, _, _), Z.to_nat (len P - i))
    (λ '(i, j, _), bool_decide (i < len P) && bool_decide (j < len F))
    (λ '(i, j, removed),
       p ← py_index P i;
       f ← py_index F j;
       if decide (p = f) then Ok (i + 1, j + 1, removed)
       else Ok (i + 1, j, removed ++ [i]))) with (fuel := length P) (st := (0, 0, @nil Z))
    as ([[i j] removed] & Hw & (Hi & Hj & Hiff) & Hc).
  - intros [[i j] removed] (Hi & Hj & Hiff) Hc.
    apply andb_true_iff in Hc as [Hci Hcj].
    apply bool_decide_eq_true in Hci, Hcj.
    destruct (py_index_inbounds P i) as (p & Hp & Hpi); [lia |].
    destruct (py_index_inbounds F j) as (f & Hf & Hfi); [lia |].
    rewrite Hpi. simpl. rewrite Hfi. simpl.
    rewrite (drop_S _ _ _ Hp), (drop_S _ _ _ Hf), sublist_step in Hiff.
    replace (S (Z.to_nat i)) with (Z.to_nat (i + 1)) in Hiff by lia.
    destruct (decide (p = f)) as [Heq | Hne].
    + replace (S (Z.to_nat j)) with (Z.to_nat (j + 1)) in Hiff by lia.
      eexists. split; [done |]. split_and!; [lia | lia | lia | lia | done | lia].
    + rewrite <-(drop_S _ _ _ Hf) in Hiff.
      eexists. split; [done |]. split_and!; [lia | lia | lia | lia | done | lia].
  - pose proof (len_nonneg P). pose proof (len_nonneg F). split_and!; try lia.
    done.
  - unfold len. lia.
  - exists i, j, removed. split; [done |]. split_and!; try lia; [| done].
    apply andb_false_iff in Hc as [Hc | Hc]; apply bool_decide_eq_false in Hc; lia.
Qed.

Lemma removed_positions_accepts P F :
  ∃ o, _removed_positions_for_fragment P F = Ok o ∧
    (is_Some o ↔ F `sublist_of` P) ∧
    ∀ removed, o = Some removed →
      StronglySorted Z.lt removed ∧
      Forall (λ k, 0 ≤ k < len P) removed ∧
      len removed = len P - len F ∧
      delete_indices removed P = F.
Proof.
  destruct (removed_positions_spec P F) as (o & Hrun & Hspec).
  exists o. split; [done |]. split; [| done].
  unfold _removed_positions_for_fragment in Hrun. cbv zeta in Hrun.
  destruct (removed_loop_subsequence P F)
    as (i & j & removed & Hw1 & Hi & Hj & Hexit & Hiff).
  rewrite Hw1 in Hrun. simpl in Hrun.
  destruct (while (length P) (λ '(i, _), bool_decide (i < len P))
              (λ '(i, removed), Ok (i + 1, removed ++ [i])) (i, removed))
    as [[i' removed'] | e]; simpl in Hrun; [| done].
  injection Hrun as <-. rewrite Hiff.
  destruct (decide (j = len F)) as [-> | Hne].
  - unfold len. rewrite Nat2Z.id, drop_all. split; [intros _ | by eexists].
    apply sublist_nil_l.
  - split; [by intros [? ?] |]. intros Hsub.
    assert (i = len P) as -> by lia.
    replace (Z.to_nat (len P)) with (length P) in Hsub by (unfold len; lia).
    rewrite drop_all in Hsub.
    apply sublist_nil_r, drop_nil_inv in Hsub. unfold len in *. lia.
Qed.

(** X18. [_removed_positions_for_fragment] returns [None] exactly when the
    fragment is not a subsequence of the pattern, and never raises.  When it
    returns a list, this is the strictly increasing list of the indices of
    the pattern that the alignment skipped: as many as the pattern is longer
    than the fragment, and deleting them from the pattern leaves the
    fragment. *)
Theorem removed_positions_decides_subsequence P F :
  ∃ o, _removed_positions_for_fragment P F = Ok o ∧
    (is_Some o ↔ F `sublist_of` P) ∧
    ∀ removed, o = Some removed →
      StronglySorted Z.lt removed ∧
      Forall (λ k, 0 ≤ k < len P) removed ∧
      len removed = len P - len F ∧
      delete_indices removed P = F.
Proof. apply removed_positions_accepts. Qed.
End RemovedPositionsComplete.

(** ** The additions of an extension *)

Lemma sorted_key_head_min {Y : Type} (key : Y → Z) (l : list Y) (y : Y) :
  StronglySorted Z.lt (key <$> l) → head l = Some y →
  Forall (λ z, key y ≤ key z) l.
Proof.
  destruct l as [| y' l]; [done |]. intros Hs [= ->].
  rewrite fmap_cons in Hs. apply StronglySorted_cons in Hs as [Hy _].
  constructor; [lia |]. apply Forall_forall. intros z Hz.
  eapply Forall_forall in Hy; [| by apply list_elem_of_fmap_2]. lia.
Qed.

Lemma sorted_key_last_max {Y : Type} (key : Y → Z) (l : list Y) (y : Y) :
  StronglySorted Z.lt (key <$> l) → last l = Some y →
  Forall (λ z, key z ≤ key y) l.
Proof.
  intros Hs Hlast. apply last_Some in Hlast as (l' & ->).
  rewrite fmap_app in Hs. apply StronglySorted_app in Hs as (Hlt & _ & _).
  apply Forall_app. split; [| by repeat constructor].
  apply Forall_forall. intros z Hz.
  specialize (Hlt (key z) (key y)). simpl in Hlt.
  assert (key z < key y); [| lia].
  apply Hlt; [by apply list_elem_of_fmap_2 | by left].
Qed.

Lemma delete_from_sublist {X : Type} (k : Z) (idx : list Z) (l : list X) :
  delete_from k idx l `sublist_of` l.
Proof.
  revert k. induction l as [| x l IH]; intros k; simpl; [constructor |].
  destruct (decide (k ∈ idx)); [by apply sublist_cons | by apply sublist_skip].
Qed.

Lemma sublist_snoc_r {X : Type} (l k : list X) (x : X) :
  l `sublist_of` k ++ [x] →
  l `sublist_of` k ∨ ∃ l', l = l' ++ [x] ∧ l' `sublist_of` k.
Proof.
  intros Hs. apply sublist_app_r in Hs as (l1 & l2 & -> & H1 & H2).
  apply sublist_cons_r in H2 as [H2 | (l' & -> & H2)];
    apply sublist_nil_r in H2 as ->.
  - left. by rewrite app_nil_r.
  - right. by exists l1.
Qed.

(** A prefix that ends with [x]. *)
Lemma take_snoc_inv {X : Type} (l l' : list X) (x : X) (n : nat) :
  (n ≤ length l)%nat → take n l = l' ++ [x] →
  (0 < n)%nat ∧ l' = take (n - 1) l ∧ l !! (n - 1)%nat = Some x.
Proof.
  intros Hn Heq. destruct n as [| n].
  { by destruct l'. }
  destruct (lookup_lt_is_Some_2 l n) as [y Hy]; [lia |].
  rewrite (take_S_r _ _ y) in Heq by done.
  apply app_inj_tail in Heq as [<- <-].
  split; [lia |]. by rewrite Nat.sub_1_r.
Qed.

Section ExtensionAdditions.
Context {T : Type} `{EqDecision T}.
Implicit Types (P S F : list T) (start frag_len : Z).
Implicit Types (added : list (addition T)) (max_extra : option Z).

(** The greedy alignment takes the earliest occurrence of each item of the
    pattern: when it succeeds, the pattern does not fit into the fragment
    without its last item. *)
Lemma added_positions_greedy P F added :
  _added_positions_for_fragment P F = Ok (Some added) →
  ¬ P `sublist_of` take (length F - 1) F.
Proof.
  unfold _added_positions_for_fragment. cbv zeta. intros Hrun.
  destruct (while_inv
    (λ '(i, j, added),
       0 ≤ i ≤ len P ∧ 0 ≤ j ≤ len F ∧ len added ≤ j ∧
       (∀ n : nat, (n ≤ length P)%nat →
          take n P `sublist_of` take (Z.to_nat j) F → Z.of_nat n ≤ i) ∧
       (0 < j →
        (∃ a, last added = Some a ∧ ad_index a = j - 1) ∨
        (0 < i ∧ ¬ take (Z.to_nat i) P `sublist_of` take (Z.to_nat (j - 1)) F)))
    (λ '(_, j, _), Z.to_nat (len F - j))
    (λ '(i, j, _), bool_decide (j < len F) && bool_decide (i < len P))
    (λ '(i, j, added),
       f ← py_index F j;
       p ← py_index P i;
       if decide (f = p) then Ok (i + 1, j + 1, added)
       else
         v ← py_index F j;
         Ok (i, j + 1, added ++ [Addition j v])))
    with (fuel := length F) (st := (0, 0, @nil (addition T)))
    as ([[i j] added1] & Hw1 & (Hi & Hj & Hlen & _ & Hlast) & _).
  - intros [[i j] added0] (Hi & Hj & Hlen & Hmax & Hlast) Hc.
    apply andb_true_iff in Hc as [Hcj Hci].
    apply bool_decide_eq_true in Hci, Hcj.
    destruct (py_index_inbounds F j) as (f & Hf & Hfi); [lia |].
    destruct (py_index_inbounds P i) as (p & Hp & Hpi); [lia |].
    rewrite Hfi. simpl. rewrite Hpi. simpl.
    assert (Htake : take (Z.to_nat (j + 1)) F = take (Z.to_nat j) F ++ [f]).
    { replace (Z.to_nat (j + 1)) with (S (Z.to_nat j)) by lia.
      by apply take_S_r. }
    destruct (decide (f = p)) as [-> | Hne].
    + eexists. split; [done |]. split_and!; try lia.
      * intros n Hn Hsub. rewrite Htake in Hsub.
        apply sublist_snoc_r in Hsub as [Hsub | (l' & Heq & Hsub)].
        -- specialize (Hmax n Hn Hsub). lia.
        -- apply take_snoc_inv in Heq as (Hn0 & -> & _); [| done].
           specialize (Hmax (n - 1)%nat ltac:(lia) Hsub). lia.
      * intros _. right. split; [lia |].
        replace (j + 1 - 1) with j by lia. intros Hsub.
        specialize (Hmax (Z.to_nat (i + 1))). unfold len in Hci.
        specialize (Hmax ltac:(lia) Hsub). lia.
    + eexists. split; [done |]. split_and!; try lia.
      * rewrite len_app. change (len [Addition j f]) with 1. lia.
      * intros n Hn Hsub. rewrite Htake in Hsub.
        apply sublist_snoc_r in Hsub as [Hsub | (l' & Heq & Hsub)];
          [by apply Hmax |].
        apply take_snoc_inv in Heq as (Hn0 & -> & Hx); [| done].
        specialize (Hmax (n - 1)%nat ltac:(lia) Hsub).
        destruct (decide (Z.of_nat (n - 1) = i)) as [Heq | Hneq]; [| lia].
        exfalso. apply Hne. rewrite <-Heq, Nat2Z.id in Hp. congruence.
      * intros _. left. exists (Addition j f). split; [apply last_snoc |].
        simpl. lia.
  - pose proof (len_nonneg P). pose proof (len_nonneg F).
    split_and!; try lia; [done |].
    intros n Hn Hsub. simpl in Hsub. apply sublist_nil_r in Hsub.
    apply (f_equal length) in Hsub. rewrite length_take in Hsub.
    simpl in Hsub. lia.
  - unfold len. lia.
  - rewrite Hw1 in Hrun. simpl in Hrun.
    destruct (while_inv
      (λ '(j, added),
         0 ≤ j ≤ len F ∧ len added ≤ j ∧
         (0 < j →
          (∃ a, last added = Some a ∧ ad_index a = j - 1) ∨
          (0 < i ∧
           ¬ take (Z.to_nat i) P `sublist_of` take (Z.to_nat (j - 1)) F)))
      (λ '(j, _), Z.to_nat (len F - j))
      (λ '(j, _), bool_decide (j < len F))
      (λ '(j, added),
         v ← py_index F j;
         Ok (j + 1, added ++ [Addition j v])))
      with (fuel := length F) (st := (j, added1))
      as ([j' added'] & Hw2 & (Hj' & Hlen' & Hlast') & Hc2).
    + intros [j2 added2] (Hj2 & Hlen2 & _) Hc. apply bool_decide_eq_true in Hc.
      destruct (py_index_inbounds F j2) as (v & Hv & Hvi); [lia |].
      rewrite Hvi. simpl. eexists. split; [done |]. split_and!; try lia.
      * rewrite len_app. change (len [Addition j2 v]) with 1. lia.
      * intros _. left. exists (Addition j2 v). split; [apply last_snoc |].
        simpl. lia.
    + done.
    + unfold len. lia.
    + rewrite Hw2 in Hrun. simpl in Hrun.
      apply bool_decide_eq_false in Hc2.
      assert (j' = len F) as -> by lia.
      destruct (bool_decide (i ≠ len P)) eqn:Hi'; simpl in Hrun; [done |].
      apply bool_decide_eq_false in Hi'. apply dec_stable in Hi'. subst i.
      destruct (bool_decide (len added' = 0)) eqn:Hempty; simpl in Hrun; [done |].
      apply bool_decide_eq_false in Hempty.
      pose proof (len_nonneg added').
      destruct (py_index added' 0) as [first | e]; simpl in Hrun; [| done].
      destruct Hlast' as [(a & Ha & Hidx) | (_ & Hnot)]; [lia | |].
      * apply last_Some in Ha as (l' & ->).
        rewrite py_index_last in Hrun. simpl in Hrun.
        rewrite (bool_decide_eq_true_2 (ad_index a = len F - 1)) in Hrun by done.
        by rewrite orb_true_r in Hrun.
      * replace (Z.to_nat (len P)) with (length P) in Hnot by (unfold len; lia).
        rewrite firstn_all in Hnot.
        by replace (Z.to_nat (len F - 1)) with (length F - 1)%nat in Hnot
          by (unfold len; lia).
Qed.

(** At one start index, one window length qualifies at most. *)
Lemma ext_qualifies_unique P S lens1 lens2 start frag_len1 frag_len2
    added1 added2 :
  ext_qualifies P S lens1 start frag_len1 added1 →
  ext_qualifies P S lens2 start frag_len2 added2 →
  0 ≤ frag_len1 < frag_len2 → False.
Proof.
  intros (_ & H0 & HN1 & Ha1) (_ & _ & HN2 & Ha2) Hlt.
  apply added_positions_greedy in Ha2. apply Ha2.
  destruct (added_positions_spec P (py_slice S start (start + frag_len1)))
    as (o & Ho & Hspec).
  rewrite Ha1 in Ho. injection Ho as <-.
  destruct (Hspec added1 eq_refl) as (_ & _ & _ & Hdel & _).
  rewrite <-Hdel at 1. etrans; [apply delete_from_sublist |].
  rewrite !py_slice_window by lia.
  rewrite length_take, length_drop, take_take.
  assert (len S = Z.of_nat (length S)) as HlenS by done.
  replace (Init.Nat.min (Z.to_nat frag_len2 `min` (length S - Z.to_nat start) - 1)
             (Z.to_nat frag_len2))
    with (Z.to_nat frag_len2 - 1)%nat by lia.
  replace (Z.to_nat frag_len1)
    with (Init.Nat.min (Z.to_nat frag_len1) (Z.to_nat frag_len2 - 1)) by lia.
  rewrite <-take_take. apply sublist_take.
Qed.

(** X19. In every record of [extension] the additions are listed by strictly
    increasing index; there is one at least and [max_extra] at most (by
    default [max 1 (len P // 4)]); every index lies strictly between the
    first and the last index of the window; and the value listed with an
    index is the item of the sequence at that index of the window. *)
Theorem extension_additions_inside P S max_extra :
  ∃ res, extension P S max_extra = Ok res ∧
    Forall (λ r,
      StronglySorted Z.lt (ad_index <$> ex_added r) ∧
      1 ≤ len (ex_added r) ≤
        match max_extra with
        | None => Z.max 1 (len P `div` 4)
        | Some m => m
        end ∧
      Forall (λ a,
        0 < ad_index a < len P + len (ex_added r) - 1 ∧
        S !! Z.to_nat (ex_position r + ad_index a) = Some (ad_value a))
        (ex_added r)) res.
Proof.
  destruct (extension_select P S max_extra) as (res & Hrun & Hin & _).
  exists res. split; [done |]. apply Forall_forall. intros r Hr.
  apply Hin in Hr as (fl & Hq & _).
  pose proof (ext_qualifies_range _ _ _ _ _ _ Hq) as (_ & Hfl & Hstart).
  pose proof (len_nonneg P) as HL0.
  destruct Hq as (Hlens & H0 & HN & Ha).
  unfold extension_lengths in Hlens. apply elem_of_py_range in Hlens.
  destruct (added_positions_spec P
              (py_slice S (ex_position r) (ex_position r + fl)))
    as (o & Ho & Hspec).
  rewrite Ha in Ho. injection Ho as <-.
  destruct (Hspec _ eq_refl)
    as (Hs & Hb & Hlen & _ & first & last_ & Hhead & Hlast & Hne0 & Hne1).
  rewrite len_py_slice_window in Hb, Hlen, Hne1 by lia.
  split; [done |]. split; [lia |].
  pose proof (sorted_key_head_min ad_index _ _ Hs Hhead) as Hmin.
  pose proof (sorted_key_last_max ad_index _ _ Hs Hlast) as Hmax.
  assert (Hfirst : first ∈ ex_added r).
  { destruct (ex_added r); [done |]. injection Hhead as ->. by left. }
  assert (Hlast_in : last_ ∈ ex_added r) by (by apply last_Some_elem_of).
  apply Forall_forall. intros a Hin_a.
  eapply Forall_forall in Hmin; [| done]. eapply Forall_forall in Hmax; [| done].
  pose proof (proj1 (Forall_forall _ _) Hb a Hin_a) as [Ha_b Ha_v].
  pose proof (proj1 (Forall_forall _ _) Hb first Hfirst) as [Hf_b _].
  pose proof (proj1 (Forall_forall _ _) Hb last_ Hlast_in) as [Hl_b _].
  split; [lia |].
  rewrite lookup_py_slice_window in Ha_v by lia. done.
Qed.

(** X20. At every start index that [extension] reports, exactly one window
    length qualifies: the window of the record, of [len P + len added]
    items.  Keeping "the longest valid extension" of a start index never has
    to choose between two. *)
Theorem extension_single_window P S max_extra :
  ∃ res, extension P S max_extra = Ok res ∧
    Forall (λ r,
      ∀ frag_len added,
        ext_qualifies P S (extension_lengths P max_extra) (ex_position r)
          frag_len added ↔
        frag_len = len P + len (ex_added r) ∧ added = ex_added r) res.
Proof.
  destruct (extension_select P S max_extra) as (res & Hrun & Hin & _).
  exists res. split; [done |]. apply Forall_forall. intros r Hr.
  apply Hin in Hr as (fl & Hq & _). intros fl' a'.
  pose proof (ext_qualifies_range _ _ _ _ _ _ Hq) as (_ & Hfl & _).
  pose proof (len_nonneg P) as HL0.
  pose proof (ext_qualifies_added _ _ _ _ _ _ Hq ltac:(lia)) as (Hlen & _).
  split.
  - intros Hq'.
    pose proof (ext_qualifies_range _ _ _ _ _ _ Hq') as (_ & Hfl' & _).
    assert (fl' = fl) as ->.
    { destruct (decide (fl' < fl)) as [Hlt | Hge].
      - destruct (ext_qualifies_unique _ _ _ _ _ _ _ _ _ Hq' Hq). lia.
      - destruct (decide (fl < fl')) as [Hlt | Hge']; [| lia].
        destruct (ext_qualifies_unique _ _ _ _ _ _ _ _ _ Hq Hq'). lia. }
    split; [lia |]. by eapply ext_qualifies_fun.
  - intros [-> ->]. by replace (len P + len (ex_added r)) with fl by lia.
Qed.
End ExtensionAdditions.

(** ** The default extractors *)

Lemma pyval_ind' (Q : pyval → Prop) :
  (∀ z, Q (PInt z)) → (∀ s, Q (PStr s)) → Q PNone →
  (∀ items, Forall Q items → Q (PTuple items)) → ∀ x, Q x.
Proof.
  intros HInt HStr HNone HTuple. fix IH 1.
  intros [z | s | | items]; [apply HInt | apply HStr | apply HNone |].
  apply HTuple. induction items as [| y items IHl]; constructor;
    [apply IH | apply IHl].
Qed.

Lemma pyval_eqb_spec (x y : pyval) : pyval_eqb x y = true ↔ x = y.
Proof.
  revert y. induction x as [a | a | | l1 IH] using pyval_ind';
    intros [b | b | | l2]; simpl; try (split; [done | done]).
  - rewrite bool_decide_eq_true. split; congruence.
  - rewrite bool_decide_eq_true. split; congruence.
  - revert l2. induction IH as [| a l1 Ha _ IHl]; intros [| b l2];
      try (split; [done | done]).
    rewrite andb_true_iff, Ha, IHl. split.
    + intros [-> [= ->]]. done.
    + intros [= -> ->]. done.
Qed.

Global Instance pyval_eq_dec : EqDecision pyval.
Proof.
  intros x y. destruct (pyval_eqb x y) eqn:Heq.
  - left. by apply pyval_eqb_spec.
  - right. intros Hxy. apply pyval_eqb_spec in Hxy. congruence.
Defined.

Section NoAuxChange.
Context {T V A : Type} `{EqDecision T} `{EqDecision V} `{EqDecision A}.
Context (primary_fn : T → V) (aux_fn : T → A).
Implicit Types (P S : list T).

(** No aux value differs: [local_aux_changes] reports nothing. *)
Lemma local_aux_changes_same_aux P S (max_changes : option Z) :
  (∀ s p, s ∈ S → p ∈ P → aux_fn s = aux_fn p) →
  local_aux_changes P S primary_fn aux_fn max_changes = Ok [].
Proof.
  intros Hsame.
  destruct (local_aux_changes_select primary_fn aux_fn P S max_changes)
    as (res & Hrun & Hin & _).
  rewrite Hrun. f_equal. apply no_element_nil. intros r Hr.
  apply Hin in Hr as (_ & _ & _ & [_ Hc] & Hlen & _).
  destruct (cm_changed r) as [| c changed];
    [unfold len in Hlen; simpl in Hlen; lia |].
  destruct (proj1 (Hc c)) as (_ & s & p & Hs & Hp & Hne & _); [by left |].
  apply Hne, Hsame; by eapply list_elem_of_lookup_2.
Qed.
End NoAuxChange.

Section DefaultExtractors.
Implicit Types (P S : list pyval) (x : pyval).

Lemma default_extractors_scalar x :
  not_tuple x → _default_primary x = x ∧ _default_aux x = PNone.
Proof. by destruct x. Qed.

Lemma default_extractors_pair x :
  is_pair x →
  ∃ a b, x = PTuple [a; b] ∧ _default_primary x = a ∧ _default_aux x = b.
Proof.
  destruct x as [| | | [| a [| b [| ? ?]]]]; try done. intros _. by exists a, b.
Qed.

(** X21. With the default extractors, on a pattern and a sequence whose
    items are not tuples, the primary value of an item is the item and its
    aux value is [None].  So [retrograde] compares the items themselves,
    whether [require_same_aux] is set or not: it reports exactly the start
    indices where every item of the window is equal to the item of the
    pattern at the mirrored offset; and [local_aux_changes] reports
    nothing. *)
Theorem default_extractors_on_scalars P S (require_same_aux : bool)
    (max_changes : option Z) :
  Forall not_tuple P → Forall not_tuple S →
  Forall (λ x, _default_primary x = x ∧ _default_aux x = PNone) (P ++ S) ∧
  (∃ res,
     retrograde P S _default_primary _default_aux require_same_aux = Ok res ∧
     StronglySorted Z.lt res ∧
     ∀ i, i ∈ res ↔
       P ≠ [] ∧ 0 ≤ i ≤ len S - len P ∧
       ∀ j, 0 ≤ j < len P →
         ∃ s p, S !! Z.to_nat (i + j) = Some s ∧
                P !! Z.to_nat (len P - 1 - j) = Some p ∧ s = p) ∧
  local_aux_changes P S _default_primary _default_aux max_changes = Ok [].
Proof.
  intros HP HS.
  assert (HPS : Forall not_tuple (P ++ S)) by (by apply Forall_app).
  split; [| split].
  - eapply Forall_impl; [exact HPS |]. apply default_extractors_scalar.
  - destruct (retrograde_select _default_primary _default_aux
                require_same_aux P S) as (res & Hrun & Hin & Hsorted).
    exists res. split; [done |]. split; [done |]. intros i. rewrite Hin.
    apply and_iff_compat_l, and_iff_compat_l. unfold retrograde_at.
    split; intros Hat j Hj.
    + destruct (Hat j Hj) as (s & p & Hs & Hp & Hprim & _).
      exists s, p. split; [done |]. split; [done |].
      eapply Forall_forall in HS; [| by eapply list_elem_of_lookup_2, Hs].
      eapply Forall_forall in HP; [| by eapply list_elem_of_lookup_2, Hp].
      destruct (default_extractors_scalar s HS) as [Hes _].
      destruct (default_extractors_scalar p HP) as [Hep _]. congruence.
    + destruct (Hat j Hj) as (s & p & Hs & Hp & ->).
      exists p, p. by split_and!.
  - apply local_aux_changes_same_aux. intros s p Hs Hp.
    eapply Forall_forall in Hs; [| done]. eapply Forall_forall in Hp; [| done].
    destruct (default_extractors_scalar s Hs) as [_ ->].
    by destruct (default_extractors_scalar p Hp) as [_ ->].
Qed.

(** X22. With the default extractors, on a pattern and a sequence whose
    items are pairs, the primary value of an item is its first component and
    the aux value its second.  So [retrograde] reports exactly the start
    indices where every item of the window has the first component of the
    item of the pattern at the mirrored offset, and its second component as
    well when [require_same_aux] is set. *)
Theorem default_extractors_on_pairs P S (require_same_aux : bool) :
  Forall is_pair P → Forall is_pair S →
  Forall (λ x, ∃ a b, x = PTuple [a; b] ∧
                      _default_primary x = a ∧ _default_aux x = b) (P ++ S) ∧
  ∃ res,
    retrograde P S _default_primary _default_aux require_same_aux = Ok res ∧
    StronglySorted Z.lt res ∧
    ∀ i, i ∈ res ↔
      P ≠ [] ∧ 0 ≤ i ≤ len S - len P ∧
      ∀ j, 0 ≤ j < len P →
        ∃ a b a' b',
          S !! Z.to_nat (i + j) = Some (PTuple [a; b]) ∧
          P !! Z.to_nat (len P - 1 - j) = Some (PTuple [a'; b']) ∧
          a = a' ∧ (require_same_aux = true → b = b').
Proof.
  intros HP HS.
  assert (HPS : Forall is_pair (P ++ S)) by (by apply Forall_app).
  split.
  - eapply Forall_impl; [exact HPS |]. apply default_extractors_pair.
  - destruct (retrograde_select _default_primary _default_aux
                require_same_aux P S) as (res & Hrun & Hin & Hsorted).
    exists res. split; [done |]. split; [done |]. intros i. rewrite Hin.
    apply and_iff_compat_l, and_iff_compat_l. unfold retrograde_at.
    split; intros Hat j Hj.
    + destruct (Hat j Hj) as (s & p & Hs & Hp & Hprim & Haux).
      eapply Forall_forall in HS; [| by eapply list_elem_of_lookup_2, Hs].
      eapply Forall_forall in HP; [| by eapply list_elem_of_lookup_2, Hp].
      destruct (default_extractors_pair s HS) as (a & b & -> & Has & Hbs).
      destruct (default_extractors_pair p HP) as (a' & b' & -> & Hap & Hbp).
      exists a, b, a', b'. split; [done |]. split; [done |].
      split; [congruence |]. intros Hreq. specialize (Haux Hreq). congruence.
    + destruct (Hat j Hj) as (a & b & a' & b' & Hs & Hp & Ha & Hb).
      exists (PTuple [a; b]), (PTuple [a'; b']). by split_and!.
Qed.
End DefaultExtractors.

(** ** Concrete runs of the properties that have a precondition *)

Lemma shorter_sequence_no_window_witness :
  len [5; 6] < len [1; 2; 3] ∧
  repetition [1; 2; 3] [5; 6] = Ok [] ∧
  transposition [1; 2; 3] [5; 6] id (@no_aux Z) true = Ok [] ∧
  retrograde [1; 2; 3] [5; 6] id (@no_aux Z) true = Ok [] ∧
  inversion [1; 2; 3] [5; 6] id (@no_aux Z) true = Ok [] ∧
  local_aux_changes [1; 2; 3] [5; 6] id (@no_aux Z) None = Ok [] ∧
  local_value_changes [1; 2; 3] [5; 6] id (@no_aux Z) None true = Ok [].
Proof.
  split.
  - unfold len. simpl. lia.
  - apply (shorter_sequence_no_window id id (@no_aux Z) [1; 2; 3] [5; 6] None true).
    unfold len. simpl. lia.
Defined.

Lemma extension_no_room_witness :
  (len [1; 9; 2] ≤ len [1; 2; 3] ∨ ∃ m, @None Z = Some m ∧ m ≤ 0) ∧
  extension [1; 2; 3] [1; 9; 2] None = Ok [].
Proof.
  assert (H : len [1; 9; 2] ≤ len [1; 2; 3] ∨ ∃ m, @None Z = Some m ∧ m ≤ 0).
  { left. unfold len. simpl. lia. }
  split; [exact H |].
  exact (extension_no_room [1; 2; 3] [1; 9; 2] None H).
Defined.

Lemma local_changes_no_room_witness :
  0 ≤ 0 ∧
  local_aux_changes [(1, 10); (2, 10)] [(1, 10); (2, 5)] fst snd (Some 0)
    = Ok [] ∧
  local_value_changes [(1, 10); (2, 10)] [(1, 10); (2, 5)] fst snd (Some 0) true
    = Ok [].
Proof.
  split; [lia |].
  apply (local_changes_no_room fst snd [(1, 10); (2, 10)] [(1, 10); (2, 5)] 0 true).
  lia.
Defined.

Lemma fragmentation_respects_min_len_witness :
  0 ≤ 2 ∧
  ∃ out, fragmentation [1; 2; 3; 4] [1; 2; 4; 5] (Some 2) = Ok out ∧
    Forall (λ r,
      let w := len [1; 2; 3; 4] - len (fr_removed_indices r) in
      2 ≤ w < len [1; 2; 3; 4] ∧
      0 ≤ fr_position r ≤ len [1; 2; 4; 5] - w ∧
      delete_indices (fr_removed_indices r) [1; 2; 3; 4]
      = py_slice [1; 2; 4; 5] (fr_position r) (fr_position r + w)) out.
Proof.
  split; [lia |].
  apply (fragmentation_respects_min_len [1; 2; 3; 4] [1; 2; 4; 5] 2). lia.
Defined.

Lemma fragmentation_no_room_witness :
  len [1; 2; 3; 4] ≤ 4 ∧
  fragmentation [1; 2; 3; 4] [1; 2; 4; 5] (Some 4) = Ok [].
Proof.
  split.
  - unfold len. simpl. lia.
  - apply (fragmentation_no_room [1; 2; 3; 4] [1; 2; 4; 5] 4).
    unfold len. simpl. lia.
Defined.

Lemma same_aux_everywhere_witness :
  (∀ s p : Z, s ∈ [1; 2; 3; 2; 3; 4] → p ∈ [1; 2; 3] →
     @no_aux Z s = @no_aux Z p) ∧
  transposition [1; 2; 3] [1; 2; 3; 2; 3; 4] id (@no_aux Z) true
  = transposition [1; 2; 3] [1; 2; 3; 2; 3; 4] id (@no_aux Z) false ∧
  retrograde [1; 2; 3] [1; 2; 3; 2; 3; 4] id (@no_aux Z) true
  = retrograde [1; 2; 3] [1; 2; 3; 2; 3; 4] id (@no_aux Z) false ∧
  inversion [1; 2; 3] [1; 2; 3; 2; 3; 4] id (@no_aux Z) true
  = inversion [1; 2; 3] [1; 2; 3; 2; 3; 4] id (@no_aux Z) false ∧
  local_value_changes [1; 2; 3] [1; 2; 3; 2; 3; 4] id (@no_aux Z) None true
  = local_value_changes [1; 2; 3] [1; 2; 3; 2; 3; 4] id (@no_aux Z) None false ∧
  local_aux_changes [1; 2; 3] [1; 2; 3; 2; 3; 4] id (@no_aux Z) None = Ok [].
Proof.
  assert (H : ∀ s p : Z, s ∈ [1; 2; 3; 2; 3; 4] → p ∈ [1; 2; 3] →
            @no_aux Z s = @no_aux Z p) by reflexivity.
  split; [exact H |].
  exact (same_aux_everywhere id id (@no_aux Z) [1; 2; 3] [1; 2; 3; 2; 3; 4]
           None H).
Defined.

Lemma default_extractors_on_scalars_witness :
  let P := [PInt 1; PStr "b"; PNone] in
  let S := [PNone; PStr "b"; PInt 1; PInt 0] in
  Forall not_tuple P ∧ Forall not_tuple S ∧
  Forall (λ x, _default_primary x = x ∧ _default_aux x = PNone) (P ++ S) ∧
  (∃ res,
     retrograde P S _default_primary _default_aux true = Ok res ∧
     StronglySorted Z.lt res ∧
     ∀ i, i ∈ res ↔
       P ≠ [] ∧ 0 ≤ i ≤ len S - len P ∧
       ∀ j, 0 ≤ j < len P →
         ∃ s p, S !! Z.to_nat (i + j) = Some s ∧
                P !! Z.to_nat (len P - 1 - j) = Some p ∧ s = p) ∧
  local_aux_changes P S _default_primary _default_aux None = Ok [].
Proof.
  intros P S.
  assert (HP : Forall not_tuple P) by (repeat constructor).
  assert (HS : Forall not_tuple S) by (repeat constructor).
  split; [exact HP |]. split; [exact HS |].
  exact (default_extractors_on_scalars P S true None HP HS).
Defined.

Lemma default_extractors_on_pairs_witness :
  let P := [PTuple [PInt 1; PStr "a"]; PTuple [PInt 2; PStr "b"]] in
  let S := [PTuple [PInt 2; PStr "b"]; PTuple [PInt 1; PStr "a"];
            PTuple [PInt 0; PStr "x"]] in
  Forall is_pair P ∧ Forall is_pair S ∧
  Forall (λ x, ∃ a b, x = PTuple [a; b] ∧
                      _default_primary x = a ∧ _default_aux x = b) (P ++ S) ∧
  ∃ res,
    retrograde P S _default_primary _default_aux true = Ok res ∧
    StronglySorted Z.lt res ∧
    ∀ i, i ∈ res ↔
      P ≠ [] ∧ 0 ≤ i ≤ len S - len P ∧
      ∀ j, 0 ≤ j < len P →
        ∃ a b a' b',
          S !! Z.to_nat (i + j) = Some (PTuple [a; b]) ∧
          P !! Z.to_nat (len P - 1 - j) = Some (PTuple [a'; b']) ∧
          a = a' ∧ (true = true → b = b').
Proof.
  intros P S.
  assert (HP : Forall is_pair P) by (repeat constructor).
  assert (HS : Forall is_pair S) by (repeat constructor).
  split; [exact HP |]. split; [exact HS |].
  exact (default_extractors_on_pairs P S true HP HS).
Defined.

(** The default extractors on the items of the scenario of the retrograde
    detector, and a fragment found in a sequence shorter than the pattern. *)
Example scenario_retrograde_default_extractors :
  retrograde
    [PTuple [PInt 1; PStr "a"]; PTuple [PInt 2; PStr "b"];
     PTuple [PInt 3; PStr "c"]]
    [PTuple [PInt 3; PStr "c"]; PTuple [PInt 2; PStr "b"];
     PTuple [PInt 1; PStr "a"]; PTuple [PInt 0; PStr "x"]]
    _default_primary _default_aux true
  = Ok [0].
Proof. by vm_compute. Qed.

Example fragmentation_in_shorter_sequence :
  fragmentation [1; 2; 3; 4] [1; 2; 4] None = Ok [FragmentationMatch 0 [2]].
Proof. by vm_compute. Qed.

(** ** What the second alignment helper accepts *)

Section AddedPositionsComplete.
Context {T : Type} `{EqDecision T}.
Implicit Types (P F : list T) (i j : Z) (added : list (addition T)).

Lemma added_inv_sublist P F i j added :
  added_inv P F i j added →
  take (Z.to_nat i) P `sublist_of` take (Z.to_nat j) F.
Proof.
  intros (_ & _ & _ & _ & _ & _ & Hdel). rewrite <-Hdel.
  apply delete_from_sublist.
Qed.

Lemma added_inv_last_below P F i j added a :
  added_inv P F i j added → last added = Some a → ad_index a < j.
Proof.
  intros (_ & _ & _ & _ & Hb & _) Hlast.
  apply last_Some_elem_of in Hlast. eapply Forall_forall in Hb; [| done].
  simpl in Hb. lia.
Qed.

Lemma first_item_kept_snoc P F added j (v : T) :
  0 < j → first_item_kept P F added →
  first_item_kept P F (added ++ [Addition j v]).
Proof.
  intros Hj Hk. unfold first_item_kept in *. rewrite Hk. split.
  - intros Hall a Ha. apply elem_of_app in Ha as [Ha | Ha]; [by apply Hall |].
    apply list_elem_of_singleton in Ha as ->. simpl. lia.
  - intros Hall a Ha. apply Hall, elem_of_app. by left.
Qed.

Lemma last_item_added_snoc P F i j added (v : T) :
  added_inv P F i j added →
  last_item_added P F i (j + 1) (added ++ [Addition j v]).
Proof.
  intros Hinv. unfold last_item_added. replace (j + 1 - 1) with j by lia.
  split; [intros _; by eapply added_inv_sublist |].
  intros _. exists (Addition j v). by rewrite last_snoc.
Qed.

(** The two loops of the helper, with what they establish. *)
Lemma added_positions_loops P F :
  ∃ i added,
    _added_positions_for_fragment P F =
      (if bool_decide (i ≠ len P) || bool_decide (len added = 0) then Ok None
       else
         first ← py_index added 0;
         last ← py_index added (-1);
         if bool_decide (ad_index first = 0)
            || bool_decide (ad_index last = len F - 1)
         then Ok None
         else Ok (Some added)) ∧
    added_inv P F i (len F) added ∧
    (P `sublist_of` F → i = len P) ∧
    (0 < len F → last_item_added P F i (len F) added) ∧
    (0 < len F → first_item_kept P F added).
Proof.
  unfold _added_positions_for_fragment. cbv zeta.
  destruct (while_inv
    (λ '(i, j, added),
       added_inv P F i j added ∧
       (∀ n : nat, (n ≤ length P)%nat →
          take n P `sublist_of` take (Z.to_nat j) F → Z.of_nat n ≤ i) ∧
       (0 < j → last_item_added P F i j added) ∧
       (0 < j → first_item_kept P F added))
    (λ '(_, j, _), Z.to_nat (len F - j))
    (λ '(i, j, _), bool_decide (j < len F) && bool_decide (i < len P))
    (λ '(i, j, added),
       f ← py_index F j;
       p ← py_index P i;
       if decide (f = p) then Ok (i + 1, j + 1, added)
       else
         v ← py_index F j;
         Ok (i, j + 1, added ++ [Addition j v])))
    with (fuel := length F) (st := (0, 0, @nil (addition T)))
    as ([[i j] added1] & Hw1 & (Hinv1 & Hmax1 & Hlast1 & Hkept1) & Hc1).
  - intros [[i j] added0] (Hinv & Hmax & Hlast & Hkept) Hc.
    apply andb_true_iff in Hc as [Hcj Hci].
    apply bool_decide_eq_true in Hci, Hcj.
    pose proof Hinv as (Hij & _ & _ & _ & Hb & _).
    destruct (py_index_inbounds F j) as (f & Hf & Hfi); [lia |].
    destruct (py_index_inbounds P i) as (p & Hp & Hpi); [lia |].
    rewrite Hfi. simpl. rewrite Hpi. simpl.
    assert (Htake : take (Z.to_nat (j + 1)) F = take (Z.to_nat j) F ++ [f]).
    { replace (Z.to_nat (j + 1)) with (S (Z.to_nat j)) by lia.
      by apply take_S_r. }
    destruct (decide (f = p)) as [-> | Hne].
    + eexists. split; [done |].
      split_and!; [by eapply added_inv_match | | | | lia].
      * intros n Hn Hsub. rewrite Htake in Hsub.
        apply sublist_snoc_r in Hsub as [Hsub | (l' & Heq & Hsub)].
        -- specialize (Hmax n Hn Hsub). lia.
        -- apply take_snoc_inv in Heq as (Hn0 & -> & _); [| done].
           assert (Hn1 : (n - 1 ≤ length P)%nat) by lia.
           specialize (Hmax (n - 1)%nat Hn1 Hsub). lia.
      * intros _. unfold last_item_added. replace (j + 1 - 1) with j by lia.
        split.
        -- intros (a & Ha & Hidx).
           pose proof (added_inv_last_below _ _ _ _ _ _ Hinv Ha). lia.
        -- intros Hsub. unfold len in Hci.
           assert (Hn1 : (Z.to_nat (i + 1) ≤ length P)%nat) by lia.
           specialize (Hmax _ Hn1 Hsub). lia.
      * intros _. destruct (decide (j = 0)) as [-> | Hj0]; [| apply Hkept; lia].
        assert (i = 0) as -> by lia. unfold first_item_kept.
        rewrite !head_lookup. change (Z.to_nat 0) with 0%nat in Hf, Hp.
        rewrite Hf, Hp. split; [| by intros _; split; [| eexists]].
        intros _ a Ha. eapply Forall_forall in Hb; [| done]. simpl in Hb. lia.
    + eexists. split; [done |].
      split_and!; [by eapply added_inv_skip | | | | lia].
      * intros n Hn Hsub. rewrite Htake in Hsub.
        apply sublist_snoc_r in Hsub as [Hsub | (l' & Heq & Hsub)];
          [by apply Hmax |].
        apply take_snoc_inv in Heq as (Hn0 & -> & Hx); [| done].
        assert (Hn1 : (n - 1 ≤ length P)%nat) by lia.
        specialize (Hmax (n - 1)%nat Hn1 Hsub).
        destruct (decide (Z.of_nat (n - 1) = i)) as [Heq | Hneq]; [| lia].
        exfalso. apply Hne. rewrite <-Heq, Nat2Z.id in Hp. congruence.
      * intros _. by apply last_item_added_snoc.
      * intros _. destruct (decide (j = 0)) as [-> | Hj0];
          [| apply first_item_kept_snoc; [lia | apply Hkept; lia]].
        assert (i = 0) as -> by lia. unfold first_item_kept.
        rewrite !head_lookup. change (Z.to_nat 0) with 0%nat in Hf, Hp.
        rewrite Hf, Hp. split; [intros [[= ->] _]; done |].
        intros Hall. destruct (Hall (Addition 0 f)); [| done].
        apply elem_of_app. right. by left.
  - split_and!; [apply added_inv_init | | lia | lia].
    intros n Hn Hsub. simpl in Hsub. apply sublist_nil_r in Hsub.
    apply (f_equal length) in Hsub. rewrite length_take in Hsub.
    simpl in Hsub. lia.
  - unfold len. lia.
  - rewrite Hw1. simpl.
    assert (Hexit : j < len F → i = len P).
    { intros Hj. destruct Hinv1 as (_ & HiP & _).
      apply andb_false_iff in Hc1 as [Hc | Hc];
        apply bool_decide_eq_false in Hc; lia. }
    destruct (while_inv
      (λ '(j2, added),
         j ≤ j2 ∧
         added_inv P F i j2 added ∧
         (0 < j2 → last_item_added P F i j2 added) ∧
         (0 < j2 → first_item_kept P F added))
      (λ '(j, _), Z.to_nat (len F - j))
      (λ '(j, _), bool_decide (j < len F))
      (λ '(j, added),
         v ← py_index F j;
         Ok (j + 1, added ++ [Addition j v])))
      with (fuel := length F) (st := (j, added1))
      as ([j' added'] & Hw2 & (Hjj & Hinv2 & Hlast2 & Hkept2) & Hc2).
    + intros [j2 added2] (Hjj & Hinv & Hlast & Hkept) Hc.
      apply bool_decide_eq_true in Hc.
      pose proof Hinv as (Hij & _ & _ & _ & Hb & _).
      destruct (py_index_inbounds F j2) as (v & Hv & Hvi); [lia |].
      rewrite Hvi. simpl. eexists. split; [done |].
      split_and!; [lia | by eapply added_inv_skip | | | lia].
      * intros _. by apply last_item_added_snoc.
      * intros _. destruct (decide (j2 = 0)) as [-> | Hj0];
          [| apply first_item_kept_snoc; [lia | apply Hkept; lia]].
        (* the pattern has no item: the first item is an addition *)
        assert (len P = 0) as HP0.
        { destruct Hinv1 as (Hij1 & _). lia. }
        apply len_nil_inv in HP0. subst P. unfold first_item_kept. simpl.
        split; [by intros [_ [? ?]] |].
        intros Hall. destruct (Hall (Addition 0 v)); [| done].
        apply elem_of_app. right. by left.
    + split; [lia | done].
    + destruct Hinv1 as (? & _). unfold len. lia.
    + rewrite Hw2. simpl. apply bool_decide_eq_false in Hc2.
      pose proof Hinv2 as (_ & _ & HjF & _).
      assert (j' = len F) as -> by lia.
      exists i, added'. split; [done |]. split; [done |].
      split; [| split; [done | done]].
      intros Hsub. destruct Hinv1 as (_ & HiP & HjF1 & _).
      destruct (decide (j < len F)) as [Hj | Hj]; [by apply Hexit |].
      assert (j = len F) as -> by lia.
      assert (Hn1 : (length P ≤ length P)%nat) by lia.
      specialize (Hmax1 (length P) Hn1).
      rewrite firstn_all in Hmax1.
      replace (Z.to_nat (len F)) with (length F) in Hmax1 by (unfold len; lia).
      rewrite firstn_all in Hmax1. specialize (Hmax1 Hsub). unfold len in *. lia.
Qed.

Lemma added_positions_accepts P F :
  ∃ o, _added_positions_for_fragment P F = Ok o ∧
    (is_Some o ↔
       P `sublist_of` F ∧ len P < len F ∧
       (∃ x, head P = Some x ∧ head F = Some x) ∧
       ¬ P `sublist_of` take (length F - 1) F) ∧
    (∀ added, o = Some added →
       len added = len F - len P ∧
       delete_indices (ad_index <$> added) F = P).
Proof.
  destruct (added_positions_loops P F)
    as (i & added & -> & Hinv & Hfull & Hlast & Hkept).
  pose proof Hinv as (Hij & HiP & _ & Hs & Hb & Hlen & Hdel).
  pose proof (added_inv_sublist _ _ _ _ _ Hinv) as Hsub.
  replace (Z.to_nat (len F)) with (length F) in Hsub, Hdel
    by (unfold len; lia).
  rewrite firstn_all in Hsub, Hdel.
  destruct (decide (i = len P)) as [-> | Hi]; cycle 1.
  { rewrite bool_decide_eq_true_2 by done. simpl. eexists. split; [done |].
    split; [| by intros ? [=]].
    split; [by intros [? [=]] |]. intros (HPF & _). by specialize (Hfull HPF). }
  assert (HlP : Z.to_nat (len P) = length P) by (unfold len; lia).
  unfold last_item_added in Hlast.
  rewrite HlP, firstn_all in Hsub, Hdel. rewrite HlP, firstn_all in Hlast.
  rewrite (bool_decide_eq_false_2 (len P ≠ len P)) by tauto. simpl.
  destruct (decide (len added = 0)) as [H0 | H0].
  { rewrite bool_decide_eq_true_2 by done. eexists. split; [done |].
    split; [| by intros ? [=]].
    split; [by intros [? [=]] |]. intros (_ & Hlt & _). lia. }
  rewrite bool_decide_eq_false_2 by done.
  assert (HF0 : 0 < len F) by (pose proof (len_nonneg P); lia).
  specialize (Hlast HF0). specialize (Hkept HF0).
  destruct added as [| a0 added0] using rev_ind; [done |]. clear IHadded0.
  destruct (py_index_inbounds (added0 ++ [a0]) 0) as (first & Hfirst & ->).
  { pose proof (len_nonneg (added0 ++ [a0])). lia. }
  rewrite py_index_last. simpl.
  replace (Z.to_nat (len F - 1)) with (length F - 1)%nat in Hlast
    by (unfold len; lia).
  assert (Hlast' : ad_index a0 = len F - 1 ↔
                   P `sublist_of` take (length F - 1) F).
  { rewrite <-Hlast. rewrite last_snoc. split.
    - intros ?. by exists a0.
    - by intros (a & [= ->] & ?). }
  assert (Hfirst' : ad_index first ≠ 0 ↔
                    ∃ x, head P = Some x ∧ head F = Some x).
  { transitivity (head F = head P ∧ is_Some (head P)).
    - unfold first_item_kept in Hkept. rewrite Hkept. split.
      + intros Hne b Hbin. change (Z.to_nat 0) with 0%nat in Hfirst.
        rewrite <-head_lookup in Hfirst.
        pose proof (sorted_key_head_min ad_index _ _ Hs Hfirst) as Hmin.
        eapply Forall_forall in Hmin; [| done].
        eapply Forall_forall in Hb; [| by eapply head_Some_elem_of].
        simpl in Hb. lia.
      + intros Hall. apply Hall. change (Z.to_nat 0) with 0%nat in Hfirst.
        by eapply list_elem_of_lookup_2.
    - split.
      + intros [Heq [x Hx]]. exists x. by rewrite Heq.
      + intros (x & HxP & HxF). rewrite HxP, HxF. by split; [| eexists]. }
  destruct (decide (ad_index first = 0)) as [Hf0 | Hf0].
  { rewrite bool_decide_eq_true_2 by done. simpl. eexists. split; [done |].
    split; [| by intros ? [=]].
    split; [by intros [? [=]] |]. intros (_ & _ & Hx & _).
    apply Hfirst' in Hx. done. }
  rewrite bool_decide_eq_false_2 by done. simpl.
  destruct (decide (ad_index a0 = len F - 1)) as [Hl0 | Hl0].
  { rewrite bool_decide_eq_true_2 by done. eexists. split; [done |].
    split; [| by intros ? [=]].
    split; [by intros [? [=]] |]. intros (_ & _ & _ & Hn).
    exfalso. apply Hn, Hlast', Hl0. }
  rewrite bool_decide_eq_false_2 by done. eexists. split; [done |]. split.
  - split; [| by eexists]. intros _. split_and!; [done | lia | | ].
    + by apply Hfirst'.
    + intros Hn. by apply Hl0, Hlast'.
  - intros ? [= <-]. split; [lia | done].
Qed.
End AddedPositionsComplete.

(** X23. [_added_positions_for_fragment] always returns, and it returns a
    list of additions exactly when the fragment is longer than the pattern,
    has the pattern as a subsequence, begins with the first item of the
    pattern, and no longer has the pattern as a subsequence once its last
    item is dropped; in every other case it returns [None].  The additions
    it returns are as many as the fragment is longer, and deleting them from
    the fragment gives the pattern. *)
Theorem added_positions_exact {T : Type} `{EqDecision T} (P F : list T) :
  ∃ o, _added_positions_for_fragment P F = Ok o ∧
    (is_Some o ↔
       P `sublist_of` F ∧ len P < len F ∧
       (∃ x, head P = Some x ∧ head F = Some x) ∧
       ¬ P `sublist_of` take (length F - 1) F) ∧
    (∀ added, o = Some added →
       len added = len F - len P ∧
       delete_indices (ad_index <$> added) F = P).
Proof. apply added_positions_accepts. Qed.

(** ** A sequence that is the pattern with items left out *)

Lemma StronglySorted_pair {Y : Type} (R : relation Y) (l : list Y) (x y : Y) :
  StronglySorted R l → x ∈ l → y ∈ l → x = y ∨ R x y ∨ R y x.
Proof.
  induction 1 as [| a l Hs IH Ha]; intros Hx Hy; [by inversion Hx |].
  apply elem_of_cons in Hx as [-> | Hx]; apply elem_of_cons in Hy as [-> | Hy].
  - by left.
  - right. left. by eapply Forall_forall in Ha.
  - right. right. by eapply Forall_forall in Ha.
  - auto.
Qed.

Section FragmentOfPattern.
Context {T : Type} `{EqDecision T}.
Implicit Types (P S : list T).

Lemma exact_spans_shorter P S : len S < len P → exact_spans P S = [].
Proof.
  intros Hlt. unfold exact_spans. cbv zeta. by rewrite py_range_empty by lia.
Qed.

Lemma py_slice_all S : py_slice S 0 (0 + len S) = S.
Proof.
  pose proof (len_nonneg S). rewrite py_slice_window by lia.
  change (Z.to_nat 0) with 0%nat. rewrite drop_0.
  replace (Z.to_nat (len S)) with (length S) by (unfold len; lia).
  apply firstn_all.
Qed.

Lemma fragmentation_of_subsequence P S :
  S `sublist_of` P → len P - len P `div` 4 ≤ len S < len P →
  ∃ removed,
    fragmentation P S None = Ok [FragmentationMatch 0 removed] ∧
    StronglySorted Z.lt removed ∧
    len removed = len P - len S ∧
    delete_indices removed P = S.
Proof.
  intros Hsub Hlen.
  pose proof (default_min_len_bounds (len P) (len_nonneg P)) as (Hm0 & Hm1 & _).
  pose proof (len_nonneg S) as HS0.
  destruct (removed_positions_accepts P S) as (o & Hrun & Hsome & Hspec).
  apply Hsome in Hsub as [removed ->].
  destruct (Hspec removed eq_refl) as (Hs & Hb & Hl & Hdel).
  exists removed. split; [| done].
  assert (Hc0 : frag_candidate P S (len S) 0 removed).
  { split; [lia |]. split; [by rewrite exact_spans_shorter by lia |].
    by rewrite py_slice_all. }
  destruct (fragmentation_run P S)
    as (results & out & Hfrag & Hsweep & Hsorted & Hin).
  rewrite Hfrag. f_equal.
  assert (Hr0 : FragmentationMatch 0 removed ∈ results).
  { apply Hin. simpl. exists (len S).
    split; [apply elem_of_py_range; lia |]. split; [done |].
    intros fl' r' Hfl' (Hst & _). lia. }
  assert (Hwf : ∀ r, r ∈ results →
            ∃ fl, 1 ≤ fl ∧ 0 ≤ fr_position r ≤ len S - fl ∧
                  len (fr_removed_indices r) = len P - fl).
  { intros r Hr. apply Hin, best_candidate_window in Hr as (fl & Hfl1 & Hfl & Hc).
    exists fl. pose proof Hc as (Hst & _).
    apply frag_candidate_removed in Hc as (_ & _ & Hlr & _); [| lia]. done. }
  destruct (fragmentation_sweep_disjoint (len P) results Hsorted)
    as (out1 & Hout1 & Hdis & _).
  { apply Forall_forall. intros r Hr. destruct (Hwf r Hr) as (fl & ? & ? & ?).
    lia. }
  rewrite Hsweep in Hout1. injection Hout1 as <-.
  destruct (fragmentation_sweep_sublist (len P) results)
    as (out2 & Hout2 & Hsubl).
  rewrite Hsweep in Hout2. injection Hout2 as <-.
  (* the record at 0 is the first of the per-start results, and is kept *)
  assert (Hkept : FragmentationMatch 0 removed ∈ out).
  { destruct results as [| r1 post]; [by inversion Hr0 |].
    assert (r1 = FragmentationMatch 0 removed) as ->.
    { apply elem_of_cons in Hr0 as [-> | Hr0]; [done |]. exfalso.
      rewrite fmap_cons in Hsorted.
      apply StronglySorted_cons in Hsorted as [Hlt _].
      eapply Forall_forall in Hlt;
        [| by apply (list_elem_of_fmap_2 fr_position), Hr0].
      simpl in Hlt. destruct (Hwf r1) as (fl & ? & ? & ?); [by left | lia]. }
    destruct (fragmentation_sweep_greedy (len P) []
                (FragmentationMatch 0 removed) post)
      as (kept & out3 & Hk & Ho & _ & Hiff).
    { simpl. eapply NoDup_fmap_1, StronglySorted_lt_NoDup, Hsorted. }
    simpl in Ho. rewrite Hsweep in Ho. injection Ho as <-.
    unfold fragmentation_sweep in Hk. simpl in Hk. injection Hk as <-.
    apply Hiff. unfold last_end. simpl. lia. }
  apply (sorted_key_singleton fr_position).
  { eapply StronglySorted_sublist; [| done]. by apply fmap_sublist. }
  intros z. split; [| by intros ->].
  intros Hz. destruct (Hwf z) as (fl & Hfl1 & Hpos & Hlz);
    [by eapply elem_of_sublist |].
  destruct (StronglySorted_pair _ _ _ _ Hdis Hz Hkept) as [Heq | [Hlt | Hlt]];
    [done | |]; exfalso; unfold fr_end in Hlt; simpl in Hlt; lia.
Qed.
End FragmentOfPattern.

(** X24. A sequence that is the pattern with some items left out, at most a
    quarter of them and at least one, is reported by [fragmentation] (with
    the default [min_len]) as one fragment: a single record, at position 0,
    whose window is the whole sequence.  Its removed indices are strictly
    increasing, as many as the items left out, and deleting them from the
    pattern gives the sequence. *)
Theorem fragmentation_of_pattern_with_gaps {T : Type} `{EqDecision T}
    (P S : list T) :
  S `sublist_of` P → len P - len P `div` 4 ≤ len S < len P →
  ∃ removed,
    fragmentation P S None = Ok [FragmentationMatch 0 removed] ∧
    StronglySorted Z.lt removed ∧
    len removed = len P - len S ∧
    delete_indices removed P = S.
Proof. apply fragmentation_of_subsequence. Qed.

Lemma fragmentation_of_pattern_with_gaps_witness :
  ∃ removed,
    fragmentation [1; 2; 3; 4; 5] [1; 2; 4; 5] None
      = Ok [FragmentationMatch 0 removed] ∧
    StronglySorted Z.lt removed ∧
    len removed = len [1; 2; 3; 4; 5] - len [1; 2; 4; 5] ∧
    delete_indices removed [1; 2; 3; 4; 5] = [1; 2; 4; 5].
Proof.
  apply (fragmentation_of_pattern_with_gaps [1; 2; 3; 4; 5] [1; 2; 4; 5]).
  - apply sublist_skip, sublist_skip, sublist_cons, sublist_skip, sublist_skip.
    constructor.
  - vm_compute. split; [by intros [=] | done].
Defined.

(** ** The start indices of the extensions, without the helper *)

Section ExtensionPositions.
Context {T : Type} `{EqDecision T}.
Implicit Types (P S F : list T) (i w : Z).

Lemma ext_qualifies_iff P S lens i w :
  w ∈ lens → len P + 1 ≤ w → 0 ≤ i → i + w ≤ len S →
  (∃ added, ext_qualifies P S lens i w added) ↔
  P `sublist_of` py_slice S i (i + w) ∧
  (∃ x, head P = Some x ∧ head (py_slice S i (i + w)) = Some x) ∧
  ¬ P `sublist_of` take (Z.to_nat (w - 1)) (py_slice S i (i + w)).
Proof.
  intros Hw HwP Hi HiS. pose proof (len_nonneg P) as HP0.
  assert (HlF : len (py_slice S i (i + w)) = w)
    by (apply len_py_slice_window; lia).
  assert (Hlast : (length (py_slice S i (i + w)) - 1)%nat = Z.to_nat (w - 1))
    by (unfold len in HlF; lia).
  destruct (added_positions_accepts P (py_slice S i (i + w)))
    as (o & Hrun & Hsome & _).
  rewrite Hlast, HlF in Hsome. split.
  - intros (added & _ & _ & _ & Ha). rewrite Hrun in Ha. injection Ha as ->.
    destruct Hsome as [Hsome _].
    destruct Hsome as (? & ? & ? & ?); [by eexists | done].
  - intros (Hsub & Hhead & Hneed).
    destruct Hsome as [_ Hsome].
    destruct Hsome as [added ->]; [split_and!; [done | lia | done | done] |].
    exists added. by split_and!.
Qed.

Lemma extension_positions_select P S max_extra :
  ∃ res, extension P S max_extra = Ok res ∧
    StronglySorted Z.lt (ex_position <$> res) ∧
    ∀ i, i ∈ ex_position <$> res ↔
      ∃ w, w ∈ extension_lengths P max_extra ∧ 0 ≤ i ∧ i + w ≤ len S ∧
        P `sublist_of` py_slice S i (i + w) ∧
        (∃ x, head P = Some x ∧ head (py_slice S i (i + w)) = Some x) ∧
        ¬ P `sublist_of` take (Z.to_nat (w - 1)) (py_slice S i (i + w)).
Proof.
  destruct (extension_select P S max_extra) as (res & Hrun & Hin & Hsorted).
  exists res. split; [done |]. split; [done |]. intros i.
  assert (Hlens : ∀ w, w ∈ extension_lengths P max_extra → len P + 1 ≤ w).
  { intros w Hw. unfold extension_lengths in Hw.
    apply elem_of_py_range in Hw. lia. }
  rewrite list_elem_of_fmap. split.
  - intros (r & -> & Hr). apply Hin in Hr as (w & Hq & _).
    pose proof Hq as (Hw & H0 & HN & _). exists w.
    split; [done |]. split; [done |]. split; [done |].
    apply (ext_qualifies_iff P S (extension_lengths P max_extra)); auto.
    by eexists.
  - intros (w & Hw & H0 & HN & Hcond).
    apply (ext_qualifies_iff P S (extension_lengths P max_extra)) in Hcond
      as [added Hq]; auto.
    exists (ExtensionMatch i added). split; [done |]. apply Hin. simpl.
    exists w. split; [done |]. intros w' added' Hq'.
    destruct (decide (w' ≤ w)) as [Hle | Hgt]; [done |]. exfalso.
    pose proof (len_nonneg P). specialize (Hlens w Hw).
    eapply (ext_qualifies_unique P S _ _ i w w'); [exact Hq | exact Hq' | lia].
Qed.
End ExtensionPositions.

(** X25. The start indices that [extension] reports, listed in strictly
    ascending order, are exactly those where a window of one of the tried
    lengths lies inside the sequence, has the pattern as a subsequence,
    begins with the first item of the pattern, and no longer has the pattern
    as a subsequence once its last item is dropped. *)
Theorem extension_positions_exact {T : Type} `{EqDecision T}
    (P S : list T) (max_extra : option Z) :
  ∃ res, extension P S max_extra = Ok res ∧
    StronglySorted Z.lt (ex_position <$> res) ∧
    ∀ i, i ∈ ex_position <$> res ↔
      ∃ w, w ∈ extension_lengths P max_extra ∧ 0 ≤ i ∧ i + w ≤ len S ∧
        P `sublist_of` py_slice S i (i + w) ∧
        (∃ x, head P = Some x ∧ head (py_slice S i (i + w)) = Some x) ∧
        ¬ P `sublist_of` take (Z.to_nat (w - 1)) (py_slice S i (i + w)).
Proof. apply extension_positions_select. Qed.
